(** * cr2/thermal.py: parsing of thermal trace dumps

    A shallow embedding of the trace parser of [cr2/thermal.py]
    ([trace_parser_explode_array] and the class [BaseThermal]) together with
    the properties of it that the specification states.

    Python strings are lists of characters.  The regular expressions of the
    source are kept as data (module [Re]) and run by a backtracking matcher
    that follows the search order of Python's [re] module on the constructs
    the source uses: literals, character classes, greedy [+] over a class and
    capture groups. *)

From Stdlib Require Import Ascii String List Arith Lia Bool DecimalString.
From Stdlib Require Import ZArith Floats.PrimFloat Uint63.
From stdpp Require Import base option list strings gmap.

Open Scope string_scope.
Open Scope list_scope.
Open Scope nat_scope.

(** Python [str] values. *)
Abbreviation str := (list ascii).

(** A string literal of the source as a [str]. *)
Definition py (x : string) : str := list_ascii_of_string x.

(* ------------------------------------------------------------------------- *)
(** ** Regular expressions (the fragment of Python's [re] used by the source) *)

Module Re.

(** Character classes. *)
Definition only c : ascii -> bool := fun x => Ascii.eqb x c.
Definition except c : ascii -> bool := fun x => negb (Ascii.eqb x c).

Definition between (lo hi : nat) (x : ascii) : bool :=
  (lo <=? nat_of_ascii x)%nat && (nat_of_ascii x <=? hi)%nat.

(** [[0-9]] *)
Definition digit (x : ascii) : bool := between 48 57 x.
(** [[A-Za-z0-9_]] *)
Definition word (x : ascii) : bool :=
  between 65 90 x || between 97 122 x || digit x || only "_" x.
(** [[^ ]] *)
Definition not_space : ascii -> bool := except " ".
(** [[^}]] *)
Definition not_rbrace : ascii -> bool := except "}".
(** [[^=]] *)
Definition not_eq : ascii -> bool := except "=".
(** [[^ {]] *)
Definition not_space_lbrace (x : ascii) : bool := except " " x && except "{" x.
(** [.]: any character but a newline *)
Definition dot : ascii -> bool := except "010".

(** A pattern is a sequence of atoms. *)
Inductive atom : Type :=
  | Lit (c : ascii)              (* the character [c] *)
  | Cls (p : ascii -> bool)      (* one character of the class [p] *)
  | Plus (p : ascii -> bool)     (* [p+], greedy *)
  | Open                         (* [(] *)
  | Close.                       (* [)] *)

Definition regex := list atom.

(** Length of the longest prefix of [s] made of characters of class [p]. *)
Fixpoint span (p : ascii -> bool) (s : str) : nat :=
  match s with
  | c :: s' => if p c then S (span p s') else 0
  | [] => 0
  end.

(** Greedy repetition: give the continuation [k] the subject after [n]
    characters, then after [n-1], ... down to one character. *)
Fixpoint backtrack {R} (k : str -> option R) (s : str) (n : nat) : option R :=
  match n with
  | 0 => None
  | S m =>
      match k (drop n s) with
      | Some r => Some r
      | None => backtrack k s m
      end
  end.

(** Match the pattern at the start of [s].  [opens] holds the subject as it
    was at each group still open, [groups] the groups closed so far (last
    first).  The result is the list of groups and what is left of [s]. *)
Fixpoint match_here (p : regex) (opens groups : list str) (s : str)
  : option (list str * str) :=
  match p with
  | [] => Some (rev groups, s)
  | Lit c :: p' =>
      match s with
      | x :: s' => if Ascii.eqb x c then match_here p' opens groups s' else None
      | [] => None
      end
  | Cls q :: p' =>
      match s with
      | x :: s' => if q x then match_here p' opens groups s' else None
      | [] => None
      end
  | Plus q :: p' => backtrack (match_here p' opens groups) s (span q s)
  | Open :: p' => match_here p' (s :: opens) groups s
  | Close :: p' =>
      match opens with
      | o :: os => match_here p' os (take (length o - length s) o :: groups) s
      | [] => None
      end
  end.

(** A match object, as the parts of the subject that the source cuts out
    with it: [string[:m.start()]], [m.group()], [string[m.end():]], and
    [m.groups()]. *)
Record Match : Type := mkMatch {
  before : str;
  group0 : str;
  after : str;
  groups : list str
}.

Definition shift (c : ascii) (m : Match) : Match :=
  mkMatch (c :: before m) (group0 m) (after m) (groups m).

(** [re.match(p, s)] *)
Definition match_ (p : regex) (s : str) : option Match :=
  match match_here p [] [] s with
  | Some (gs, rest) => Some (mkMatch [] (take (length s - length rest) s) rest gs)
  | None => None
  end.

(** [re.search(p, s)]: the match at the leftmost position that has one. *)
Fixpoint search (p : regex) (s : str) : option Match :=
  match match_ p s with
  | Some m => Some m
  | None =>
      match s with
      | c :: s' => option_map (shift c) (search p s')
      | [] => None
      end
  end.

(** [re.sub(p, repl, s)] for patterns that match no empty string: the
    non-overlapping matches, leftmost first, each replaced by [repl m]. *)
Fixpoint sub_fuel (fuel : nat) (p : regex) (repl : Match -> str) (s : str) : str :=
  match fuel with
  | 0 => s
  | S fuel' =>
      match search p s with
      | Some m => before m ++ repl m ++ sub_fuel fuel' p repl (after m)
      | None => s
      end
  end.

Definition sub (p : regex) (repl : Match -> str) (s : str) : str :=
  sub_fuel (length s) p repl s.

(** The group [\1] of a match, as a replacement template. *)
Definition g1 (m : Match) : str := nth 0 (groups m) [].

(** Characters with a special meaning in a pattern. *)
Definition meta (x : ascii) : bool :=
  existsb (Ascii.eqb x) (py ".^$*+?{}[]\|()").

(** [re.compile] on a pattern given as text, for patterns made of ordinary
    characters and [.]; a pattern with another special character is outside
    this fragment. *)
Fixpoint compile (pat : str) : option regex :=
  match pat with
  | [] => Some []
  | c :: pat' =>
      if Ascii.eqb c "." then option_map (cons (Cls dot)) (compile pat')
      else if meta c then None
      else option_map (cons (Lit c)) (compile pat')
  end.

End Re.

(* ------------------------------------------------------------------------- *)
(** ** Python values used by the parser *)

(** Exceptions the modelled code can raise. *)
Inductive exn : Type :=
  | KeyError        (* [d[k]] on a [dict] without [k] *)
  | AttributeError  (* [.group], [.groups] or [.start] on [None] *)
  | IOError         (* raised by [__run_trace_cmd_report] *)
  | OSError         (* a failure of the [trace-cmd] run *)
  | ValueError      (* raised by pandas *)
  | TypeError.      (* raised by pandas *)

(** Outcome of a call: a value or an exception. *)
Inductive res (A : Type) : Type :=
  | Ret (a : A)
  | Raise (e : exn).
Arguments Ret {A} a.
Arguments Raise {A} e.

#[global] Instance res_bind : MBind res := fun A B f x =>
  match x with
  | Ret a => f a
  | Raise e => Raise e
  end.
#[global] Instance res_ret : MRet res := fun A a => Ret a.

(** [m.groups()[0]], [m.group(1)], [m.start()] of a search that may have
    returned [None]. *)
Definition group1_of (m : option Re.Match) : res str :=
  match m with
  | Some m => Ret (Re.g1 m)
  | None => Raise AttributeError
  end.

(** [str(n)] for a natural number. *)
Definition str_of_nat (n : nat) : str :=
  py (DecimalString.NilEmpty.string_of_uint (Nat.to_uint n)).

(** [s.split(sep)] for a one-character separator. *)
Fixpoint split (sep : ascii) (s : str) : list str :=
  match s with
  | [] => [[]]
  | c :: s' =>
      if Ascii.eqb c sep then [] :: split sep s'
      else match split sep s' with
           | w :: ws => (c :: w) :: ws
           | [] => [[c]]
           end
  end.

(** [s[:-1]] *)
Definition drop_last (s : str) : str := take (length s - 1) s.

(** A mapping from names to lengths: a plain [dict], or a
    [collections.defaultdict(int)], where a missing key reads as [0]. *)
Inductive mapping : Type :=
  | Dict (m : gmap str nat)
  | DefaultDict (m : gmap str nat).

(** [d[k]] on a [defaultdict(int)] with the entries [m]: the value read and
    the entries after the access; reading a missing key stores the default
    under it. *)
Definition defaultdict_get (m : gmap str nat) (k : str) : nat * gmap str nat :=
  match m !! k with
  | Some v => (v, m)
  | None => (0, <[k := 0]> m)
  end.

(** [d[k]] with the mapping after the access. *)
Definition getitem_st (d : mapping) (k : str) : res (nat * mapping) :=
  match d with
  | Dict m =>
      match m !! k with
      | Some v => Ret (v, d)
      | None => Raise KeyError
      end
  | DefaultDict m =>
      let '(v, m') := defaultdict_get m k in Ret (v, DefaultDict m')
  end.

(** The value of [d[k]]. *)
Definition getitem (d : mapping) (k : str) : res nat :=
  p ← getitem_st d k; Ret (fst p).

(* ------------------------------------------------------------------------- *)
(** ** [trace_parser_explode_array] *)

(** [r"[^ ]+={[^}]+}"] *)
Definition pat_explode : Re.regex :=
  [Re.Plus Re.not_space; Re.Lit "="; Re.Lit "{"; Re.Plus Re.not_rbrace; Re.Lit "}"].
(** [r"([^=]+)="] *)
Definition pat_basename : Re.regex :=
  [Re.Open; Re.Plus Re.not_eq; Re.Close; Re.Lit "="].
(** [r"{(.+)}"] *)
Definition pat_vals : Re.regex :=
  [Re.Lit "{"; Re.Open; Re.Plus Re.dot; Re.Close; Re.Lit "}"].

(** ["{}{}={} ".format(col_basename, idx, val)] *)
Definition fmt_elem (col_basename : str) (idx : nat) (val : str) : str :=
  col_basename ++ str_of_nat idx ++ py "=" ++ val ++ py " ".

(** The first [for] loop: [enumerate(vals_array)] from index [idx]. *)
Fixpoint explode_vals (col_basename : str) (idx : nat) (vals_array : list str) : str :=
  match vals_array with
  | [] => []
  | val :: vals => fmt_elem col_basename idx val ++ explode_vals col_basename (S idx) vals
  end.

(** The second [for] loop: [range(vals_added, length)], [n] indices from
    [idx]. *)
Fixpoint explode_pad (col_basename : str) (idx n : nat) : str :=
  match n with
  | 0 => []
  | S n' => fmt_elem col_basename idx (py "0") ++ explode_pad col_basename (S idx) n'
  end.

(** The text that replaces one match. *)
Definition exploded_of (to_explode : str) (array_lengths : mapping) : res str :=
  col_basename ← group1_of (Re.match_ pat_basename to_explode);
  vals_str ← group1_of (Re.search pat_vals to_explode);
  let vals_array := split " " vals_str in
  let exploded_str := explode_vals col_basename 0 vals_array in
  let vals_added := length vals_array in
  width ← getitem array_lengths col_basename;
  let exploded_str :=
    if vals_added <? width
    then exploded_str ++ explode_pad col_basename vals_added (width - vals_added)
    else exploded_str in
  Ret (drop_last exploded_str).

(** One turn of the [while True] loop: [None] when the loop breaks, the new
    value of [string] otherwise. *)
Definition explode_step (string : str) (array_lengths : mapping) : res (option str) :=
  match Re.search pat_explode string with
  | None => Ret None
  | Some m =>
      exploded_str ← exploded_of (Re.group0 m) array_lengths;
      Ret (Some (Re.before m ++ exploded_str ++ Re.after m))
  end.

(** The loop, run for at most [fuel] turns; [None] when the turns are used
    up before the loop has ended. *)
Fixpoint trace_parser_explode_array (fuel : nat) (string : str) (array_lengths : mapping)
  : option (res str) :=
  match fuel with
  | 0 => None
  | S fuel' =>
      match explode_step string array_lengths with
      | Raise e => Some (Raise e)
      | Ret None => Some (Ret string)
      | Ret (Some string') => trace_parser_explode_array fuel' string' array_lengths
      end
  end.

(* ------------------------------------------------------------------------- *)
(** ** [BaseThermal]: the line filter and [get_trace_array_lengths] *)

(** A text file as the lines that [for line in fin] yields, each with its
    line terminator. *)
Abbreviation file := (list str).

(** [re.search(self.unique_word, line)] as a truth value; [None] when the
    pattern [unique_word] is outside the fragment of [Re.compile]. *)
Definition line_selected (unique_word line : str) : option bool :=
  r ← Re.compile unique_word;
  Some (bool_decide (is_Some (Re.search r line))).

(** [r"([A-Za-z0-9_]+)={([^}]+)}"] *)
Definition pat_array : Re.regex :=
  [Re.Open; Re.Plus Re.word; Re.Close; Re.Lit "="; Re.Lit "{";
   Re.Open; Re.Plus Re.not_rbrace; Re.Close; Re.Lit "}"].

(** [if array_len > ret[array_name]: ret[array_name] = array_len] *)
Definition record_length (ret : gmap str nat) (array_name : str) (array_len : nat)
  : gmap str nat :=
  let '(cur, ret) := defaultdict_get ret array_name in
  if cur <? array_len then <[array_name := array_len]> ret else ret.

(** The inner [while True] loop over one line; every turn cuts the line
    after a match, so [length line] turns are enough. *)
Fixpoint scan_line (fuel : nat) (line : str) (ret : gmap str nat) : gmap str nat :=
  match fuel with
  | 0 => ret
  | S fuel' =>
      match Re.search pat_array line with
      | None => ret
      | Some m =>
          let array_name := nth 0 (Re.groups m) [] in
          let array_elements := nth 1 (Re.groups m) [] in
          let array_len := length (split " " array_elements) in
          scan_line fuel' (Re.after m) (record_length ret array_name array_len)
      end
  end.

(** The [for line in fin] loop of [get_trace_array_lengths]. *)
Fixpoint scan_lines (unique_word : str) (fin : file) (ret : gmap str nat)
  : option (gmap str nat) :=
  match fin with
  | [] => Some ret
  | line :: fin' =>
      match line_selected unique_word line with
      | None => None
      | Some false => scan_lines unique_word fin' ret
      | Some true => scan_lines unique_word fin' (scan_line (length line) line ret)
      end
  end.

(** [self.get_trace_array_lengths(fname)], on the lines of the file; the
    result is the [defaultdict] with these entries. *)
Definition get_trace_array_lengths (unique_word : str) (fin : file)
  : option (gmap str nat) :=
  scan_lines unique_word fin ∅.

(* ------------------------------------------------------------------------- *)
(** ** [BaseThermal.__parse_into_csv] *)

(** [r"([0-9]+\.[0-9]+):"] *)
Definition pat_timestamp : Re.regex :=
  [Re.Open; Re.Plus Re.digit; Re.Lit "."; Re.Plus Re.digit; Re.Close; Re.Lit ":"].
(** [r"[A-Za-z0-9_]+=([^ {]+)"] *)
Definition pat_data : Re.regex :=
  [Re.Plus Re.word; Re.Lit "="; Re.Open; Re.Plus Re.not_space_lbrace; Re.Close].
(** [r"([A-Za-z0-9_]+)=[^ ]+"] *)
Definition pat_header : Re.regex :=
  [Re.Open; Re.Plus Re.word; Re.Close; Re.Lit "="; Re.Plus Re.not_space].
(** [r"[A-Za-z0-9_]+=\{\} "] *)
Definition pat_empty_array : Re.regex :=
  [Re.Plus Re.word; Re.Lit "="; Re.Lit "{"; Re.Lit "}"; Re.Lit " "].
(** [r"[A-Za-z0-9_]+="], the start of the data *)
Definition pat_data_start : Re.regex := [Re.Plus Re.word; Re.Lit "="].

(** [line[data_start_idx:]] where [data_start_idx] is the start of the
    match. *)
Definition from_start_of (m : option Re.Match) : res str :=
  match m with
  | Some m => Ret (Re.group0 m ++ Re.after m)
  | None => Raise AttributeError
  end.

(** The payload of a selected line after the empty arrays are removed, as
    it is handed to [trace_parser_explode_array]. *)
Definition payload (line : str) : res str :=
  data_str ← from_start_of (Re.search pat_data_start line);
  Ret (Re.sub pat_empty_array (fun _ => []) data_str).

(** [header] as computed from the exploded data of the first selected line. *)
Definition header_of (data_str : str) : str :=
  let header := Re.sub pat_header Re.g1 data_str in
  let header := Re.sub [Re.Lit " "] (fun _ => py ",") header in
  py "Time," ++ header ++ py "
".

(** [parsed_data], the row of a line, from its timestamp and exploded data. *)
Definition row_of (timestamp data_str : str) : str :=
  let parsed_data := Re.sub pat_data Re.g1 data_str in
  let parsed_data := Re.sub [Re.Lit ","] (fun _ => []) parsed_data in
  let parsed_data := Re.sub [Re.Lit " "] (fun _ => py ",") parsed_data in
  timestamp ++ py "," ++ parsed_data ++ py "
".

(** The state of the loop of [__parse_into_csv]: the local [header] and
    [self.data_csv]. *)
Record csv_state : Type := mkCsv { header : str; data_csv : str }.

(** The body of the loop for one selected line.  [fuel] bounds the turns of
    the loop of [trace_parser_explode_array]. *)
Definition parse_line (fuel : nat) (array_lengths : mapping) (line : str) (st : csv_state)
  : option (res csv_state) :=
  let line := drop_last line in
  match group1_of (Re.search pat_timestamp line) with
  | Raise e => Some (Raise e)
  | Ret timestamp =>
      match payload line with
      | Raise e => Some (Raise e)
      | Ret data_str =>
          match trace_parser_explode_array fuel data_str array_lengths with
          | None => None
          | Some (Raise e) => Some (Raise e)
          | Some (Ret data_str) =>
              let st :=
                match header st with
                | [] => let h := header_of data_str in mkCsv h h
                | _ :: _ => st
                end in
              Some (Ret (mkCsv (header st) (data_csv st ++ row_of timestamp data_str)))
          end
      end
  end.

(** The [for line in fin] loop of [__parse_into_csv]. *)
Fixpoint parse_lines (fuel : nat) (unique_word : str) (array_lengths : mapping)
  (fin : file) (st : csv_state) : option (res csv_state) :=
  match fin with
  | [] => Some (Ret st)
  | line :: fin' =>
      match line_selected unique_word line with
      | None => None
      | Some false => parse_lines fuel unique_word array_lengths fin' st
      | Some true =>
          match parse_line fuel array_lengths line st with
          | Some (Ret st') => parse_lines fuel unique_word array_lengths fin' st'
          | r => r
          end
      end
  end.

(** [self.__parse_into_csv()] on the lines of [trace.txt], starting from
    [self.data_csv = data_csv0]: the new value of [self.data_csv]. *)
Definition parse_into_csv (fuel : nat) (unique_word : str) (fin : file) (data_csv0 : str)
  : option (res str) :=
  match get_trace_array_lengths unique_word fin with
  | None => None
  | Some array_lengths =>
      match parse_lines fuel unique_word (DefaultDict array_lengths) fin (mkCsv [] data_csv0) with
      | None => None
      | Some (Raise e) => Some (Raise e)
      | Some (Ret st) => Some (Ret (data_csv st))
      end
  end.

(* ------------------------------------------------------------------------- *)
(** ** The pandas data frame *)

Module Pandas.

(** A column of values of one dtype: [float64], [int64] or [object]
    (text). *)
Inductive column : Type :=
  | FloatCol (l : list float)
  | IntCol (l : list Z)
  | ObjCol (l : list str).

Definition col_length (c : column) : nat :=
  match c with
  | FloatCol l => length l
  | IntCol l => length l
  | ObjCol l => length l
  end.

(** A data frame: the index with its name, and the columns in order. *)
Record DataFrame : Type := mkDF {
  index_name : option str;
  index : column;
  columns : list (str * column)
}.

(** [pd.DataFrame()] *)
Definition empty : DataFrame := mkDF None (ObjCol []) [].

(** The index that [reset_index] leaves behind: [0 .. n-1]. *)
Definition range_index (n : nat) : column := IntCol (map Z.of_nat (seq 0 n)).

Definition has_column (df : DataFrame) (key : str) : bool :=
  bool_decide (key ∈ map fst (columns df)).

(** [df.reset_index(inplace=True)]: the index becomes the first column,
    under its name (["index"] or ["level_0"] for an index without a name). *)
Definition reset_index (df : DataFrame) : res DataFrame :=
  let name :=
    match index_name df with
    | Some n => n
    | None => if has_column df (py "index") then py "level_0" else py "index"
    end in
  if has_column df name then Raise ValueError
  else Ret (mkDF None (range_index (col_length (index df)))
                 ((name, index df) :: columns df)).

Fixpoint lookup_col (key : str) (cols : list (str * column)) : option column :=
  match cols with
  | [] => None
  | (k, c) :: cols' => if decide (k = key) then Some c else lookup_col key cols'
  end.

(** [df[key]] *)
Definition getitem (df : DataFrame) (key : str) : res column :=
  match lookup_col key (columns df) with
  | Some c => Ret c
  | None => Raise KeyError
  end.

Fixpoint store_col (key : str) (c : column) (cols : list (str * column))
  : list (str * column) :=
  match cols with
  | [] => [(key, c)]
  | (k, c') :: cols' =>
      if decide (k = key) then (k, c) :: cols' else (k, c') :: store_col key c cols'
  end.

(** [df[key] = c] *)
Definition setitem (df : DataFrame) (key : str) (c : column) : DataFrame :=
  mkDF (index_name df) (index df) (store_col key c (columns df)).

Fixpoint remove_col (key : str) (cols : list (str * column)) : list (str * column) :=
  match cols with
  | [] => []
  | (k, c) :: cols' =>
      if decide (k = key) then cols' else (k, c) :: remove_col key cols'
  end.

(** [df.set_index(key, inplace=True)] *)
Definition set_index (df : DataFrame) (key : str) : res DataFrame :=
  match lookup_col key (columns df) with
  | Some c => Ret (mkDF (Some key) c (remove_col key (columns df)))
  | None => Raise KeyError
  end.

(** An [int64] value as a [float64].  The magnitude of the least [int64],
    [2^63], is no 63-bit integer and is converted on its own. *)
Definition float_of_Z (z : Z) : float :=
  if (z <? 0)%Z then
    if (z =? - 2 ^ 63)%Z then PrimFloat.opp 9223372036854775808%float
    else PrimFloat.opp (PrimFloat.of_uint63 (Uint63.of_Z (- z)))
  else PrimFloat.of_uint63 (Uint63.of_Z z).

(** [series - x] for a number [x] *)
Definition series_sub (c : column) (x : float) : res column :=
  match c with
  | FloatCol l => Ret (FloatCol (map (fun t => PrimFloat.sub t x) l))
  | IntCol l => Ret (FloatCol (map (fun t => PrimFloat.sub (float_of_Z t) x) l))
  | ObjCol _ => Raise TypeError
  end.

End Pandas.

(* ------------------------------------------------------------------------- *)
(** ** [BaseThermal]: construction, the data frame and [normalize_time] *)

(** The lines of a text, as [for line in fin] yields them. *)
Fixpoint readlines (s : str) : file :=
  match s with
  | [] => []
  | c :: s' =>
      if Ascii.eqb c "010" then [c] :: readlines s'
      else match readlines s' with
           | [] => [[c]]
           | l :: ls => (c :: l) :: ls
           end
  end.

(** The files under [basepath] that the class looks at, and the number of
    times [trace-cmd report] has been run. *)
Record world : Type := mkWorld {
  trace_txt : option str;
  trace_dat : option str;
  trace_cmd_runs : nat
}.

(** The attributes of a [BaseThermal] object that the parser sets. *)
Record BaseThermal : Type := mkThermal {
  unique_word : str;
  self_data_csv : str;
  data_frame : Pandas.DataFrame
}.

Section BaseThermal.

(** [pd.read_csv(StringIO(text))], the table read from a text. *)
Variable read_csv : str -> res Pandas.DataFrame.

(** The output of [trace-cmd report] on a [trace.dat]. *)
Variable trace_cmd_report : str -> res str.

(** [self.__run_trace_cmd_report()] *)
Definition run_trace_cmd_report (w : world) : world * res unit :=
  match trace_dat w with
  | None => (w, Raise IOError)
  | Some dat =>
      let w := mkWorld (trace_txt w) (trace_dat w) (S (trace_cmd_runs w)) in
      match trace_cmd_report dat with
      | Raise e => (w, Raise e)
      | Ret out => (mkWorld (Some out) (trace_dat w) (trace_cmd_runs w), Ret tt)
      end
  end.

(** [self.__create_data_frame()]: the new [self.data_frame]. *)
Definition create_data_frame (data_csv : str) : res Pandas.DataFrame :=
  match data_csv with
  | [] => Ret Pandas.empty
  | _ :: _ =>
      df ← read_csv data_csv;
      Pandas.set_index df (py "Time")
  end.

(** [BaseThermal.__init__(self, basepath, unique_word)] in the world [w]:
    the world afterwards and the object, or the exception raised; no outcome
    ([None]) when the model of the parse gives none. *)
Definition init (fuel : nat) (unique_word : str) (w : world)
  : world * option (res BaseThermal) :=
  let '(w, r) :=
    match trace_txt w with
    | None => run_trace_cmd_report w
    | Some _ => (w, Ret tt)
    end in
  match r with
  | Raise e => (w, Some (Raise e))
  | Ret _ =>
      match trace_txt w with
      | None => (w, Some (Raise IOError))
      | Some text =>
          match parse_into_csv fuel unique_word (readlines text) [] with
          | None => (w, None)
          | Some (Raise e) => (w, Some (Raise e))
          | Some (Ret data_csv) =>
              (w, Some (df ← create_data_frame data_csv;
                        Ret (mkThermal unique_word data_csv df)))
          end
      end
  end.

(** [self.normalize_time(basetime)]: the new [self.data_frame]. *)
Definition normalize_time (df : Pandas.DataFrame) (basetime : float)
  : res Pandas.DataFrame :=
  df ← Pandas.reset_index df;
  time ← Pandas.getitem df (py "Time");
  time ← Pandas.series_sub time basetime;
  Pandas.set_index (Pandas.setitem df (py "Time") time) (py "Time").

End BaseThermal.


(* ------------------------------------------------------------------------- *)
(** ** [Thermal], [ThermalGovernor] and the columns of their plots *)

Section Subclasses.

Variable read_csv : str -> res Pandas.DataFrame.
Variable trace_cmd_report : str -> res str.

(** [Thermal.__init__(self, path)] *)
Definition Thermal_init (fuel : nat) (w : world) : world * option (res BaseThermal) :=
  init read_csv trace_cmd_report fuel (py "thermal_temperature:") w.

(** [ThermalGovernor.__init__(self, path)] *)
Definition ThermalGovernor_init (fuel : nat) (w : world)
  : world * option (res BaseThermal) :=
  init read_csv trace_cmd_report fuel (py "thermal_power_allocator:") w.

End Subclasses.

(** [ThermalGovernor.write_thermal_csv(self)]: the name of the file that is
    written, in the current directory, and what is written to it. *)
Definition write_thermal_csv (self : BaseThermal) : str * str :=
  (py "thermal.csv", self_data_csv self).

(** ["req_power[0-9]+"] *)
Definition pat_req_power : Re.regex :=
  map Re.Lit (py "req_power") ++ [Re.Plus Re.digit].
(** ["granted_power[0-9]+"] *)
Definition pat_granted_power : Re.regex :=
  map Re.Lit (py "granted_power") ++ [Re.Plus Re.digit].

(** [[s for s in columns if re.match(pat, s)]] *)
Definition columns_matching (pat : Re.regex) (columns : list str) : list str :=
  List.filter (fun s => bool_decide (is_Some (Re.match_ pat s))) columns.

(** [in_cols] of [ThermalGovernor.plot_input_power] *)
Definition in_cols (columns : list str) : list str :=
  columns_matching pat_req_power columns.

(** [out_cols] of [ThermalGovernor.plot_output_power] *)
Definition out_cols (columns : list str) : list str :=
  columns_matching pat_granted_power columns.

(** The pattern of [ThermalGovernor.plot_inout_power]: [P], a group of
    [.*], and [_in].  The greedy [.*] stands behind a part of the pattern
    that has one way to match only, so the matcher of Python tries the
    repetitions of [.] from the longest down to one character, which is the
    pattern with [.+] in the group, and then none, which is the pattern with
    an empty group. *)
Definition pat_actor_some : Re.regex :=
  [Re.Lit "P"; Re.Open; Re.Plus Re.dot; Re.Close; Re.Lit "_"; Re.Lit "i"; Re.Lit "n"].
Definition pat_actor_none : Re.regex :=
  [Re.Lit "P"; Re.Open; Re.Close; Re.Lit "_"; Re.Lit "i"; Re.Lit "n"].

(** [re.match] of this pattern on [col] *)
Definition match_actor (col : str) : option Re.Match :=
  match Re.match_ pat_actor_some col with
  | Some m => Some m
  | None => Re.match_ pat_actor_none col
  end.

(** [actors] of [plot_inout_power]: for each column that matches and is not
    ["Ptot_in"], the group of the match. *)
Definition actors (columns : list str) : list str :=
  flat_map (fun col =>
              match match_actor col with
              | Some m => if bool_decide (col <> py "Ptot_in") then [Re.g1 m] else []
              | None => []
              end) columns.

(** [cols] of [plot_inout_power] for an actor. *)
Definition inout_cols (actor : str) : list str :=
  [py "P" ++ actor ++ py "_in"; py "P" ++ actor ++ py "_out"].

(** The lists [cols] that [plot_inout_power] takes from the table, one for
    each actor. *)
Definition plot_inout_power_cols (columns : list str) : list (list str) :=
  map inout_cols (actors columns).

(* ------------------------------------------------------------------------- *)
(** * Notions used to state the properties *)

(** What it means for a pattern to match at the start of a subject, without
    the search order: every [p+] takes some non-empty run of characters of
    [p].  The matcher succeeds exactly when this relation is inhabited. *)
Inductive matches : Re.regex -> list str -> list str -> str -> list str * str -> Prop :=
  | matches_nil opens groups s :
      matches [] opens groups s (rev groups, s)
  | matches_lit c p opens groups s r :
      matches p opens groups s r ->
      matches (Re.Lit c :: p) opens groups (c :: s) r
  | matches_cls q p opens groups c s r :
      q c = true ->
      matches p opens groups s r ->
      matches (Re.Cls q :: p) opens groups (c :: s) r
  | matches_plus q p opens groups a s r :
      a <> [] ->
      Forall (fun c => q c = true) a ->
      matches p opens groups s r ->
      matches (Re.Plus q :: p) opens groups (a ++ s) r
  | matches_open p opens groups s r :
      matches p (s :: opens) groups s r ->
      matches (Re.Open :: p) opens groups s r
  | matches_close p o opens groups s r :
      matches p opens (take (length o - length s) o :: groups) s r ->
      matches (Re.Close :: p) (o :: opens) groups s r.

(** [m] occurs in [line] as a literal substring. *)
Definition substring (m line : str) : Prop :=
  exists pre post, line = pre ++ m ++ post.

(** Number of occurrences of the character [c] in [s]. *)
Definition count (c : ascii) (s : str) : nat :=
  length (filter (fun x => x = c) s).

(** The text of a string before its first ["="]: what [([^=]+)=] takes as
    the name of the array at the start of the string. *)
Definition basename_of (z : str) : str := take (Re.span Re.not_eq z) z.

Definition has_brace (s : str) : bool := existsb (Ascii.eqb "{") s.

(** If the pattern of the loop matches at the start of [z], the name of the
    array there has no ["{"]. *)
Definition plain_name_at (z : str) : bool :=
  match Re.match_here pat_explode [] [] z with
  | Some _ => negb (has_brace (basename_of z))
  | None => true
  end.

(** The same at every start of a word of the string, the places where
    [re.search] can find the pattern; [at_start] tells whether the string
    starts a word. *)
Fixpoint names_plain_from (at_start : bool) (s : str) : bool :=
  match s with
  | [] => true
  | c :: s' =>
      (if at_start then plain_name_at (c :: s') else true)
      && names_plain_from (Ascii.eqb c " ") s'
  end.

(** The arrays of the string have names without ["{"]. *)
Definition array_names_plain (s : str) : bool := names_plain_from true s.

(** The same as a property of the places of the string. *)
Definition names_plain (s : str) : Prop :=
  forall x z, s = x ++ z -> List.last x " "%char = " "%char ->
    is_Some (Re.match_here pat_explode [] [] z) ->
    ~ In "{"%char (basename_of z).

(** Every text [A={B}] of the string that the pattern of the loop can match
    has a name [A] made of letters, digits and ["_"]. *)
Definition names_alphanumeric (s : str) : Prop :=
  forall x A B y,
    s = x ++ A ++ py "={" ++ B ++ py "}" ++ y ->
    A <> [] -> Forall (fun c => Re.not_space c = true) A ->
    B <> [] -> Forall (fun c => Re.not_rbrace c = true) B ->
    Forall (fun c => Re.word c = true) A.

(** The string after [n] turns of the loop of [trace_parser_explode_array],
    as long as the loop goes on. *)
Fixpoint after_turns (n : nat) (string : str) (widths : mapping) : option str :=
  match n with
  | 0 => Some string
  | S n' =>
      match explode_step string widths with
      | Ret (Some string') => after_turns n' string' widths
      | _ => None
      end
  end.

(** The text of the columns [name0=v0 name1=v1 ...] for the values [vals],
    numbered from [idx], separated by single spaces. *)
Fixpoint columns_text (name : str) (idx : nat) (vals : list str) : str :=
  match vals with
  | [] => []
  | [v] => name ++ str_of_nat idx ++ py "=" ++ v
  | v :: vals' =>
      name ++ str_of_nat idx ++ py "=" ++ v ++ py " " ++ columns_text name (S idx) vals'
  end.

(** The values of the columns of an array of [vals] under the width
    [width]: the values, then zeros up to the width. *)
Definition padded (vals : list str) (width : nat) : list str :=
  vals ++ replicate (width - length vals) (py "0").

(** The characters of the name of an array token that the exploder takes as
    such: no space, no ["="], no ["{"]. *)
Definition basename_char (c : ascii) : bool :=
  Re.not_space c && Re.not_eq c && Re.except "{" c.

(** The characters of the elements of an array token: no brace, no line
    break. *)
Definition element_char (c : ascii) : bool :=
  Re.except "{" c && Re.not_rbrace c && Re.dot c.

(** White space, as [str.split()] without argument understands it. *)
Definition whitespace (c : ascii) : bool :=
  existsb (Ascii.eqb c) [" "; "009"; "010"; "011"; "012"; "013"]%char.

(** Number of whitespace-separated tokens of a string: the maximal runs of
    characters that are not white space. *)
Fixpoint whitespace_tokens (in_token : bool) (s : str) : nat :=
  match s with
  | [] => 0
  | c :: s' =>
      if whitespace c then whitespace_tokens false s'
      else (if in_token then 0 else 1) + whitespace_tokens true s'
  end.

(** The array token [name={elements}] occurs in [line] after [pre]: the name
    is a whole run of name characters, the elements are what stands between
    the braces. *)
Definition occurs_at (pre name elements post line : str) : Prop :=
  line = pre ++ name ++ py "={" ++ elements ++ py "}" ++ post
  /\ name <> [] /\ Forall (fun c => Re.word c = true) name
  /\ (pre = [] \/ exists pre' c, pre = pre' ++ [c] /\ Re.word c = false)
  /\ elements <> [] /\ Forall (fun c => Re.not_rbrace c = true) elements.

(** No array is left open in [pre]: after every ["{"] of it comes a ["}"]. *)
Definition braces_closed (pre : str) : Prop :=
  forall a b, pre = a ++ py "{" ++ b -> In "}"%char b.

(** The lines of a file that the marker selects. *)
Definition selected_line (marker : str) (fin : file) (line : str) : Prop :=
  In line fin /\ line_selected marker line = Some true.

(** A match with all of [pre] in front of it. *)
Definition shift_all (pre : str) (m : Re.Match) : Re.Match :=
  Re.mkMatch (pre ++ Re.before m) (Re.group0 m) (Re.after m) (Re.groups m).

(** The text built by the two [for] loops, before its last character is
    cut. *)
Definition exploded_body (col : str) (vals : list str) (width : nat) : str :=
  if length vals <? width
  then explode_vals col 0 vals ++ explode_pad col (length vals) (width - length vals)
  else explode_vals col 0 vals.

(** The length [n] is the number of pieces that single spaces cut the
    elements of some array token [name={elements}] of a selected line into. *)
Definition length_witnessed (marker : str) (fin : file) (name : str) (n : nat) : Prop :=
  exists line pre elements post,
    selected_line marker fin line
    /\ occurs_at pre name elements post line
    /\ n = length (split " " elements).

(** The characters of a string up to its first space. *)
Definition first_word (s : str) : str := take (Re.span Re.not_space s) s.

(** The outcome of a run of [trace_parser_explode_array] with [a] put in
    front of the string it returns. *)
Definition prepend (a : str) (r : option (res str)) : option (res str) :=
  match r with
  | Some (Ret s) => Some (Ret (a ++ s))
  | Some (Raise e) => Some (Raise e)
  | None => None
  end.

(** The strings of [l] with [sep] between them: [sep.join(l)]. *)
Fixpoint join (sep : str) (l : list str) : str :=
  match l with
  | [] => []
  | [x] => x
  | x :: l' => x ++ sep ++ join sep l'
  end.

(** The pointwise maximum of two mappings of lengths. *)
Definition merge_widths (a b : gmap str nat) : gmap str nat :=
  union_with (fun x y => Some (Nat.max x y)) a b.

(** The arrays of a line in the order in which the loop of
    [get_trace_array_lengths] meets them, each with its name and its
    length. *)
Fixpoint line_arrays (fuel : nat) (line : str) : list (str * nat) :=
  match fuel with
  | 0 => []
  | S fuel' =>
      match Re.search pat_array line with
      | None => []
      | Some m =>
          (nth 0 (Re.groups m) [], length (split " " (nth 1 (Re.groups m) [])))
          :: line_arrays fuel' (Re.after m)
      end
  end.

(** The pattern takes at least one character: it starts, groups apart, with
    a character, a class or a repetition [p+]. *)
Fixpoint consumes (p : Re.regex) : bool :=
  match p with
  | [] => false
  | Re.Open :: p' | Re.Close :: p' => consumes p'
  | _ :: _ => true
  end.

(** A scalar field [key=value] of a line. *)
Definition field_text (f : str * str) : str := fst f ++ py "=" ++ snd f.

(** The key is a non-empty run of letters, digits and ["_"], the value is
    not empty and has neither a space nor a ["{"]. *)
Definition well_formed_field (f : str * str) : Prop :=
  fst f <> [] /\ Forall (fun c => Re.word c = true) (fst f)
  /\ snd f <> [] /\ Forall (fun c => Re.not_space_lbrace c = true) (snd f).

(** A value without its commas. *)
Definition strip_commas (v : str) : str :=
  List.filter (fun c => negb (Ascii.eqb c ",")) v.

(** What can follow a field: nothing, or a space. *)
Definition field_end (tail : str) : Prop := tail = [] \/ exists t, tail = " "%char :: t.

(** The fields of the data of a line: a scalar [key=value], an array
    [name={elements}] or an empty array [name={}]. *)
Inductive token : Type :=
  | Scalar (f : str * str)
  | Array (name elements : str)
  | EmptyArray (name : str).

Definition token_text (t : token) : str :=
  match t with
  | Scalar f => field_text f
  | Array name elements => name ++ py "={" ++ elements ++ py "}"
  | EmptyArray name => name ++ py "={}"
  end.

(** Names are non-empty runs of letters, digits and ["_"]; the elements of
    an array are not empty and have neither a brace nor a line break. *)
Definition well_formed_token (t : token) : Prop :=
  match t with
  | Scalar f => well_formed_field f
  | Array name elements =>
      name <> [] /\ Forall (fun c => Re.word c = true) name
      /\ elements <> [] /\ Forall (fun c => element_char c = true) elements
  | EmptyArray name => name <> [] /\ Forall (fun c => Re.word c = true) name
  end.

(** The fields that the removal of the empty arrays keeps: all but the
    empty arrays that another field follows. *)
Fixpoint kept (ts : list token) : list token :=
  match ts with
  | [] => []
  | [t] => [t]
  | EmptyArray _ :: ts' => kept ts'
  | t :: ts' => t :: kept ts'
  end.

(** The columns [(name0, v0), (name1, v1), ...] of the values [vals] of an
    array, numbered from [idx]. *)
Fixpoint columns_of (name : str) (idx : nat) (vals : list str) : list (str * str) :=
  match vals with
  | [] => []
  | v :: vals' => (name ++ str_of_nat idx, v) :: columns_of name (S idx) vals'
  end.

(** The columns of a field under the lengths [width_of]: a scalar is its
    own column, an array has a column for each of its elements and for each
    missing one up to its length, an empty array has none. *)
Definition token_columns (width_of : str -> nat) (t : token) : list (str * str) :=
  match t with
  | Scalar f => [f]
  | Array name elements => columns_of name 0 (padded (split " " elements) (width_of name))
  | EmptyArray _ => []
  end.

Definition is_array (t : token) : bool :=
  match t with Array _ _ => true | _ => false end.

Definition is_empty_array (t : token) : bool :=
  match t with EmptyArray _ => true | _ => false end.

(** A field that is not an empty array. *)
Definition filled (t : token) : bool := negb (is_empty_array t).

(** The elements of an array are separated by single spaces: no piece
    between two spaces is empty. *)
Definition single_spaced (t : token) : Prop :=
  match t with
  | Array _ elements => Forall (fun v => v <> []) (split " " elements)
  | _ => True
  end.

(** The length that a [defaultdict] with the entries [m] has for a name. *)
Definition width_in (m : gmap str nat) (name : str) : nat := default 0 (m !! name).

(** A record of the trace: the text before the timestamp, the timestamp
    [seconds.fraction], the text between the timestamp and the data, and
    the fields of the data. *)
Record trace_record : Type := mkRecord {
  rec_prefix : str;
  rec_seconds : str;
  rec_fraction : str;
  rec_middle : str;
  rec_tokens : list token
}.

Definition record_timestamp (r : trace_record) : str :=
  rec_seconds r ++ py "." ++ rec_fraction r.

Definition record_data (r : trace_record) : str :=
  join (py " ") (map token_text (rec_tokens r)).

(** The text of a record: its line without the line break. *)
Definition record_text (r : trace_record) : str :=
  rec_prefix r ++ record_timestamp r ++ py ":" ++ rec_middle r ++ py " "
  ++ record_data r.

(** The timestamp is the first number with a fraction of the line, and the
    first field of the data is the first [key=] of the line; the fields are
    well formed, their arrays have single spaces, and the last field is not
    an empty array. *)
Definition well_formed_record (r : trace_record) : Prop :=
  ~ In "."%char (rec_prefix r)
  /\ Re.digit (List.last (rec_prefix r) " "%char) = false
  /\ rec_seconds r <> [] /\ Forall (fun c => Re.digit c = true) (rec_seconds r)
  /\ rec_fraction r <> [] /\ Forall (fun c => Re.digit c = true) (rec_fraction r)
  /\ ~ In "="%char (rec_prefix r) /\ ~ In "="%char (rec_middle r)
  /\ rec_tokens r <> []
  /\ Forall well_formed_token (rec_tokens r)
  /\ Forall single_spaced (rec_tokens r)
  /\ is_empty_array (List.last (rec_tokens r) (EmptyArray [])) = false.

(** The columns of a record under the lengths [width_of]. *)
Definition record_columns (width_of : str -> nat) (r : trace_record) : list (str * str) :=
  flat_map (token_columns width_of) (rec_tokens r).

(** The header that a record gives. *)
Definition record_header (width_of : str -> nat) (r : trace_record) : str :=
  py "Time," ++ join (py ",") (map fst (record_columns width_of r)) ++ py "
".

(** The row of a record. *)
Definition record_row (width_of : str -> nat) (r : trace_record) : str :=
  record_timestamp r ++ py ","
  ++ join (py ",") (map strip_commas (map snd (record_columns width_of r))) ++ py "
".

(** The text of the table of the records: the header of the first record,
    then the rows of all of them. *)
Definition csv_of (width_of : str -> nat) (rs : list trace_record) : str :=
  match rs with
  | [] => []
  | r :: _ => record_header width_of r ++ flat_map (record_row width_of) rs
  end.

(** The lines of a file and the records among them: a line is either not
    selected by the marker, or selected and the text of a well-formed record
    followed by one more character [c]: the line break, or whatever ends a
    last line without a line break. *)
Inductive trace_of (marker : str) : file -> list trace_record -> Prop :=
  | trace_of_nil : trace_of marker [] []
  | trace_of_skip line fin rs :
      line_selected marker line = Some false ->
      trace_of marker fin rs ->
      trace_of marker (line :: fin) rs
  | trace_of_record r c fin rs :
      line_selected marker (record_text r ++ [c]) = Some true ->
      well_formed_record r ->
      trace_of marker fin rs ->
      trace_of marker ((record_text r ++ [c]) :: fin) (r :: rs).

(** The arrays of fields, in order, each with its name and the number of
    pieces that single spaces cut its elements into. *)
Definition token_arrays (ts : list token) : list (str * nat) :=
  flat_map (fun t => match t with
                     | Array name elements => [(name, length (split " " elements))]
                     | _ => []
                     end) ts.

(** The largest length of each name among [arrays]. *)
Definition widths_of (arrays : list (str * nat)) : gmap str nat :=
  foldr (fun p acc => merge_widths {[ fst p := snd p ]} acc) ∅ arrays.

(** The arrays of the records of a trace, and the largest length of each
    name among them. *)
Definition trace_arrays (rs : list trace_record) : list (str * nat) :=
  flat_map (fun r => token_arrays (rec_tokens r)) rs.

Definition trace_widths (rs : list trace_record) : gmap str nat :=
  widths_of (trace_arrays rs).

(** The largest of the lengths that [arrays] has for [name], [0] without
    any. *)
Definition largest (name : str) (arrays : list (str * nat)) : nat :=
  foldr Nat.max 0 (map snd (List.filter (fun p => bool_decide (fst p = name)) arrays)).

(** What follows a field in a line: the last character [c] of the line, or
    a space, the next fields and [c]. *)
Definition after_field (c : ascii) (ts : list token) : str :=
  match ts with
  | [] => [c]
  | _ :: _ => " "%char :: join (py " ") (map token_text ts) ++ [c]
  end.

(** The table of the records of a trace. *)
Definition table_of (rs : list trace_record) : str :=
  csv_of (width_in (trace_widths rs)) rs.

(** The columns of a table of the power allocator: the input power
    [P<actor>_in] of an actor, or another column. *)
Inductive power_column : Type :=
  | InputPower (actor : str)
  | OtherColumn (col : str).

Definition power_column_name (c : power_column) : str :=
  match c with
  | InputPower actor => py "P" ++ actor ++ py "_in"
  | OtherColumn col => col
  end.

(** The name of an actor has no line break; the name of another column has
    no ["_in"] in it. *)
Definition well_formed_column (c : power_column) : Prop :=
  match c with
  | InputPower actor => Forall (fun x => Re.dot x = true) actor
  | OtherColumn col => ~ substring (py "_in") col
  end.

(** The actors that are plotted: the ones of the input power columns,
    [tot] apart. *)
Definition plotted_actors (cs : list power_column) : list str :=
  flat_map (fun c => match c with
                     | InputPower actor =>
                         if bool_decide (actor <> py "tot") then [actor] else []
                     | OtherColumn _ => []
                     end) cs.

(* ------------------------------------------------------------------------- *)
(** * The matcher *)

Module ReFacts.
Import Re.

Lemma span_le p s : span p s <= length s.
Proof. induction s as [|c s IH]; simpl; [lia|]. destruct (p c); simpl; lia. Qed.

Lemma span_take p s j : j <= span p s -> Forall (fun c => p c = true) (take j s).
Proof.
  revert j. induction s as [|c s IH]; intros j Hj; simpl in *.
  - rewrite take_nil. constructor.
  - destruct j as [|j]; [constructor|]. destruct (p c) eqn:Hc; [|lia].
    simpl. constructor; [exact Hc|]. apply IH. lia.
Qed.

Lemma span_app_ge p a s : Forall (fun c => p c = true) a -> length a <= span p (a ++ s).
Proof.
  induction 1 as [|c a Hc _ IH]; simpl; [lia|]. rewrite Hc. lia.
Qed.

(** The run stops where the class stops. *)
Lemma span_app_stop p a c s :
  Forall (fun c => p c = true) a -> p c = false -> span p (a ++ c :: s) = length a.
Proof.
  induction 1 as [|x a Hx _ IH]; simpl; intros Hc; [rewrite Hc; reflexivity|].
  rewrite Hx, IH; auto.
Qed.

Lemma span_app_end p a : Forall (fun c => p c = true) a -> span p a = length a.
Proof. induction 1 as [|x a Hx _ IH]; simpl; [reflexivity|]. rewrite Hx, IH; auto. Qed.

Lemma backtrack_inv {R} (k : str -> option R) s n r :
  backtrack k s n = Some r -> exists j, 1 <= j <= n /\ k (drop j s) = Some r.
Proof.
  induction n as [|n IH]; simpl; [discriminate|].
  destruct (k (drop (S n) s)) eqn:Hk.
  - intros [= <-]. exists (S n). split; [lia|exact Hk].
  - intros H. destruct (IH H) as (j & Hj & Hkj). exists j. split; [lia|exact Hkj].
Qed.

Lemma backtrack_is_Some {R} (k : str -> option R) s n j :
  1 <= j <= n -> is_Some (k (drop j s)) -> is_Some (backtrack k s n).
Proof.
  induction n as [|n IH]; intros Hj Hk; [lia|]. simpl.
  destruct (k (drop (S n) s)) eqn:Hn; [eauto|].
  apply IH; [|exact Hk].
  destruct (decide (j = S n)) as [->|]; [|lia].
  rewrite Hn in Hk. destruct Hk as [? [=]].
Qed.

(** The longest run that lets the rest of the pattern match is taken. *)
Lemma backtrack_first {R} (k : str -> option R) s n j r :
  1 <= j <= n ->
  k (drop j s) = Some r ->
  (forall i, j < i <= n -> k (drop i s) = None) ->
  backtrack k s n = Some r.
Proof.
  induction n as [|n IH]; intros Hj Hk Hnone; [lia|]. simpl.
  destruct (decide (j = S n)) as [->|Hne].
  - rewrite Hk. reflexivity.
  - rewrite (Hnone (S n)) by lia. apply IH; [lia|exact Hk|].
    intros i Hi. apply Hnone. lia.
Qed.

(** A match found by the matcher is a match. *)
Lemma match_here_sound p : forall opens groups s r,
  match_here p opens groups s = Some r -> matches p opens groups s r.
Proof.
  induction p as [|a p IH]; intros opens groups s r; simpl.
  - intros [= <-]. constructor.
  - destruct a as [c|q|q| |].
    + destruct s as [|x s]; [discriminate|].
      destruct (Ascii.eqb_spec x c) as [->|]; [|discriminate].
      intros H. constructor. auto.
    + destruct s as [|x s]; [discriminate|].
      destruct (q x) eqn:Hq; [|discriminate].
      intros H. constructor; auto.
    + intros H. apply backtrack_inv in H as (j & Hj & Hk).
      rewrite <- (take_drop j s). constructor.
      * intros Hnil. apply (f_equal length) in Hnil. simpl in Hnil.
        rewrite length_take in Hnil. pose proof (span_le q s). lia.
      * apply span_take. lia.
      * auto.
    + intros H. constructor. auto.
    + destruct opens as [|o opens]; [discriminate|].
      intros H. constructor. auto.
Qed.

(** Where there is a match, the matcher finds one. *)
Lemma match_here_complete p opens groups s r :
  matches p opens groups s r -> is_Some (match_here p opens groups s).
Proof.
  induction 1 as [| c p opens groups s r _ IH | q p opens groups c s r Hq _ IH
                  | q p opens groups a s r Ha Hall _ IH | |]; simpl; eauto.
  - rewrite Ascii.eqb_refl. exact IH.
  - rewrite Hq. exact IH.
  - apply (backtrack_is_Some _ _ _ (length a)).
    + split; [destruct a; [congruence|simpl; lia]|]. apply span_app_ge, Hall.
    + rewrite drop_app_length. exact IH.
Qed.

(** What is left after a match is a suffix of the subject. *)
Lemma matches_suffix p opens groups s r :
  matches p opens groups s r -> exists x, s = x ++ snd r.
Proof.
  induction 1 as [opens groups s| c p opens groups s r _ [x IH]
                  | q p opens groups c s r _ _ [x IH]
                  | q p opens groups a s r _ _ _ [x IH] | |]; simpl; auto.
  - exists []. reflexivity.
  - exists (c :: x). simpl. congruence.
  - exists (c :: x). simpl. congruence.
  - exists (a ++ x). rewrite <- app_assoc. congruence.
Qed.

Lemma match_here_suffix p opens groups s gs rest :
  match_here p opens groups s = Some (gs, rest) -> exists x, s = x ++ rest.
Proof. intros H. apply match_here_sound, matches_suffix in H. exact H. Qed.

(** [re.match] in terms of the matcher. *)
Lemma match_Some p x rest gs :
  match_here p [] [] (x ++ rest) = Some (gs, rest) ->
  match_ p (x ++ rest) = Some (mkMatch [] x rest gs).
Proof.
  intros H. unfold match_. rewrite H.
  rewrite length_app, Nat.add_sub, take_app_length. reflexivity.
Qed.

Lemma match_None p s : match_here p [] [] s = None -> match_ p s = None.
Proof. intros H. unfold match_. rewrite H. reflexivity. Qed.

Lemma match_inv p s m :
  match_ p s = Some m ->
  before m = [] /\ s = group0 m ++ after m
  /\ match_here p [] [] s = Some (groups m, after m).
Proof.
  unfold match_. destruct (match_here p [] [] s) as [[gs rest]|] eqn:H; [|discriminate].
  intros [= <-]. simpl. destruct (match_here_suffix _ _ _ _ _ _ H) as [x ->].
  rewrite length_app, Nat.add_sub, take_app_length. auto.
Qed.

(** [re.search] skips the positions where the pattern does not match. *)
Lemma search_skip p pre s :
  (forall x y, pre = x ++ y -> y <> [] -> match_here p [] [] (y ++ s) = None) ->
  search p (pre ++ s) = option_map (shift_all pre) (search p s).
Proof.
  induction pre as [|c pre IH]; intros Hnone.
  - simpl. destruct (search p s) as [[]|]; reflexivity.
  - change ((c :: pre) ++ s) with (c :: (pre ++ s)).
    cbn [search]. rewrite (match_None _ (c :: pre ++ s)).
    2:{ apply (Hnone [] (c :: pre)); [reflexivity|discriminate]. }
    rewrite IH.
    + destruct (search p s) as [[]|]; reflexivity.
    + intros x y -> Hy. apply (Hnone (c :: x) y); [reflexivity|exact Hy].
Qed.

Lemma search_here p s m : match_ p s = Some m -> search p s = Some m.
Proof. intros H. destruct s; cbn [search]; rewrite H; reflexivity. Qed.

Lemma match_leftmost p s m :
  match_ p s = Some m ->
  s = before m ++ group0 m ++ after m
  /\ match_here p [] [] (group0 m ++ after m) = Some (groups m, after m)
  /\ forall x y, before m = x ++ y -> y <> [] ->
       match_here p [] [] (y ++ group0 m ++ after m) = None.
Proof.
  intros Hm. apply match_inv in Hm as (Hb & Hs & Hm). rewrite Hb. simpl.
  split; [exact Hs|]. split; [rewrite <- Hs; exact Hm|].
  intros x y Hxy Hy. destruct x, y; simpl in Hxy; congruence.
Qed.

(** [re.search] returns the match at the first position that has one. *)
Lemma search_inv p s m :
  search p s = Some m ->
  s = before m ++ group0 m ++ after m
  /\ match_here p [] [] (group0 m ++ after m) = Some (groups m, after m)
  /\ forall x y, before m = x ++ y -> y <> [] ->
       match_here p [] [] (y ++ group0 m ++ after m) = None.
Proof.
  revert m. induction s as [|c s IH]; intros m; cbn [search].
  - destruct (match_ p []) as [m'|] eqn:Hm; [|discriminate].
    intros Heq. injection Heq as Heq. subst m'. apply match_leftmost, Hm.
  - destruct (match_ p (c :: s)) as [m'|] eqn:Hm.
    + intros Heq. injection Heq as Heq. subst m'. apply match_leftmost, Hm.
    + destruct (search p s) as [m'|] eqn:Hs; [|discriminate].
      intros Heq. injection Heq as Heq. subst m.
      destruct (IH m' eq_refl) as (Heq & Hm' & Hleft).
      destruct m' as [b g a gs]. cbn [shift before group0 after groups] in *.
      split; [simpl; congruence|]. split; [exact Hm'|].
      intros x y Hxy Hy. destruct x as [|c' x]; simpl in Hxy.
      * subst y. simpl. rewrite <- Heq.
        unfold match_ in Hm. destruct (match_here p [] [] (c :: s)) as [[]|]; congruence.
      * injection Hxy as -> ->. apply (Hleft x y); auto.
Qed.

End ReFacts.

(* ------------------------------------------------------------------------- *)
(** * The line filter *)

Section LineFilter.
Import Re ReFacts.

Lemma compile_literal marker :
  Forall (fun c => meta c = false) marker -> compile marker = Some (map Lit marker).
Proof.
  induction 1 as [|c marker Hc _ IH]; simpl; [reflexivity|].
  rewrite Hc, IH.
  destruct (Ascii.eqb_spec c "."); [subst c; discriminate|]. reflexivity.
Qed.

Lemma match_here_literal marker opens groups s r :
  match_here (map Lit marker) opens groups s = Some r <->
  exists rest, s = marker ++ rest /\ r = (rev groups, rest).
Proof.
  revert s. induction marker as [|c marker IH]; intros s; simpl.
  - split; [intros [= <-]; eauto|]. intros (rest & -> & ->). reflexivity.
  - destruct s as [|x s].
    + split; [discriminate|]. intros (rest & [=] & _).
    + destruct (Ascii.eqb_spec x c) as [->|Hne].
      * rewrite IH. split; intros (rest & Hs & Hr); exists rest; split; congruence.
      * split; [discriminate|]. intros (rest & [= ? ?] & _). congruence.
Qed.

Lemma search_is_Some_app p pre s :
  is_Some (match_here p [] [] s) -> is_Some (search p (pre ++ s)).
Proof.
  intros [[gs rest] Hm]. induction pre as [|c pre IH]; simpl.
  - destruct (match_here_suffix _ _ _ _ _ _ Hm) as [x ->].
    rewrite (search_here _ _ _ (match_Some _ _ _ _ Hm)). eauto.
  - destruct (match_ p (c :: pre ++ s)); [eauto|].
    destruct IH as [m ->]. simpl. eauto.
Qed.

Lemma search_literal marker line :
  is_Some (search (map Lit marker) line) <-> substring marker line.
Proof.
  split.
  - intros [m Hm]. apply search_inv in Hm as (Hline & Hmatch & _).
    apply match_here_literal in Hmatch as (rest & Heq & _).
    exists (before m), rest. congruence.
  - intros (pre & post & ->). apply search_is_Some_app.
    exists ([], post). apply match_here_literal. eauto.
Qed.

(** C5 (amended). For a marker without special characters of the pattern
    language, a line is selected exactly when the marker occurs in it as a
    literal substring. *)
Theorem line_selected_literal marker line :
  Forall (fun c => meta c = false) marker ->
  exists b, line_selected marker line = Some b /\ (b = true <-> substring marker line).
Proof.
  intros Hlit. unfold line_selected. rewrite (compile_literal _ Hlit). simpl.
  eexists. split; [reflexivity|].
  rewrite bool_decide_eq_true. apply search_literal.
Qed.

End LineFilter.

Lemma line_selected_literal_example :
  exists b, line_selected (py "thermal_temperature:")
              (py "100.0: thermal_temperature: id=0 temp=45000") = Some b
            /\ (b = true <-> substring (py "thermal_temperature:")
                               (py "100.0: thermal_temperature: id=0 temp=45000")).
Proof.
  apply line_selected_literal. vm_compute. repeat constructor.
Defined.

(** C5 does not hold for a marker with a [.]: the marker [a.c] selects the
    line [abc], in which it does not occur. *)
Lemma line_selected_not_literal :
  line_selected (py "a.c") (py "abc") = Some true
  /\ ~ substring (py "a.c") (py "abc").
Proof.
  split; [vm_compute; reflexivity|].
  intros (pre & post & H).
  assert (Hlen : length (py "abc") = length (pre ++ py "a.c" ++ post)) by (rewrite <- H; reflexivity).
  rewrite !length_app in Hlen. simpl in Hlen.
  destruct pre; [|simpl in Hlen; lia]. destruct post; [|simpl in Hlen; lia].
  discriminate H.
Qed.

(* ------------------------------------------------------------------------- *)
(** * Strings: counting, splitting, numbers *)

Section Strings.

Lemma count_app c a b : count c (a ++ b) = count c a + count c b.
Proof. unfold count. rewrite filter_app, length_app. reflexivity. Qed.

Lemma count_cons c x s : count c (x :: s) = (if decide (x = c) then 1 else 0) + count c s.
Proof. unfold count. rewrite filter_cons. destruct (decide (x = c)); reflexivity. Qed.

Lemma count_zero c s : count c s = 0 <-> ~ In c s.
Proof.
  induction s as [|x s IH]; simpl; [unfold count; simpl; tauto|].
  rewrite count_cons. destruct (decide (x = c)) as [->|Hne].
  - split; [lia|]. intros H. exfalso. apply H. auto.
  - rewrite IH. simpl. split; [intros H [?|?]; tauto|tauto].
Qed.

Lemma split_nonempty sep s : split sep s <> [].
Proof.
  induction s as [|c s IH]; simpl; [discriminate|].
  destruct (Ascii.eqb c sep); [discriminate|].
  destruct (split sep s); discriminate.
Qed.

(** Splitting keeps every character but the separators. *)
Lemma count_split c sep s :
  c <> sep -> list_sum (map (count c) (split sep s)) = count c s.
Proof.
  intros Hne. induction s as [|x s IH]; simpl; [reflexivity|].
  rewrite count_cons. destruct (Ascii.eqb_spec x sep) as [->|Hx].
  - simpl. rewrite IH. destruct (decide (sep = c)); [congruence|]. reflexivity.
  - pose proof (split_nonempty sep s) as Hs.
    destruct (split sep s) as [|w ws]; [congruence|].
    simpl in *. rewrite count_cons. lia.
Qed.

Lemma string_of_uint_digits d :
  Forall (fun c => Re.digit c = true) (py (NilEmpty.string_of_uint d)).
Proof. induction d; simpl; constructor; auto. Qed.

(** [str(n)] is made of digits. *)
Lemma str_of_nat_digits n : Forall (fun c => Re.digit c = true) (str_of_nat n).
Proof. apply string_of_uint_digits. Qed.

Lemma str_of_nat_no_brace n : ~ In "{"%char (str_of_nat n).
Proof.
  intros Hin. pose proof (str_of_nat_digits n) as Hd.
  rewrite Forall_forall in Hd. apply list_elem_of_In, Hd in Hin. discriminate Hin.
Qed.

Lemma last_behind {A} (x : list A) c y d : List.last (x ++ c :: y) d = List.last (c :: y) d.
Proof.
  induction x as [|a x IH]; [reflexivity|]. rewrite <- IH.
  change ((a :: x) ++ c :: y) with (a :: (x ++ c :: y)).
  destruct (x ++ c :: y) eqn:E; [destruct x; discriminate|reflexivity].
Qed.

End Strings.

(* ------------------------------------------------------------------------- *)
(** * The patterns of [trace_parser_explode_array] *)

Section ExplodePatterns.
Import Re ReFacts.

Ltac invert_matches :=
  repeat match goal with
    | H : matches (_ :: _) _ _ _ _ |- _ => inversion H; clear H; subst
    | H : matches [] _ _ _ _ |- _ => inversion H; clear H; subst
    end.

Lemma take_group (a s : str) n :
  n = length s -> take (length (a ++ s) - n) (a ++ s) = a.
Proof. intros ->. rewrite length_app, Nat.add_sub, take_app_length. reflexivity. Qed.

(** A match of [[^ ]+={[^}]+}] has the shape [A={B}]. *)
Lemma pat_explode_inv s gs rest :
  match_here pat_explode [] [] s = Some (gs, rest) ->
  exists A B,
    s = A ++ py "={" ++ B ++ py "}" ++ rest
    /\ A <> [] /\ Forall (fun c => not_space c = true) A
    /\ B <> [] /\ Forall (fun c => not_rbrace c = true) B.
Proof.
  intros H. apply match_here_sound in H. unfold pat_explode in H.
  invert_matches. eauto 10.
Qed.

Lemma pat_explode_complete A B rest :
  A <> [] -> Forall (fun c => not_space c = true) A ->
  B <> [] -> Forall (fun c => not_rbrace c = true) B ->
  is_Some (match_here pat_explode [] [] (A ++ py "={" ++ B ++ py "}" ++ rest)).
Proof.
  intros HA HA' HB HB'. apply (match_here_complete _ _ _ _ ([], rest)).
  unfold pat_explode. repeat (constructor; auto).
Qed.

(** The match returned by the search stands at the start of the string or
    after a space. *)
Lemma pat_explode_leftmost s m :
  search pat_explode s = Some m -> List.last (before m) " "%char = " "%char.
Proof.
  intros Hs. apply search_inv in Hs as (_ & Hm & Hleft).
  remember (before m) as pre eqn:Hpre.
  destruct pre as [|c l _] using rev_ind; [reflexivity|].
  rewrite last_last. destruct (Ascii.eqb_spec c " ") as [|Hc]; [assumption|exfalso].
  apply pat_explode_inv in Hm as (A & B & Heq & HA & HA' & HB & HB').
  specialize (Hleft l [c] eq_refl ltac:(discriminate)).
  rewrite Heq in Hleft.
  destruct (pat_explode_complete (c :: A) B (after m)) as [r Hr]; auto.
  - constructor; [|exact HA']. unfold not_space, except.
    apply negb_true_iff, Ascii.eqb_neq, Hc.
  - simpl in Hr, Hleft. congruence.
Qed.

(** A match of [([^=]+)=] at the start: the group is what stands before the
    first ["="]. *)
Lemma pat_basename_inv s m :
  match_ pat_basename s = Some m ->
  exists rest, s = g1 m ++ py "=" ++ rest
    /\ g1 m <> [] /\ Forall (fun c => not_eq c = true) (g1 m).
Proof.
  intros H. apply match_inv in H as (_ & _ & H).
  apply match_here_sound in H. unfold pat_basename in H.
  unfold g1. invert_matches.
  cbn [nth]. rewrite take_group by reflexivity. eauto.
Qed.

(** A match of [{(.+)}]: the group stands between two braces. *)
Lemma pat_vals_inv s m :
  search pat_vals s = Some m ->
  exists x y, s = x ++ py "{" ++ g1 m ++ py "}" ++ y
    /\ g1 m <> [] /\ Forall (fun c => dot c = true) (g1 m).
Proof.
  intros H. apply search_inv in H as (Hs & H & _).
  apply match_here_sound in H. unfold pat_vals in H.
  unfold g1. invert_matches.
  cbn [nth]. rewrite take_group by reflexivity.
  exists (before m), (after m).
  match goal with H : _ = group0 m ++ after m |- _ => rewrite <- H end.
  simpl. auto.
Qed.

End ExplodePatterns.

(* ------------------------------------------------------------------------- *)
(** * The text built by [trace_parser_explode_array] *)

Section ExplodedText.
Import Re ReFacts.

Lemma drop_last_snoc (b : str) c : drop_last (b ++ [c]) = b.
Proof.
  unfold drop_last. rewrite length_app. simpl.
  replace (length b + 1 - 1) with (length b) by lia. apply take_app_length.
Qed.

Lemma fmt_elem_snoc col idx v :
  fmt_elem col idx v = (col ++ str_of_nat idx ++ py "=" ++ v) ++ [" "%char].
Proof. unfold fmt_elem. rewrite <- !app_assoc. reflexivity. Qed.

Lemma explode_vals_snoc col idx vals :
  vals <> [] -> exists b, explode_vals col idx vals = b ++ [" "%char].
Proof.
  revert idx. induction vals as [|v vals IH]; intros idx Hne; [congruence|].
  simpl. destruct vals as [|v' vals].
  - simpl. rewrite app_nil_r, fmt_elem_snoc. eauto.
  - destruct (IH (S idx)) as [b Hb]; [discriminate|]. rewrite Hb.
    eexists. rewrite app_assoc. reflexivity.
Qed.

Lemma explode_pad_snoc col idx n :
  n <> 0 -> exists b, explode_pad col idx n = b ++ [" "%char].
Proof.
  revert idx. induction n as [|n IH]; intros idx Hne; [congruence|].
  simpl. destruct n as [|n].
  - simpl. rewrite app_nil_r, fmt_elem_snoc. eauto.
  - destruct (IH (S idx)) as [b Hb]; [discriminate|]. rewrite Hb.
    eexists. rewrite app_assoc. reflexivity.
Qed.

Lemma exploded_body_snoc col vals width :
  vals <> [] -> exists b, exploded_body col vals width = b ++ [" "%char].
Proof.
  intros Hne. unfold exploded_body.
  destruct (Nat.ltb_spec (length vals) width) as [Hlt|_].
  - destruct (explode_pad_snoc col (length vals) (width - length vals)) as [b Hb]; [lia|].
    rewrite Hb. eexists. rewrite app_assoc. reflexivity.
  - apply explode_vals_snoc, Hne.
Qed.

Lemma count_fmt_elem col idx v :
  ~ In "{"%char col ->
  count "{" (fmt_elem col idx v) = count "{" v.
Proof.
  intros Hcol. unfold fmt_elem. rewrite !count_app.
  apply count_zero in Hcol. rewrite Hcol.
  rewrite (proj2 (count_zero _ _) (str_of_nat_no_brace idx)).
  change (count "{" (py "=")) with 0. change (count "{" (py " ")) with 0. lia.
Qed.

Lemma count_explode_vals col idx vals :
  ~ In "{"%char col ->
  count "{" (explode_vals col idx vals) = list_sum (map (count "{") vals).
Proof.
  intros Hcol. revert idx. induction vals as [|v vals IH]; intros idx; [reflexivity|].
  simpl. rewrite count_app, count_fmt_elem, IH by exact Hcol. reflexivity.
Qed.

Lemma count_explode_pad col idx n :
  ~ In "{"%char col -> count "{" (explode_pad col idx n) = 0.
Proof.
  intros Hcol. revert idx. induction n as [|n IH]; intros idx; [reflexivity|].
  simpl. rewrite count_app, count_fmt_elem, IH by exact Hcol. reflexivity.
Qed.

Lemma count_exploded_body col vals width :
  ~ In "{"%char col ->
  count "{" (exploded_body col vals width) = list_sum (map (count "{") vals).
Proof.
  intros Hcol. unfold exploded_body. destruct (length vals <? width).
  - rewrite count_app, count_explode_vals, count_explode_pad by exact Hcol. lia.
  - apply count_explode_vals, Hcol.
Qed.

(** What [exploded_of] computes, once its two matches are known. *)
Lemma exploded_of_inv to_explode widths exploded :
  exploded_of to_explode widths = Ret exploded ->
  exists mb mv width,
    match_ pat_basename to_explode = Some mb
    /\ search pat_vals to_explode = Some mv
    /\ getitem widths (g1 mb) = Ret width
    /\ exploded = drop_last (exploded_body (g1 mb) (split " " (g1 mv)) width).
Proof.
  unfold exploded_of, exploded_body.
  destruct (match_ pat_basename to_explode) as [mb|]; [|discriminate].
  destruct (search pat_vals to_explode) as [mv|]; [|discriminate].
  cbn [group1_of mbind res_bind].
  destruct (getitem widths (g1 mb)) as [width|] eqn:Hwidth; [|discriminate].
  cbn [mbind res_bind]. intros [= <-]. exists mb, mv, width.
  repeat split; try reflexivity. exact Hwidth.
Qed.

End ExplodedText.

(* ------------------------------------------------------------------------- *)
(** * [trace_parser_explode_array] on an array token *)

Section ExplodeToken.
Import Re ReFacts.

(** A run of characters outside a class ends before the first character of
    the class. *)
Lemma prefix_before (A u x v : str) c :
  ~ In c A -> A ++ u = x ++ c :: v -> exists r, x = A ++ r /\ u = r ++ c :: v.
Proof.
  revert x. induction A as [|a A IH]; intros x Hnot Heq; simpl in *.
  - exists x. auto.
  - destruct x as [|b x]; simpl in Heq.
    + injection Heq as -> _. exfalso. apply Hnot. left. reflexivity.
    + injection Heq as -> Heq. destruct (IH x) as (r & -> & ->); auto.
      exists r. auto.
Qed.

Lemma not_space_no_space A : Forall (fun c => not_space c = true) A -> ~ In " "%char A.
Proof.
  intros H Hin. rewrite Forall_forall in H. apply list_elem_of_In, H in Hin. discriminate Hin.
Qed.

Lemma In_drop {A} (x : A) n l : In x (drop n l) -> In x l.
Proof.
  revert l. induction n as [|n IH]; intros [|y l]; simpl; auto.
Qed.

(** The rest of [[^ ]+={[^}]+}] after its first part needs ["={"]. *)
Lemma after_basename_None opens groups s :
  (forall s', s <> "="%char :: "{"%char :: s') ->
  match_here [Lit "="; Lit "{"; Plus not_rbrace; Lit "}"] opens groups s = None.
Proof.
  intros Hs. destruct s as [|c [|c' s']]; simpl; try reflexivity.
  - destruct (Ascii.eqb c "="); reflexivity.
  - destruct (Ascii.eqb_spec c "="); [|reflexivity].
    destruct (Ascii.eqb_spec c' "{"); [|reflexivity].
    subst. exfalso. eapply Hs. reflexivity.
Qed.

(** No match of [[^ ]+={[^}]+}] starts in a text without ["{"] that ends
    with a space. *)
Lemma pat_explode_not_before y s :
  y <> [] -> List.last y " "%char = " "%char -> ~ In "{"%char y ->
  match_here pat_explode [] [] (y ++ s) = None.
Proof.
  intros Hy Hlast Hnot.
  destruct (match_here pat_explode [] [] (y ++ s)) as [[gs rest]|] eqn:Hm; [|reflexivity].
  exfalso. apply pat_explode_inv in Hm as (A & B & Heq & _ & HA & _).
  destruct y as [|c0 y0] using rev_ind; [congruence|]. clear IHy0.
  rewrite last_last in Hlast. subst c0. rewrite <- app_assoc in Heq. simpl in Heq.
  symmetry in Heq. apply prefix_before in Heq as (r & -> & Hr);
    [|apply not_space_no_space, HA].
  destruct r as [|c1 [|c2 r]]; simpl in Hr; try discriminate Hr.
  injection Hr as _ <- _. apply Hnot.
  rewrite !in_app_iff. simpl. tauto.
Qed.

Lemma basename_char_inv c :
  basename_char c = true -> not_space c = true /\ not_eq c = true /\ c <> "{"%char.
Proof.
  unfold basename_char. rewrite !andb_true_iff. intros [[H1 H2] H3].
  repeat split; auto. intros ->. discriminate H3.
Qed.

Lemma element_char_inv c :
  element_char c = true -> c <> "{"%char /\ not_rbrace c = true /\ dot c = true.
Proof.
  unfold element_char. rewrite !andb_true_iff. intros [[H1 H2] H3].
  repeat split; auto. intros ->. discriminate H1.
Qed.

Lemma word_basename c : word c = true -> basename_char c = true.
Proof.
  destruct c as [[] [] [] [] [] [] [] []]; intros H; try reflexivity; discriminate H.
Qed.

Lemma Forall_basename name :
  Forall (fun c => basename_char c = true) name ->
  Forall (fun c => not_space c = true) name
  /\ Forall (fun c => not_eq c = true) name /\ ~ In "{"%char name.
Proof.
  intros H. repeat split.
  - eapply Forall_impl; [exact H|]. intros c Hc. apply basename_char_inv, Hc.
  - eapply Forall_impl; [exact H|]. intros c Hc. apply basename_char_inv, Hc.
  - intros Hin. rewrite Forall_forall in H. apply list_elem_of_In, H in Hin. discriminate Hin.
Qed.

Lemma Forall_element elems :
  Forall (fun c => element_char c = true) elems ->
  Forall (fun c => not_rbrace c = true) elems
  /\ Forall (fun c => dot c = true) elems /\ ~ In "{"%char elems.
Proof.
  intros H. repeat split.
  - eapply Forall_impl; [exact H|]. intros c Hc. apply element_char_inv, Hc.
  - eapply Forall_impl; [exact H|]. intros c Hc. apply element_char_inv, Hc.
  - intros Hin. rewrite Forall_forall in H. apply list_elem_of_In, H in Hin. discriminate Hin.
Qed.

(** The closing part [[^}]+}] on the elements of a token. *)
Lemma match_elements p opens groups elems rest r :
  elems <> [] -> Forall (fun c => not_rbrace c = true) elems ->
  match_here p opens groups ("}"%char :: rest) = Some r ->
  match_here (Plus not_rbrace :: p) opens groups (elems ++ "}"%char :: rest) = Some r.
Proof.
  intros Hne Hall Hp. cbn [match_here].
  rewrite span_app_stop by (exact Hall || reflexivity).
  apply (backtrack_first _ _ _ (length elems)).
  - destruct elems; [congruence|simpl; lia].
  - rewrite drop_app_length. exact Hp.
  - intros i Hi. lia.
Qed.

Lemma span_app_all p (a b : str) :
  Forall (fun c => p c = true) a -> span p (a ++ b) = length a + span p b.
Proof. induction 1 as [|x a Hx _ IH]; simpl; [reflexivity|]. rewrite Hx, IH. reflexivity. Qed.

(** What stops a run is not of the class. *)
Lemma span_stop p s :
  match drop (span p s) s with
  | [] => True
  | c :: _ => p c = false
  end.
Proof.
  induction s as [|x s IH]; simpl; [exact I|].
  destruct (p x) eqn:Hx; simpl; [exact IH|exact Hx].
Qed.

Lemma In_take_span p (a b : str) c :
  In c (take (span p (a ++ b)) (a ++ b)) -> In c a \/ In c (take (span p b) b).
Proof.
  induction a as [|x a IH]; simpl; [auto|].
  destruct (p x); simpl; [|tauto]. intros [->|Hin]; [auto|]. destruct (IH Hin); auto.
Qed.

Lemma In_take_span_intro p (l : str) c rest :
  Forall (fun x => p x = true) l -> p c = true ->
  In c (take (span p (l ++ c :: rest)) (l ++ c :: rest)).
Proof.
  intros Hl Hc. rewrite span_app_all by exact Hl. simpl. rewrite Hc.
  rewrite take_app_ge by lia.
  replace (length l + S (span p rest) - length l) with (S (span p rest)) by lia.
  apply in_app_iff. right. left. reflexivity.
Qed.

(** Inside a run of characters other than spaces, ["={"] is found only
    where the run has a ["{"]. *)
Lemma no_assignment_in_run (R : str) i s' :
  1 <= i <= span not_space R ->
  ~ In "{"%char (drop 2 (take (span not_space R) R)) ->
  drop i R <> "="%char :: "{"%char :: s'.
Proof.
  intros Hi Hnot Heq.
  pose proof (span_stop not_space R) as Hstop.
  pose proof (span_le not_space R) as Hle.
  assert (Heq' : drop i (take (span not_space R) R) ++ drop (span not_space R) R
                 = "="%char :: "{"%char :: s').
  { rewrite <- drop_app_le by (rewrite length_take; lia). rewrite take_drop. exact Heq. }
  clear Heq. rename Heq' into Heq.
  destruct (drop i (take (span not_space R) R)) as [|x [|y w]] eqn:Hd; simpl in Heq.
  - rewrite Heq in Hstop. discriminate Hstop.
  - injection Heq as -> Heq. rewrite Heq in Hstop. discriminate Hstop.
  - injection Heq as -> -> _. apply Hnot.
    apply (In_drop _ (i - 1)).
    replace (drop (i - 1) (drop 2 (take (span not_space R) R)))
      with (drop 1 (drop i (take (span not_space R) R)))
      by (rewrite !drop_drop; f_equal; lia).
    rewrite Hd. simpl. left. reflexivity.
Qed.

(** At the start of an array token whose elements have no ["{"], with no
    ["{"] right behind it, [[^ ]+={[^}]+}] matches the token. *)
Lemma pat_explode_token name elems post :
  name <> [] -> Forall (fun c => basename_char c = true) name ->
  elems <> [] -> Forall (fun c => element_char c = true) elems ->
  ~ In "{"%char (first_word post) ->
  match_here pat_explode [] [] (name ++ py "={" ++ elems ++ py "}" ++ post)
  = Some ([], post).
Proof.
  intros Hname Hnamec Helems Helemsc Hpost.
  destruct (Forall_basename _ Hnamec) as (Hns & _ & _).
  destruct (Forall_element _ Helemsc) as (Hnr & _ & Hnb).
  unfold pat_explode. cbn [match_here].
  apply (backtrack_first _ _ _ (length name)).
  - split; [destruct name; [congruence|simpl; lia]|]. apply span_app_ge, Hns.
  - rewrite drop_app_length. cbn [py list_ascii_of_string app match_here].
    rewrite !Ascii.eqb_refl.
    apply (match_elements [Lit "}"] [] [] elems post); auto.
  - intros i Hi. apply (after_basename_None [] []). intros s' Hs'.
    rewrite span_app_all in Hi by exact Hns.
    rewrite drop_app_ge in Hs' by lia.
    set (R := py "={" ++ elems ++ py "}" ++ post) in *.
    apply (no_assignment_in_run R (i - length name) s'); [lia| |exact Hs'].
    subst R.
    cbn [py list_ascii_of_string app span not_space except Ascii.eqb Bool.eqb negb take drop].
    intros Hin. apply In_take_span in Hin as [Hin|Hin]; [tauto|].
    cbn [span not_space except Ascii.eqb Bool.eqb negb take] in Hin.
    destruct Hin as [Hin|Hin]; [discriminate Hin|]. apply Hpost, Hin.
Qed.

(** [re.search] finds the token behind a text without ["{"] that ends with
    a space. *)
Lemma search_explode_token pre name elems post :
  List.last pre " "%char = " "%char -> ~ In "{"%char pre ->
  name <> [] -> Forall (fun c => basename_char c = true) name ->
  elems <> [] -> Forall (fun c => element_char c = true) elems ->
  ~ In "{"%char (first_word post) ->
  search pat_explode (pre ++ (name ++ py "={" ++ elems ++ py "}") ++ post)
  = Some (mkMatch pre (name ++ py "={" ++ elems ++ py "}") post []).
Proof.
  intros Hlast Hpre Hname Hnamec Helems Helemsc Hpost.
  rewrite search_skip.
  - rewrite (search_here _ _ (mkMatch [] (name ++ py "={" ++ elems ++ py "}") post [])).
    + unfold shift_all. simpl. rewrite app_nil_r. reflexivity.
    + apply match_Some. rewrite <- !app_assoc. apply pat_explode_token; auto.
  - intros x y -> Hy. apply pat_explode_not_before; [exact Hy| |].
    + destruct y as [|c y]; [congruence|].
      rewrite last_behind in Hlast. exact Hlast.
    + intros Hin. apply Hpre, in_app_iff. auto.
Qed.

(** [([^=]+)=] on a token gives its name. *)
Lemma basename_of_token name rest :
  name <> [] -> Forall (fun c => not_eq c = true) name ->
  group1_of (match_ pat_basename (name ++ "="%char :: rest)) = Ret name.
Proof.
  intros Hname Hall.
  assert (Hm : match_here pat_basename [] [] ((name ++ ["="%char]) ++ rest)
               = Some ([name], rest)).
  { rewrite <- app_assoc. unfold pat_basename. cbn [match_here app].
    rewrite span_app_stop by (exact Hall || reflexivity).
    apply (backtrack_first _ _ _ (length name)).
    - destruct name; [congruence|simpl; lia].
    - rewrite drop_app_length. cbn [match_here]. rewrite Ascii.eqb_refl.
      rewrite take_group by reflexivity. reflexivity.
    - intros i Hi. lia. }
  apply match_Some in Hm. rewrite <- app_assoc in Hm. simpl in Hm.
  rewrite Hm. reflexivity.
Qed.

Lemma pat_vals_needs_brace c s : c <> "{"%char -> match_here pat_vals [] [] (c :: s) = None.
Proof. intros Hc. simpl. destruct (Ascii.eqb_spec c "{"); [congruence|reflexivity]. Qed.

(** [{(.+)}] on a token gives its elements. *)
Lemma vals_of_token name elems :
  ~ In "{"%char name -> elems <> [] ->
  Forall (fun c => dot c = true) elems ->
  group1_of (search pat_vals (name ++ py "={" ++ elems ++ py "}")) = Ret elems.
Proof.
  intros Hname Helems Hall.
  assert (Hm : match_here pat_vals [] [] (("{"%char :: elems ++ ["}"%char]) ++ [])
               = Some ([elems], [])).
  { rewrite app_nil_r. unfold pat_vals. cbn [match_here]. rewrite Ascii.eqb_refl.
    cbn [match_here]. rewrite span_app_end.
    2:{ apply Forall_app. split; [exact Hall|]. repeat constructor. }
    apply (backtrack_first _ _ _ (length elems)).
    - rewrite length_app. simpl. destruct elems; [congruence|simpl; lia].
    - rewrite drop_app_length. cbn [match_here]. rewrite Ascii.eqb_refl.
      replace (length (elems ++ ["}"%char]) - length ["}"%char]) with (length elems)
        by (rewrite length_app; simpl; lia).
      rewrite take_app_length. reflexivity.
    - intros i Hi. rewrite length_app in Hi. simpl in Hi.
      replace i with (length (elems ++ ["}"%char])) by (rewrite length_app; simpl; lia).
      rewrite drop_all. reflexivity. }
  apply match_Some, search_here in Hm. rewrite app_nil_r in Hm.
  change (name ++ py "={" ++ elems ++ py "}")
    with (name ++ "="%char :: "{"%char :: elems ++ ["}"%char]).
  change (name ++ "="%char :: "{"%char :: elems ++ ["}"%char])
    with (name ++ ["="%char] ++ ("{"%char :: elems ++ ["}"%char])).
  rewrite app_assoc, search_skip.
  - rewrite Hm. reflexivity.
  - intros x y Hxy Hy. destruct y as [|c y]; [congruence|].
    apply pat_vals_needs_brace. intros ->. apply Hname.
    assert (Hin : In "{"%char (name ++ ["="%char])).
    { rewrite Hxy. apply in_app_iff. right. left. reflexivity. }
    apply in_app_iff in Hin as [Hin|[Hin|[]]]; [exact Hin|discriminate Hin].
Qed.

Lemma explode_vals_app col idx vals vals' :
  explode_vals col idx (vals ++ vals')
  = explode_vals col idx vals ++ explode_vals col (idx + length vals) vals'.
Proof.
  revert idx. induction vals as [|v vals IH]; intros idx; simpl.
  - rewrite Nat.add_0_r. reflexivity.
  - rewrite IH, <- app_assoc, Nat.add_succ_r. reflexivity.
Qed.

Lemma explode_pad_replicate col idx n :
  explode_pad col idx n = explode_vals col idx (replicate n (py "0")).
Proof. revert idx. induction n as [|n IH]; intros idx; simpl; [|rewrite IH]; reflexivity. Qed.

Lemma exploded_body_padded col vals width :
  exploded_body col vals width = explode_vals col 0 (padded vals width).
Proof.
  unfold exploded_body, padded. destruct (Nat.ltb_spec (length vals) width) as [Hlt|Hge].
  - rewrite explode_vals_app, explode_pad_replicate. reflexivity.
  - replace (width - length vals) with 0 by lia. simpl. rewrite app_nil_r. reflexivity.
Qed.

Lemma explode_vals_columns col idx vals :
  vals <> [] -> explode_vals col idx vals = columns_text col idx vals ++ [" "%char].
Proof.
  revert idx. induction vals as [|v vals IH]; intros idx Hne; [congruence|].
  destruct vals as [|v' vals].
  - simpl. rewrite app_nil_r. apply fmt_elem_snoc.
  - change (explode_vals col idx (v :: v' :: vals))
      with (fmt_elem col idx v ++ explode_vals col (S idx) (v' :: vals)).
    rewrite IH by discriminate.
    change (columns_text col idx (v :: v' :: vals))
      with (col ++ str_of_nat idx ++ py "=" ++ v ++ py " " ++ columns_text col (S idx) (v' :: vals)).
    unfold fmt_elem. rewrite <- !app_assoc. reflexivity.
Qed.

(** The text that replaces a token: one column for every element, then
    columns of [0] up to the width. *)
Lemma exploded_of_token name elems widths width :
  name <> [] -> Forall (fun c => basename_char c = true) name ->
  elems <> [] -> Forall (fun c => element_char c = true) elems ->
  getitem widths name = Ret width ->
  exploded_of (name ++ py "={" ++ elems ++ py "}") widths
  = Ret (columns_text name 0 (padded (split " " elems) width)).
Proof.
  intros Hname Hnamec Helems Helemsc Hwidth.
  destruct (Forall_basename _ Hnamec) as (_ & Hne & Hnb).
  destruct (Forall_element _ Helemsc) as (_ & Hdot & _).
  unfold exploded_of.
  rewrite (vals_of_token name elems Hnb Helems Hdot).
  change (name ++ py "={" ++ elems ++ py "}")
    with (name ++ "="%char :: ("{"%char :: elems ++ py "}")).
  rewrite (basename_of_token name _ Hname Hne).
  cbn [mbind res_bind]. rewrite Hwidth. cbn [mbind res_bind].
  change (if length (split " " elems) <? width
          then explode_vals name 0 (split " " elems)
               ++ explode_pad name (length (split " " elems)) (width - length (split " " elems))
          else explode_vals name 0 (split " " elems))
    with (exploded_body name (split " " elems) width).
  rewrite exploded_body_padded, explode_vals_columns, drop_last_snoc; [reflexivity|].
  unfold padded. pose proof (split_nonempty " " elems).
  destruct (split " " elems); [congruence|discriminate].
Qed.

Lemma In_split c sep s v : In v (split sep s) -> In c v -> In c s.
Proof.
  revert v. induction s as [|x s IH]; intros v; simpl.
  - intros [Hv|[]] Hc. subst v. destruct Hc.
  - destruct (Ascii.eqb x sep).
    + intros [Hv|Hv] Hc; [subst v; destruct Hc|]. right. eapply IH; eauto.
    + pose proof (split_nonempty sep s) as Hne.
      destruct (split sep s) as [|w ws]; [congruence|].
      intros [Hv|Hv] Hc.
      * subst v. destruct Hc as [->|Hc]; [left; reflexivity|].
        right. apply (IH w); simpl; auto.
      * right. apply (IH v); simpl; auto.
Qed.

Lemma columns_text_plain name idx vals :
  ~ In "{"%char name -> Forall (fun v => ~ In "{"%char v) vals ->
  ~ In "{"%char (columns_text name idx vals).
Proof.
  intros Hname Hvals. revert idx.
  induction Hvals as [|v vals Hv _ IH]; intros idx; [simpl; tauto|].
  pose proof (str_of_nat_no_brace idx) as Hidx.
  destruct vals as [|v' vals].
  - simpl. rewrite !in_app_iff. simpl. intuition discriminate.
  - change (columns_text name idx (v :: v' :: vals))
      with (name ++ str_of_nat idx ++ py "=" ++ v ++ py " " ++ columns_text name (S idx) (v' :: vals)).
    specialize (IH (S idx)). rewrite !in_app_iff. simpl. intuition discriminate.
Qed.

Lemma padded_plain elems width :
  ~ In "{"%char elems ->
  Forall (fun v => ~ In "{"%char v) (padded (split " " elems) width).
Proof.
  intros Hnot. unfold padded. apply Forall_app. split.
  - apply Forall_forall. intros v Hv Hc. apply list_elem_of_In in Hv.
    apply Hnot. eapply In_split; eauto.
  - apply Forall_forall. intros v Hv. apply elem_of_replicate in Hv as [-> _].
    simpl. intros [H|[]]. discriminate H.
Qed.

Lemma first_word_space b rest : first_word (b ++ " "%char :: rest) = first_word b.
Proof.
  unfold first_word. induction b as [|x b IH]; simpl; [reflexivity|].
  destruct (not_space x); simpl; [rewrite IH|]; reflexivity.
Qed.

(** No match of [[^ ]+={[^}]+}] starts in a text without ["{"] that is
    followed by a word without ["{"]. *)
Lemma pat_explode_not_in_prefix y s :
  ~ In "{"%char y -> ~ In "{"%char (first_word s) ->
  match_here pat_explode [] [] (y ++ s) = None.
Proof.
  intros Hy Hs.
  destruct (match_here pat_explode [] [] (y ++ s)) as [[gs rest]|] eqn:Hm; [|reflexivity].
  exfalso. apply pat_explode_inv in Hm as (A & B & Heq & _ & HA & _).
  change (A ++ py "={" ++ B ++ py "}" ++ rest)
    with (A ++ ["="%char] ++ "{"%char :: B ++ py "}" ++ rest) in Heq.
  rewrite app_assoc in Heq.
  apply app_eq_app in Heq as [l [[Hyl Hl]|[HAl Hsl]]].
  - destruct l as [|c l]; simpl in Hl.
    + apply Hs. rewrite <- Hl. unfold first_word. simpl. left. reflexivity.
    + injection Hl as <- _. apply Hy. rewrite Hyl. apply in_app_iff. right. left. reflexivity.
  - apply Hs. rewrite Hsl. apply In_take_span_intro; [|reflexivity].
    assert (Hall : Forall (fun c => not_space c = true) (A ++ ["="%char])).
    { apply Forall_app. split; [exact HA|repeat constructor]. }
    rewrite HAl in Hall. apply Forall_app in Hall. apply Hall.
Qed.

(** A text without ["{"] in front of the string stays in front of it over
    one turn of the loop. *)
Lemma explode_step_prefix a s widths :
  ~ In "{"%char a -> ~ In "{"%char (first_word s) ->
  explode_step (a ++ s) widths
  = match explode_step s widths with
    | Ret (Some s') => Ret (Some (a ++ s'))
    | Ret None => Ret None
    | Raise e => Raise e
    end.
Proof.
  intros Ha Hs. unfold explode_step. rewrite search_skip.
  - destruct (search pat_explode s) as [m|]; [|reflexivity]. simpl.
    destruct (exploded_of (group0 m) widths); simpl; [|reflexivity].
    rewrite <- app_assoc. reflexivity.
  - intros x y -> _. apply pat_explode_not_in_prefix; [|exact Hs].
    intros Hin. apply Ha, in_app_iff. auto.
Qed.

Lemma explode_step_first_word s widths s' :
  explode_step s widths = Ret (Some s') ->
  ~ In "{"%char (first_word s) -> ~ In "{"%char (first_word s').
Proof.
  unfold explode_step.
  destruct (search pat_explode s) as [m|] eqn:Hsearch; [|discriminate].
  destruct (exploded_of (group0 m) widths) as [exploded|]; [|discriminate].
  cbn [mbind res_bind]. intros [= <-] Hs.
  pose proof (pat_explode_leftmost _ _ Hsearch) as Hlast.
  apply search_inv in Hsearch as (Heq & Hm & _).
  apply pat_explode_inv in Hm as (A & B & HT & _ & HA & _).
  remember (before m) as pre eqn:Hpre.
  destruct pre as [|c b _] using rev_ind.
  - exfalso. apply Hs. rewrite Heq. simpl. rewrite HT.
    change (A ++ py "={" ++ B ++ py "}" ++ after m)
      with (A ++ ["="%char] ++ "{"%char :: B ++ py "}" ++ after m).
    rewrite app_assoc. apply In_take_span_intro; [|reflexivity].
    apply Forall_app. split; [exact HA|repeat constructor].
  - rewrite last_last in Hlast. subst c.
    rewrite Heq in Hs. rewrite <- !app_assoc in Hs |- *. simpl in Hs |- *.
    rewrite first_word_space in Hs |- *. exact Hs.
Qed.

(** A text without ["{"] in front of the string stays in front of it over
    the loop. *)
Lemma explode_prefix fuel : forall a s widths,
  ~ In "{"%char a -> ~ In "{"%char (first_word s) ->
  trace_parser_explode_array fuel (a ++ s) widths
  = prepend a (trace_parser_explode_array fuel s widths).
Proof.
  induction fuel as [|fuel IH]; intros a s widths Ha Hs; [reflexivity|].
  cbn [trace_parser_explode_array]. rewrite explode_step_prefix by assumption.
  destruct (explode_step s widths) as [[s'|]|e] eqn:Hstep; try reflexivity.
  apply IH; [exact Ha|]. eapply explode_step_first_word; eauto.
Qed.

(** The loop on a string whose first array token stands at the start or
    after a space: the token is replaced by its columns and the loop goes on
    with what follows the token. *)
Lemma explode_first_token pre name elems post widths width fuel :
  name <> [] -> Forall (fun c => basename_char c = true) name ->
  elems <> [] -> Forall (fun c => element_char c = true) elems ->
  List.last pre " "%char = " "%char -> ~ In "{"%char pre ->
  ~ In "{"%char (first_word post) ->
  getitem widths name = Ret width ->
  trace_parser_explode_array (S fuel)
    (pre ++ (name ++ py "={" ++ elems ++ py "}") ++ post) widths
  = prepend (pre ++ columns_text name 0 (padded (split " " elems) width))
      (trace_parser_explode_array fuel post widths).
Proof.
  intros Hname Hnamec Helems Helemsc Hlast Hpre Hpost Hwidth.
  cbn [trace_parser_explode_array]. unfold explode_step at 1.
  rewrite search_explode_token by assumption. cbn [Re.group0 Re.before Re.after].
  rewrite (exploded_of_token name elems widths width) by assumption.
  cbn [mbind res_bind]. rewrite app_assoc. apply explode_prefix; [|exact Hpost].
  rewrite in_app_iff. intros [Hin|Hin]; [tauto|].
  revert Hin. apply columns_text_plain.
  - apply Forall_basename, Hnamec.
  - apply padded_plain. apply Forall_element, Helemsc.
Qed.

End ExplodeToken.

(** C1 (amended). An array token [name={elements}] that stands at the start
    of the string or after a space, with no ["{"] before it and none right
    behind it, is replaced by the columns [name0=v0 ... name(k-1)=v(k-1)] of
    the [k] pieces that the single spaces cut the elements into, followed by
    [name(k)=0 ... name(L-1)=0] when [k] is less than the width [L] that the
    mapping has for [name]; the loop then goes on with the rest of the
    string. *)
Theorem explode_array_token pre name elems post widths width fuel :
  name <> [] -> Forall (fun c => basename_char c = true) name ->
  elems <> [] -> Forall (fun c => element_char c = true) elems ->
  List.last pre " "%char = " "%char -> ~ In "{"%char pre ->
  ~ In "{"%char (first_word post) ->
  getitem widths name = Ret width ->
  trace_parser_explode_array (S fuel)
    (pre ++ (name ++ py "={" ++ elems ++ py "}") ++ post) widths
  = prepend (pre ++ columns_text name 0 (padded (split " " elems) width))
      (trace_parser_explode_array fuel post widths).
Proof.
  intros Hname Hnamec Helems Helemsc Hlast Hpre Hpost Hwidth.
  rewrite (explode_first_token pre name elems post widths width fuel) by assumption.
  destruct (trace_parser_explode_array fuel post widths) as [[s|e]|]; reflexivity.
Qed.

Lemma explode_array_token_docstring :
  trace_parser_explode_array 2 (py "load={1 2}") (Dict {[ py "load" := 4 ]})
  = Some (Ret (py "load0=1 load1=2 load2=0 load3=0")).
Proof.
  apply (explode_array_token [] (py "load") (py "1 2") [] (Dict {[ py "load" := 4 ]}) 4 1);
    try (vm_compute; repeat constructor; fail); try discriminate; simpl; tauto.
Defined.

(** C1 does not hold for elements separated by more than one space: the two
    elements of [load={1  2}] give three columns. *)
Lemma explode_two_spaces_three_columns :
  whitespace_tokens false (py "1  2") = 2
  /\ trace_parser_explode_array 2 (py "load={1  2}") (Dict {[ py "load" := 4 ]})
     = Some (Ret (py "load0=1 load1= load2=2 load3=0"))
  /\ trace_parser_explode_array 2 (py "load={1  2}") (Dict {[ py "load" := 4 ]})
     <> Some (Ret (py "load0=1 load1=2 load2=0 load3=0")).
Proof. split; [|split]; vm_compute; [reflexivity|reflexivity|discriminate]. Qed.

(* ------------------------------------------------------------------------- *)
(** * The loop of [trace_parser_explode_array] ends *)

Section ExplodeTerminates.
Import Re ReFacts.

Lemma has_brace_false s : has_brace s = false -> ~ In "{"%char s.
Proof.
  unfold has_brace. intros H Hin.
  assert (Hex : existsb (Ascii.eqb "{") s = true).
  { apply existsb_exists. exists "{"%char. split; [exact Hin|reflexivity]. }
  congruence.
Qed.

(** The check of the names covers every place where a word starts. *)
Lemma names_plain_from_sound s : forall at_start x z,
  names_plain_from at_start s = true ->
  s = x ++ z -> (x = [] -> at_start = true) -> List.last x " "%char = " "%char ->
  is_Some (match_here pat_explode [] [] z) ->
  ~ In "{"%char (basename_of z).
Proof.
  induction s as [|c s IH]; intros at_start x z Hcheck Heq Hstart Hlast Hmatch.
  - destruct x, z; try discriminate Heq. destruct Hmatch as [r Hr]. discriminate Hr.
  - cbn [names_plain_from] in Hcheck. apply andb_true_iff in Hcheck as [Hhere Hrest].
    destruct x as [|c' x]; simpl in Heq.
    + subst z. rewrite (Hstart eq_refl) in Hhere. unfold plain_name_at in Hhere.
      destruct Hmatch as [r Hr]. rewrite Hr in Hhere.
      apply has_brace_false, negb_true_iff, Hhere.
    + injection Heq as <- Heq. apply (IH (Ascii.eqb c " ") x z Hrest Heq); [| |exact Hmatch].
      * intros ->. simpl in Hlast. subst c. reflexivity.
      * destruct x as [|c'' x]; [reflexivity|]. exact Hlast.
Qed.

Lemma array_names_plain_sound s : array_names_plain s = true -> names_plain s.
Proof.
  intros Hcheck x z Heq Hlast Hmatch.
  apply (names_plain_from_sound s true x z); auto.
Qed.

(** The name of the array at the start of a string. *)
Lemma basename_of_eq col rest :
  Forall (fun c => not_eq c = true) col -> basename_of (col ++ "="%char :: rest) = col.
Proof.
  intros Hcol. unfold basename_of.
  rewrite span_app_stop by (exact Hcol || reflexivity). apply take_app_length.
Qed.

Lemma split_no_sep sep s : Forall (fun v => ~ In sep v) (split sep s).
Proof.
  induction s as [|c s IH]; simpl; [repeat constructor; simpl; tauto|].
  destruct (Ascii.eqb_spec c sep) as [->|Hne].
  - constructor; [simpl; tauto|exact IH].
  - pose proof (split_nonempty sep s) as Hs.
    destruct (split sep s) as [|w ws]; [congruence|].
    inversion IH as [|? ? Hw Hws]; subst. constructor; [|exact Hws].
    simpl. intros [Heq|Hin]; [congruence|tauto].
Qed.

Lemma padded_no_space elems width :
  Forall (fun v => ~ In " "%char v) (padded (split " " elems) width).
Proof.
  unfold padded. apply Forall_app. split; [apply split_no_sep|].
  apply Forall_forall. intros v Hv. apply elem_of_replicate in Hv as [-> _].
  simpl. intros [H|[]]. discriminate H.
Qed.

Lemma padded_nonempty elems width : padded (split " " elems) width <> [].
Proof.
  unfold padded. pose proof (split_nonempty " " elems).
  destruct (split " " elems); [congruence|discriminate].
Qed.

Lemma str_of_nat_no c n : Re.digit c = false -> ~ In c (str_of_nat n).
Proof.
  intros Hc Hin. pose proof (str_of_nat_digits n) as Hd.
  rewrite Forall_forall in Hd. apply list_elem_of_In, Hd in Hin. congruence.
Qed.

(** The columns of an array start with the name and a number. *)
Lemma columns_text_head col idx cells :
  cells <> [] ->
  exists r, columns_text col idx cells = (col ++ str_of_nat idx) ++ "="%char :: r.
Proof.
  destruct cells as [|v [|v' cells]]; [congruence| |]; intros _.
  - exists v. cbn [columns_text]. rewrite <- List.app_assoc. reflexivity.
  - exists (v ++ py " " ++ columns_text col (S idx) (v' :: cells)).
    change (columns_text col idx (v :: v' :: cells))
      with (col ++ str_of_nat idx ++ py "=" ++ v ++ py " "
            ++ columns_text col (S idx) (v' :: cells)).
    rewrite <- List.app_assoc. reflexivity.
Qed.

(** What follows a space in the columns of an array are columns again. *)
Lemma columns_text_word_start col cells : forall idx l e,
  ~ In " "%char col -> Forall (fun v => ~ In " "%char v) cells ->
  columns_text col idx cells = l ++ e ->
  l <> [] -> List.last l " "%char = " "%char ->
  exists j cells', cells' <> [] /\ e = columns_text col j cells'.
Proof.
  induction cells as [|v cells IH]; intros idx l e Hcol Hcells Heq Hl Hlast.
  - simpl in Heq. destruct l; [congruence|discriminate Heq].
  - inversion Hcells as [|? ? Hv Hcells']; subst.
    destruct l as [|c l0 _] using rev_ind; [congruence|].
    rewrite last_last in Hlast. subst c. rewrite <- app_assoc in Heq.
    change ([" "%char] ++ e) with (" "%char :: e) in Heq.
    assert (Hhead : ~ In " "%char (col ++ str_of_nat idx ++ py "=" ++ v)).
    { rewrite !in_app_iff. simpl.
      pose proof (str_of_nat_no " " idx eq_refl). intuition discriminate. }
    destruct cells as [|v' cells].
    + exfalso. apply Hhead. cbn [columns_text] in Heq. rewrite Heq.
      apply in_app_iff. right. left. reflexivity.
    + change (columns_text col idx (v :: v' :: cells))
        with (col ++ str_of_nat idx ++ py "=" ++ v ++ py " "
              ++ columns_text col (S idx) (v' :: cells)) in Heq.
      assert (Heq' : (col ++ str_of_nat idx ++ py "=" ++ v)
                     ++ " "%char :: columns_text col (S idx) (v' :: cells)
                     = l0 ++ " "%char :: e).
      { rewrite <- Heq, <- !List.app_assoc. reflexivity. }
      clear Heq. rename Heq' into Heq.
      apply prefix_before in Heq as (r & Hl0 & Hr); [|exact Hhead].
      destruct r as [|c r]; cbn [app] in Hr.
      * injection Hr as Hr. exists (S idx), (v' :: cells).
        split; [discriminate|symmetry; exact Hr].
      * injection Hr as <- Hr.
        apply (IH (S idx) (r ++ [" "%char]) e); auto.
        -- rewrite <- app_assoc. exact Hr.
        -- intros Hnil. destruct r; discriminate Hnil.
        -- apply last_last.
Qed.

Lemma not_in_not_rbrace b : ~ In "}"%char b -> Forall (fun c => not_rbrace c = true) b.
Proof.
  intros Hnot. apply Forall_forall. intros c Hc. apply list_elem_of_In in Hc.
  unfold not_rbrace, except. apply negb_true_iff, Ascii.eqb_neq. intros ->. tauto.
Qed.

(** A match that starts before the replaced token and reaches into the new
    text was a match before the token was replaced. *)
Lemma match_before_token l exploded token post :
  l <> [] -> List.last l " "%char = " "%char ->
  is_Some (match_here pat_explode [] [] (l ++ exploded ++ post)) ->
  is_Some (match_here pat_explode [] [] (l ++ (token ++ ["}"%char]) ++ post)).
Proof.
  intros Hl Hlast [[gs rest] Hm].
  apply pat_explode_inv in Hm as (A & B & Heq & HA & HAs & HB & HBr).
  destruct l as [|c l0 _] using rev_ind; [congruence|].
  rewrite last_last in Hlast. subst c. rewrite <- app_assoc in Heq.
  change ([" "%char] ++ exploded ++ post) with (" "%char :: exploded ++ post) in Heq.
  symmetry in Heq. apply prefix_before in Heq as (r & -> & Hr);
    [|apply not_space_no_space, HAs].
  destruct r as [|c1 [|c2 r]]; simpl in Hr; try discriminate Hr.
  injection Hr as <- <- Hr.
  set (u := r ++ " "%char :: token).
  assert (Hu : exists c0 u', u = c0 :: u' /\ c0 <> "}"%char).
  { destruct B as [|b0 B]; [congruence|]. inversion HBr as [|? ? Hb0 _]; subst.
    assert (Hb0' : b0 <> "}"%char) by (intros ->; discriminate Hb0).
    subst u. destruct r as [|c r]; simpl in Hr |- *; injection Hr as <- _; eauto. }
  assert (Hsplit : exists b1 rest', b1 <> [] /\ ~ In "}"%char b1
                     /\ u ++ "}"%char :: post = b1 ++ "}"%char :: rest').
  { destruct Hu as (c0 & u' & Hu & Hc0).
    destruct (decide ("}"%char ∈ u)) as [Hin|Hnot].
    - apply list_elem_of_split_l in Hin as (b1 & b2 & Hb & Hb1).
      rewrite list_elem_of_In in Hb1.
      exists b1, (b2 ++ "}"%char :: post). split; [|split; [exact Hb1|]].
      + intros ->. rewrite Hu in Hb. simpl in Hb. congruence.
      + rewrite Hb, <- app_assoc. reflexivity.
    - rewrite list_elem_of_In in Hnot. exists u, post.
      split; [rewrite Hu; discriminate|]. split; [exact Hnot|reflexivity]. }
  destruct Hsplit as (b1 & rest' & Hb1 & Hb1r & Hsplit).
  assert (Htext : ((A ++ "="%char :: "{"%char :: r) ++ [" "%char]) ++ (token ++ ["}"%char]) ++ post
                  = A ++ py "={" ++ b1 ++ py "}" ++ rest').
  { change (py "}" ++ rest') with ("}"%char :: rest'). rewrite <- Hsplit. subst u.
    rewrite <- !app_assoc. reflexivity. }
  rewrite Htext. apply pat_explode_complete; auto. apply not_in_not_rbrace, Hb1r.
Qed.

(** The name of the array at the start of the columns of an array. *)
Lemma basename_of_columns col j cells rest :
  cells <> [] -> Forall (fun c => not_eq c = true) col ->
  basename_of (columns_text col j cells ++ rest) = col ++ str_of_nat j.
Proof.
  intros Hcells Hcol. destruct (columns_text_head col j cells Hcells) as [r ->].
  rewrite <- app_assoc. change (("="%char :: r) ++ rest) with ("="%char :: r ++ rest).
  apply basename_of_eq. apply Forall_app. split; [exact Hcol|].
  apply Forall_forall. intros c Hc. apply list_elem_of_In in Hc.
  unfold not_eq, except. apply negb_true_iff, Ascii.eqb_neq. intros ->.
  exact (str_of_nat_no "=" j eq_refl Hc).
Qed.

(** One turn of the loop keeps the names of the arrays without ["{"] and
    removes a ["{"]. *)
Lemma explode_step_names_plain string widths string' :
  names_plain string ->
  explode_step string widths = Ret (Some string') ->
  names_plain string' /\ count "{" string' < count "{" string.
Proof.
  unfold explode_step. intros Hinv.
  destruct (search pat_explode string) as [m|] eqn:Hsearch; [|discriminate].
  destruct (exploded_of (group0 m) widths) as [exploded|] eqn:Hexp; [|discriminate].
  cbn [mbind res_bind]. intros [= <-].
  pose proof (pat_explode_leftmost _ _ Hsearch) as Hlast.
  apply search_inv in Hsearch as (Hstring & Hmatch & Hleft).
  destruct (pat_explode_inv _ _ _ Hmatch) as (A & B & HT & HA & HAs & HB & HBr).
  assert (HT0 : group0 m = (A ++ py "={" ++ B) ++ ["}"%char]).
  { apply (app_inv_tail (after m)). rewrite HT, <- !app_assoc. reflexivity. }
  apply exploded_of_inv in Hexp as (mb & mv & width & Hmb & Hmv & _ & ->).
  apply pat_basename_inv in Hmb as (r1 & Hcol & Hcolne & Hcoleq).
  apply pat_vals_inv in Hmv as (x0 & y0 & Hvals & Hvne & _).
  set (col := g1 mb) in *. set (vals_str := g1 mv) in *.
  assert (Hnobrace : ~ In "{"%char col).
  { specialize (Hinv (before m) (group0 m ++ after m) Hstring Hlast (mk_is_Some _ _ Hmatch)).
    rewrite Hcol, <- !app_assoc in Hinv.
    change (py "=" ++ r1 ++ after m) with ("="%char :: r1 ++ after m) in Hinv.
    rewrite basename_of_eq in Hinv by exact Hcoleq. exact Hinv. }
  assert (Hnospace : ~ In " "%char col).
  { assert (Heq : col ++ "="%char :: r1 = A ++ "="%char :: "{"%char :: B ++ ["}"%char]).
    { change (col ++ "="%char :: r1) with (col ++ py "=" ++ r1). rewrite <- Hcol, HT0.
      rewrite <- !app_assoc. reflexivity. }
    apply prefix_before in Heq as (r & HAr & _).
    - intros Hin. apply (not_space_no_space _ HAs). rewrite HAr. apply in_app_iff. auto.
    - intros Hin. rewrite Forall_forall in Hcoleq.
      apply list_elem_of_In, Hcoleq in Hin. discriminate Hin. }
  assert (Hcount : count "{" (drop_last (exploded_body col (split " " vals_str) width))
                   = count "{" vals_str).
  { destruct (exploded_body_snoc col (split " " vals_str) width (split_nonempty _ _))
      as [b Hb].
    pose proof (count_exploded_body col (split " " vals_str) width Hnobrace) as Hc.
    rewrite Hb in Hc |- *. rewrite drop_last_snoc. rewrite count_app in Hc.
    rewrite count_split in Hc by discriminate.
    change (count "{" [" "%char]) with 0 in Hc. lia. }
  split.
  - rewrite exploded_body_padded, explode_vals_columns, drop_last_snoc
      by apply padded_nonempty.
    set (cells := padded (split " " vals_str) width).
    assert (Hcells : cells <> []) by apply padded_nonempty.
    assert (Hplain : forall j, ~ In "{"%char (col ++ str_of_nat j)).
    { intros j Hin. apply in_app_iff in Hin as [Hin|Hin]; [tauto|].
      exact (str_of_nat_no_brace j Hin). }
    intros x' z' Heq Hlx' Hmz'.
    apply app_eq_app in Heq as [l [[Hx Hz]|[Hx Hz]]].
    + destruct l as [|c l].
      * rewrite Hz. simpl. rewrite basename_of_columns by assumption. apply Hplain.
      * exfalso. specialize (Hleft x' (c :: l) Hx ltac:(discriminate)).
        rewrite Hx, last_behind in Hlast. rewrite Hz in Hmz'.
        apply (match_before_token _ _ (A ++ py "={" ++ B)) in Hmz';
          [|discriminate|exact Hlast].
        rewrite <- HT0, Hleft in Hmz'. destruct Hmz' as [r Hr]. discriminate Hr.
    + destruct l as [|c l].
      * simpl in Hz. rewrite <- Hz. rewrite basename_of_columns by assumption. apply Hplain.
      * rewrite Hx, last_behind in Hlx'.
        apply app_eq_app in Hz as [l2 [[HE Hz]|[HE Hz]]].
        -- destruct (columns_text_word_start col cells 0 (c :: l) l2 Hnospace
                       (padded_no_space _ _) HE ltac:(discriminate) Hlx')
             as (j & cells' & Hcells' & ->).
           rewrite Hz, basename_of_columns by assumption. apply Hplain.
        -- destruct l2 as [|c2 l2].
           ++ exfalso.
              assert (HE' : columns_text col 0 cells = (c :: l) ++ []).
              { rewrite app_nil_r in HE |- *. symmetry. exact HE. }
              destruct (columns_text_word_start col cells 0 (c :: l) [] Hnospace
                          (padded_no_space _ _) HE' ltac:(discriminate) Hlx')
                as (j & cells' & Hcells' & He).
              destruct (columns_text_head col j cells' Hcells') as [r Hr].
              rewrite Hr in He. destruct (col ++ str_of_nat j); discriminate He.
           ++ rewrite HE, last_behind in Hlx'.
              apply (Hinv (before m ++ group0 m ++ c2 :: l2) z').
              ** rewrite Hstring, Hz, <- !app_assoc. reflexivity.
              ** rewrite !app_assoc, last_behind. exact Hlx'.
              ** exact Hmz'.
  - rewrite Hstring, !count_app, Hcount. rewrite Hvals, !count_app.
    change (count "{" (py "{")) with 1. lia.
Qed.

Lemma has_brace_true s : ~ In "{"%char s -> has_brace s = false.
Proof.
  intros Hnot. unfold has_brace. destruct (existsb (Ascii.eqb "{") s) eqn:H; [|reflexivity].
  apply existsb_exists in H as (c & Hin & Hc). apply Ascii.eqb_eq in Hc. subst c. tauto.
Qed.

(** The check of the names finds every name with a ["{"]. *)
Lemma names_plain_from_complete s : forall at_start,
  (forall x z, s = x ++ z -> (x = [] -> at_start = true) ->
     List.last x " "%char = " "%char ->
     is_Some (match_here pat_explode [] [] z) -> ~ In "{"%char (basename_of z)) ->
  names_plain_from at_start s = true.
Proof.
  induction s as [|c s IH]; intros at_start H; [reflexivity|].
  cbn [names_plain_from]. apply andb_true_iff. split.
  - destruct at_start; [|reflexivity]. unfold plain_name_at.
    destruct (match_here pat_explode [] [] (c :: s)) as [r|] eqn:Hm; [|reflexivity].
    apply negb_true_iff, has_brace_true.
    apply (H [] (c :: s)); auto.
  - apply IH. intros x z Heq Hstart Hlast Hmatch.
    apply (H (c :: x) z); [rewrite Heq; reflexivity|discriminate| |exact Hmatch].
    destruct x as [|c' x]; [|exact Hlast].
    simpl. apply Ascii.eqb_eq, Hstart. reflexivity.
Qed.

Lemma array_names_plain_iff s : array_names_plain s = true <-> names_plain s.
Proof.
  split; [apply array_names_plain_sound|].
  intros H. apply names_plain_from_complete. intros x z Heq _. apply H, Heq.
Qed.

(** Names of letters, digits and ["_"] have no ["{"]. *)
Lemma names_alphanumeric_plain s : names_alphanumeric s -> names_plain s.
Proof.
  intros Hs x z Heq _ [[gs rest] Hm].
  apply pat_explode_inv in Hm as (A & B & Hz & HA & HAs & HB & HBr).
  specialize (Hs x A B rest ltac:(rewrite Heq, Hz; reflexivity) HA HAs HB HBr).
  rewrite Hz. change (A ++ py "={" ++ B ++ py "}" ++ rest)
    with (A ++ "="%char :: "{"%char :: B ++ py "}" ++ rest).
  rewrite basename_of_eq.
  - intros Hin. rewrite Forall_forall in Hs. apply list_elem_of_In, Hs in Hin. discriminate Hin.
  - eapply Forall_impl; [exact Hs|]. intros c Hc.
    apply basename_char_inv, word_basename, Hc.
Qed.

Lemma after_turns_names_plain widths n : forall s t,
  names_plain s -> after_turns n s widths = Some t -> names_plain t.
Proof.
  induction n as [|n IH]; intros s t Hs; simpl.
  - intros [= <-]. exact Hs.
  - destruct (explode_step s widths) as [[s'|]|e] eqn:Hstep; try discriminate.
    apply IH. eapply explode_step_names_plain; eauto.
Qed.

Lemma explode_ends_names_plain widths fuel : forall s,
  names_plain s -> count "{" s < fuel ->
  exists r, trace_parser_explode_array fuel s widths = Some r.
Proof.
  induction fuel as [|fuel IH]; intros s Hs Hfuel; [lia|].
  simpl. destruct (explode_step s widths) as [[s'|]|e] eqn:Hstep; eauto.
  destruct (explode_step_names_plain _ _ _ Hs Hstep) as [Hs' Hlt].
  apply IH; [exact Hs'|lia].
Qed.

(** The loop ends on every string whose array names are made of letters,
    digits and ["_"]. *)
Corollary explode_ends_alphanumeric widths s fuel :
  names_alphanumeric s -> count "{" s < fuel ->
  exists r, trace_parser_explode_array fuel s widths = Some r.
Proof. intros Hs. apply explode_ends_names_plain, names_alphanumeric_plain, Hs. Qed.

End ExplodeTerminates.

(** C10. On a string whose arrays have names without ["{"], as names of
    letters, digits and ["_"] are, every turn of the loop of
    [trace_parser_explode_array] lowers the number of ["{"], and the loop
    ends, with a string or an exception, within one turn more than the
    string has ["{"]. *)
Theorem explode_loop_terminates string widths :
  array_names_plain string = true ->
  (forall n t t', after_turns n string widths = Some t ->
     explode_step t widths = Ret (Some t') -> count "{" t' < count "{" t)
  /\ (forall fuel, count "{" string < fuel ->
        exists r, trace_parser_explode_array fuel string widths = Some r).
Proof.
  intros Hcheck. apply array_names_plain_sound in Hcheck. split.
  - intros n t t' Hturns Hstep.
    eapply explode_step_names_plain; [|exact Hstep].
    eapply after_turns_names_plain; eauto.
  - intros fuel. apply explode_ends_names_plain, Hcheck.
Qed.

Lemma explode_loop_terminates_example :
  (forall n t t',
      after_turns n (py "a=3 load={1 1 2 2} x={7} z=1") (DefaultDict ∅) = Some t ->
      explode_step t (DefaultDict ∅) = Ret (Some t') -> count "{" t' < count "{" t)
  /\ (forall fuel, count "{" (py "a=3 load={1 1 2 2} x={7} z=1") < fuel ->
        exists r, trace_parser_explode_array fuel (py "a=3 load={1 1 2 2} x={7} z=1")
                    (DefaultDict ∅) = Some r).
Proof.
  apply (explode_loop_terminates (py "a=3 load={1 1 2 2} x={7} z=1") (DefaultDict ∅)).
  vm_compute. reflexivity.
Defined.

(** With names that have a ["{"] the loop can go on for ever: on [{}={ {}]
    every turn gives a string that matches again. *)
Example explode_runs_on :
  array_names_plain (py "{}={ {}") = false
  /\ after_turns 3 (py "{}={ {}") (DefaultDict ∅) = Some (py "{}000=}00=}0=}={ {}001={01={1={")
  /\ trace_parser_explode_array 50 (py "{}={ {}") (DefaultDict ∅) = None.
Proof. repeat split; vm_compute; reflexivity. Qed.

(* ------------------------------------------------------------------------- *)
(** * [get_trace_array_lengths] *)

Section PrescanPattern.
Import Re ReFacts.

Ltac invert_matches :=
  repeat match goal with
    | H : matches (_ :: _) _ _ _ _ |- _ => inversion H; clear H; subst
    | H : matches [] _ _ _ _ |- _ => inversion H; clear H; subst
    end.

(** A match of [([A-Za-z0-9_]+)={([^}]+)}] has the shape [N={B}] and the
    groups [N] and [B]. *)
Lemma pat_array_inv s gs rest :
  match_here pat_array [] [] s = Some (gs, rest) ->
  exists N B,
    s = N ++ py "={" ++ B ++ py "}" ++ rest /\ gs = [N; B]
    /\ N <> [] /\ Forall (fun c => word c = true) N
    /\ B <> [] /\ Forall (fun c => not_rbrace c = true) B.
Proof.
  intros H. apply match_here_sound in H. unfold pat_array in H.
  invert_matches. cbn [rev app].
  match goal with
  | |- context [take ?n (?a ++ "="%char :: "{"%char :: ?b ++ ?r)] =>
      replace (take n (a ++ "="%char :: "{"%char :: b ++ r)) with a
        by (symmetry; apply take_group; simpl; reflexivity);
      replace (take (length (b ++ r) - S (length rest)) (b ++ r)) with b
        by (symmetry; apply take_group; reflexivity)
  end.
  eexists _, _. repeat split; eauto.
Qed.

Lemma pat_array_complete N B rest :
  N <> [] -> Forall (fun c => word c = true) N ->
  B <> [] -> Forall (fun c => not_rbrace c = true) B ->
  is_Some (match_here pat_array [] [] (N ++ py "={" ++ B ++ py "}" ++ rest)).
Proof.
  intros HN HN' HB HB'.
  eapply (match_here_complete _ _ _ _ (_, rest)).
  unfold pat_array. repeat (econstructor; eauto).
Qed.

(** On a token the pattern matches the token, whatever follows. *)
Lemma pat_array_token name elems post :
  name <> [] -> Forall (fun c => word c = true) name ->
  elems <> [] -> Forall (fun c => not_rbrace c = true) elems ->
  match_here pat_array [] [] (name ++ py "={" ++ elems ++ py "}" ++ post)
  = Some ([name; elems], post).
Proof.
  intros Hname Hnamec Helems Helemsc.
  change (name ++ py "={" ++ elems ++ py "}" ++ post)
    with (name ++ "="%char :: "{"%char :: elems ++ "}"%char :: post).
  unfold pat_array. cbn [match_here].
  rewrite span_app_stop by (exact Hnamec || reflexivity).
  apply (backtrack_first _ _ _ (length name)).
  - destruct name; [congruence|simpl; lia].
  - rewrite drop_app_length. cbn [match_here].
    rewrite !Ascii.eqb_refl.
    rewrite span_app_stop by (exact Helemsc || reflexivity).
    apply (backtrack_first _ _ _ (length elems)).
    + destruct elems; [congruence|simpl; lia].
    + rewrite drop_app_length, Ascii.eqb_refl.
      rewrite !take_group by reflexivity. reflexivity.
    + intros i Hi. lia.
  - intros i Hi. lia.
Qed.

End PrescanPattern.

Section Prescan.
Import Re ReFacts.

Lemma record_length_insert (ret : gmap str nat) name len :
  0 < len ->
  record_length ret name len = <[name := Nat.max (default 0 (ret !! name)) len]> ret.
Proof.
  intros Hlen. unfold record_length, defaultdict_get.
  destruct (ret !! name) as [v|] eqn:Hv; simpl.
  - destruct (Nat.ltb_spec v len).
    + rewrite Nat.max_r by lia. reflexivity.
    + rewrite Nat.max_l by lia. symmetry. apply insert_id, Hv.
  - destruct (Nat.ltb_spec 0 len); [|lia].
    rewrite insert_insert_eq. reflexivity.
Qed.

Lemma split_length_pos sep s : 0 < length (split sep s).
Proof. pose proof (split_nonempty sep s). destruct (split sep s); [congruence|simpl; lia]. Qed.

(** The first occurrence of a character cuts a string in one way only. *)
Lemma first_occurrence (A A' u u' : str) c :
  ~ In c A -> ~ In c A' -> A ++ c :: u = A' ++ c :: u' -> A = A' /\ u = u'.
Proof.
  intros HA HA' Heq. apply prefix_before in Heq as (r & -> & Hr); [|exact HA].
  destruct r as [|c0 r]; simpl in Hr.
  - injection Hr as <-. rewrite app_nil_r. auto.
  - injection Hr as <- _. exfalso. apply HA', in_app_iff. right. left. reflexivity.
Qed.

Lemma word_not_in c N : word c = false -> Forall (fun x => word x = true) N -> ~ In c N.
Proof.
  intros Hc HN Hin. rewrite Forall_forall in HN. apply list_elem_of_In, HN in Hin. congruence.
Qed.

Lemma not_rbrace_not_in B : Forall (fun x => not_rbrace x = true) B -> ~ In "}"%char B.
Proof.
  intros HB Hin. rewrite Forall_forall in HB. apply list_elem_of_In, HB in Hin. discriminate Hin.
Qed.

Lemma braces_closed_suffix x l : braces_closed (x ++ l) -> braces_closed l.
Proof.
  intros H a b ->. apply (H (x ++ a) b). rewrite <- app_assoc. reflexivity.
Qed.

(** A match of the array pattern that starts before a token, in a text
    where no array is left open, ends before the token. *)
Lemma earlier_match_ends_before N B rest l0 c name tail :
  N ++ py "={" ++ B ++ py "}" ++ rest = (l0 ++ [c]) ++ name ++ tail ->
  Forall (fun x => word x = true) N -> word c = false ->
  Forall (fun x => not_rbrace x = true) B ->
  name <> [] -> Forall (fun x => word x = true) name ->
  braces_closed (l0 ++ [c]) ->
  exists z, l0 ++ [c] = N ++ py "={" ++ B ++ py "}" ++ z /\ rest = z ++ name ++ tail.
Proof.
  intros Heq HN Hc HB Hname Hnamec Hclosed.
  rewrite <- app_assoc in Heq. simpl in Heq.
  apply prefix_before in Heq as (r & -> & Hr); [|apply word_not_in; assumption].
  destruct r as [|c1 [|c2 r]]; simpl in Hr.
  - exfalso. injection Hr as <- Hr. destruct name as [|n0 name]; [congruence|].
    simpl in Hr. injection Hr as <- _. inversion Hnamec as [|? ? Hn0 _]. discriminate Hn0.
  - exfalso. injection Hr as <- <- _.
    specialize (Hclosed (N ++ ["="%char]) []). simpl in Hclosed. apply Hclosed.
    rewrite <- !app_assoc. reflexivity.
  - injection Hr as <- <- Hr.
    assert (Hin : In "}"%char (r ++ [c])).
    { apply (Hclosed (N ++ ["="%char]) (r ++ [c])). rewrite <- !app_assoc. reflexivity. }
    apply list_elem_of_In, list_elem_of_split_l in Hin as (b1 & b2 & Hb & Hb1).
    rewrite list_elem_of_In in Hb1.
    assert (Hr' : B ++ "}"%char :: rest = b1 ++ "}"%char :: (b2 ++ name ++ tail)).
    { rewrite Hr. change (r ++ c :: name ++ tail) with (r ++ [c] ++ name ++ tail).
      rewrite app_assoc, Hb, <- app_assoc. reflexivity. }
    apply first_occurrence in Hr' as [-> ->]; [|apply not_rbrace_not_in, HB|exact Hb1].
    exists b2. split; [|reflexivity].
    rewrite <- app_assoc. simpl. rewrite Hb. reflexivity.
Qed.

(** One turn of the loop over a line: the match is an array token that
    starts a run of name characters, and its length is recorded. *)
Lemma scan_line_turn fuel rem ret m :
  search pat_array rem = Some m ->
  exists N B,
    rem = before m ++ N ++ py "={" ++ B ++ py "}" ++ after m
    /\ N <> [] /\ Forall (fun c => word c = true) N
    /\ B <> [] /\ Forall (fun c => not_rbrace c = true) B
    /\ (before m = [] \/ exists b c, before m = b ++ [c] /\ word c = false)
    /\ scan_line (S fuel) rem ret
       = scan_line fuel (after m)
           (<[N := Nat.max (default 0 (ret !! N)) (length (split " " B))]> ret).
Proof.
  intros Hsearch. cbn [scan_line]. rewrite Hsearch.
  apply search_inv in Hsearch as (Hrem & Hmatch & Hleft).
  apply pat_array_inv in Hmatch as (N & B & HG & Hgs & HN & HNw & HB & HBr).
  exists N, B. rewrite Hgs. cbn [nth].
  rewrite record_length_insert by apply split_length_pos.
  repeat split; auto.
  - rewrite Hrem, HG. reflexivity.
  - remember (before m) as pre eqn:Hpre.
    destruct pre as [|c b _] using rev_ind; [left; reflexivity|right].
    exists b, c. split; [reflexivity|].
    destruct (word c) eqn:Hc; [exfalso|reflexivity].
    specialize (Hleft b [c] eq_refl ltac:(discriminate)).
    rewrite HG in Hleft.
    destruct (pat_array_complete (c :: N) B (after m)) as [r Hr]; auto.
    simpl in Hr, Hleft. congruence.
Qed.

Lemma scan_line_no_match fuel rem ret :
  search pat_array rem = None -> scan_line fuel rem ret = ret.
Proof. intros H. destruct fuel; simpl; [reflexivity|]. rewrite H. reflexivity. Qed.

Section Witnessed.

(** [P name n]: the length [n] is the one of an array [name] in the line. *)
Variable P : str -> nat -> Prop.
Variable line : str.
Hypothesis P_occurs : forall pre name elems post,
  occurs_at pre name elems post line -> P name (length (split " " elems)).

(** Every length that the loop records is the one of a token of the line. *)
Lemma scan_line_witnessed fuel : forall consumed rem (ret : gmap str nat),
  line = consumed ++ rem ->
  (consumed = [] \/ exists b c, consumed = b ++ [c] /\ word c = false) ->
  (forall name n, ret !! name = Some n -> P name n) ->
  forall name n, scan_line fuel rem ret !! name = Some n -> P name n.
Proof.
  induction fuel as [|fuel IH]; intros consumed rem ret Hline Hcons Hret; [exact Hret|].
  destruct (search pat_array rem) as [m|] eqn:Hsearch.
  2:{ rewrite scan_line_no_match by exact Hsearch. exact Hret. }
  destruct (scan_line_turn fuel rem ret m Hsearch)
    as (N & B & Hrem & HN & HNw & HB & HBr & Hbefore & ->).
  apply (IH (consumed ++ before m ++ N ++ py "={" ++ B ++ py "}")).
  - rewrite Hline, Hrem, <- !app_assoc. reflexivity.
  - right. exists (consumed ++ before m ++ N ++ py "={" ++ B), "}"%char.
    split; [rewrite <- !app_assoc; reflexivity|reflexivity].
  - intros name n. destruct (decide (name = N)) as [->|Hne].
    + rewrite lookup_insert_eq. intros [= <-].
      destruct (Nat.max_spec (default 0 (ret !! N)) (length (split " " B)))
        as [[_ ->]|[Hle ->]].
      * apply (P_occurs (consumed ++ before m) N B (after m)).
        unfold occurs_at. repeat split; auto.
        -- rewrite Hline, Hrem, <- !app_assoc. reflexivity.
        -- destruct Hbefore as [->|(b & c & -> & Hc)].
           ++ rewrite app_nil_r. exact Hcons.
           ++ right. exists (consumed ++ b), c. rewrite <- app_assoc. auto.
      * destruct (ret !! N) as [v|] eqn:Hv; simpl in *.
        -- apply Hret, Hv.
        -- pose proof (split_length_pos " " B). lia.
    + rewrite lookup_insert_ne by (intros Heq; apply Hne; symmetry; exact Heq). apply Hret.
Qed.

End Witnessed.

(** The recorded lengths only grow. *)
Lemma scan_line_mono fuel : forall rem (ret : gmap str nat) name n,
  ret !! name = Some n ->
  exists n', scan_line fuel rem ret !! name = Some n' /\ n <= n'.
Proof.
  induction fuel as [|fuel IH]; intros rem ret name n Hn; [simpl; eauto|].
  destruct (search pat_array rem) as [m|] eqn:Hsearch.
  2:{ rewrite scan_line_no_match by exact Hsearch. eauto. }
  destruct (scan_line_turn fuel rem ret m Hsearch) as (N & B & _ & _ & _ & _ & _ & _ & ->).
  destruct (decide (name = N)) as [->|Hne].
  - edestruct (IH (after m)) as (n' & Hn' & Hle); [apply lookup_insert_eq|].
    exists n'. split; [exact Hn'|]. rewrite Hn in Hle. simpl in Hle. lia.
  - edestruct (IH (after m)) as (n' & Hn' & Hle);
      [rewrite lookup_insert_ne by (intros Heq; apply Hne; symmetry; exact Heq); exact Hn|]. eauto.
Qed.

Lemma search_length p s m :
  search p s = Some m -> length s = length (before m) + length (group0 m) + length (after m).
Proof.
  intros H. apply search_inv in H as (Hs & _). rewrite Hs at 1.
  rewrite !length_app. lia.
Qed.

(** The loop over a line records every token before which no array is left
    open. *)
Lemma scan_line_records fuel : forall rem (ret : gmap str nat) pre name elems post,
  length rem <= fuel ->
  rem = pre ++ name ++ py "={" ++ elems ++ py "}" ++ post ->
  name <> [] -> Forall (fun c => word c = true) name ->
  (pre = [] \/ exists b c, pre = b ++ [c] /\ word c = false) ->
  elems <> [] -> Forall (fun c => not_rbrace c = true) elems ->
  braces_closed pre ->
  exists n, scan_line fuel rem ret !! name = Some n /\ length (split " " elems) <= n.
Proof.
  induction fuel as [|fuel IH];
    intros rem ret pre name elems post Hfuel Hrem Hname Hnamec Hpre Helems Helemsc Hclosed.
  { exfalso. rewrite Hrem, !length_app in Hfuel. destruct name; [congruence|simpl in Hfuel; lia]. }
  pose proof (pat_array_token name elems post Hname Hnamec Helems Helemsc) as Htoken.
  destruct (search pat_array rem) as [m|] eqn:Hsearch.
  2:{ exfalso. destruct (search_is_Some_app pat_array pre _ (mk_is_Some _ _ Htoken)) as [m Hm].
      rewrite <- Hrem in Hm. congruence. }
  pose proof (search_length _ _ _ Hsearch) as Hlen.
  destruct (scan_line_turn fuel rem ret m Hsearch)
    as (N & B & Hrem' & HN & HNw & HB & HBr & _ & ->).
  assert (Hg0 : 0 < length (group0 m)).
  { apply search_inv in Hsearch as (Hs & _). rewrite Hs in Hrem'.
    apply app_inv_head in Hrem'.
    assert (Hl : length (group0 m ++ after m) = length (N ++ py "={" ++ B ++ py "}" ++ after m))
      by (rewrite Hrem'; reflexivity).
    rewrite !length_app in Hl. simpl in Hl. lia. }
  pose proof (proj2 (proj2 (search_inv _ _ _ Hsearch))) as Hleft.
  pose proof (proj1 (proj2 (search_inv _ _ _ Hsearch))) as Hmatch.
  assert (Hsame : before m = pre ->
            exists n, scan_line fuel (after m)
                        (<[N := Nat.max (default 0 (ret !! N)) (length (split " " B))]> ret)
                      !! name = Some n /\ length (split " " elems) <= n).
  { intros Hb. rewrite Hb in Hrem'. rewrite Hrem in Hrem'. apply app_inv_head in Hrem'.
    apply search_inv in Hsearch as (Hs & _). rewrite Hs, Hb in Hrem.
    apply app_inv_head in Hrem. rewrite Hrem, Htoken in Hmatch.
    injection Hmatch as Hgs Hafter.
    rewrite <- Hafter in Hrem'. 
    pose proof (pat_array_token N B post HN HNw HB HBr) as Htoken'.
    rewrite <- Hrem', Htoken in Htoken'. injection Htoken' as <- <-.
    edestruct (scan_line_mono fuel (after m)) as (n' & Hn' & Hle);
      [apply lookup_insert_eq|].
    exists n'. split; [exact Hn'|]. lia. }
  rewrite Hrem in Hrem'.
  apply app_eq_app in Hrem' as [l [[Hp Hg]|[Hb Ht]]].
  - (* the match starts before the token *)
    destruct l as [|c0 l0 _] using rev_ind.
    + apply Hsame. rewrite Hp, app_nil_r. reflexivity.
    + assert (Hc : word c0 = false).
      { destruct Hpre as [->|(b & c & Hpre & Hc)]; [destruct (before m), l0; discriminate|].
        rewrite Hp, app_assoc in Hpre. apply app_inj_tail in Hpre as [_ ->]. exact Hc. }
      destruct (earlier_match_ends_before N B (after m) l0 c0 name
                  (py "={" ++ elems ++ py "}" ++ post)) as (z & Hz & Hafter); auto.
      { rewrite Hp in Hclosed. eapply braces_closed_suffix, Hclosed. }
      apply (IH (after m) _ z name elems post); auto.
      * lia.
      * destruct z as [|c z0 _] using rev_ind; [left; reflexivity|right].
        exists z0, c. split; [reflexivity|].
        change (py "}" ++ z0 ++ [c]) with (("}"%char :: z0) ++ [c]) in Hz.
        rewrite !app_assoc in Hz. apply app_inj_tail in Hz as [_ ->]. exact Hc.
      * rewrite Hp, Hz in Hclosed. rewrite !app_assoc in Hclosed.
        eapply braces_closed_suffix, Hclosed.
  - (* the match starts at the token or behind it *)
    destruct l as [|c l].
    + apply Hsame. rewrite Hb, app_nil_r. reflexivity.
    + exfalso. specialize (Hleft pre (c :: l) Hb ltac:(discriminate)).
      apply search_inv in Hsearch as (Hs & _).
      rewrite Hs, Hb, <- app_assoc in Hrem. apply app_inv_head in Hrem.
      rewrite Hrem, Htoken in Hleft. discriminate Hleft.
Qed.

Lemma scan_lines_witnessed marker fin : forall todo (ret widths : gmap str nat),
  (forall line, In line todo -> In line fin) ->
  (forall name n, ret !! name = Some n -> length_witnessed marker fin name n) ->
  scan_lines marker todo ret = Some widths ->
  forall name n, widths !! name = Some n -> length_witnessed marker fin name n.
Proof.
  induction todo as [|line todo IH]; intros ret widths Hsub Hret; simpl.
  - intros [= <-]. exact Hret.
  - destruct (line_selected marker line) as [[|]|] eqn:Hsel; [| |discriminate].
    + apply IH; [intros l Hl; apply Hsub; right; exact Hl|].
      apply (scan_line_witnessed (length_witnessed marker fin) line) with (consumed := []);
        [|reflexivity|left; reflexivity|exact Hret].
      intros pre name elems post Hocc. exists line, pre, elems, post.
      split; [split; [apply Hsub; left; reflexivity|exact Hsel]|]. split; [exact Hocc|reflexivity].
    + apply IH; [intros l Hl; apply Hsub; right; exact Hl|exact Hret].
Qed.

Lemma scan_lines_mono marker : forall todo (ret widths : gmap str nat) name n,
  scan_lines marker todo ret = Some widths ->
  ret !! name = Some n ->
  exists n', widths !! name = Some n' /\ n <= n'.
Proof.
  induction todo as [|line todo IH]; intros ret widths name n; simpl.
  - intros [= <-] Hn. eauto.
  - destruct (line_selected marker line) as [[|]|]; [| |discriminate].
    + intros Hscan Hn.
      destruct (scan_line_mono (length line) line ret name n Hn) as (n1 & Hn1 & Hle1).
      destruct (IH _ _ _ _ Hscan Hn1) as (n2 & Hn2 & Hle2). exists n2. split; [exact Hn2|lia].
    + apply IH.
Qed.

Lemma scan_lines_records marker : forall todo (ret widths : gmap str nat) line pre name elems post,
  scan_lines marker todo ret = Some widths ->
  In line todo -> line_selected marker line = Some true ->
  occurs_at pre name elems post line -> braces_closed pre ->
  exists n, widths !! name = Some n /\ length (split " " elems) <= n.
Proof.
  induction todo as [|l todo IH]; intros ret widths line pre name elems post; simpl; [tauto|].
  intros Hscan [->|Hin] Hsel Hocc Hclosed.
  - rewrite Hsel in Hscan.
    destruct Hocc as (Hline & Hname & Hnamec & Hpre & Helems & Helemsc).
    destruct (scan_line_records (length line) line ret pre name elems post)
      as (n1 & Hn1 & Hle1); auto.
    destruct (scan_lines_mono _ _ _ _ _ _ Hscan Hn1) as (n2 & Hn2 & Hle2).
    exists n2. split; [exact Hn2|lia].
  - destruct (line_selected marker l) as [[|]|]; [| |discriminate]; eauto.
Qed.

End Prescan.

(** C2 (amended). The mapping returned by [get_trace_array_lengths] has,
    under a name, the number of pieces that single spaces cut the elements
    of an array token [name={elements}] of a selected line into, and a name
    without such a token is absent; the number is the largest one among the
    tokens of the name in the selected lines before which no array is left
    open. *)
Theorem array_lengths_are_maxima marker fin widths :
  get_trace_array_lengths marker fin = Some widths ->
  (forall name n, widths !! name = Some n -> length_witnessed marker fin name n)
  /\ (forall line pre name elements post,
        selected_line marker fin line ->
        occurs_at pre name elements post line -> braces_closed pre ->
        exists n, widths !! name = Some n /\ length (split " " elements) <= n).
Proof.
  unfold get_trace_array_lengths. intros Hscan. split.
  - apply (scan_lines_witnessed marker fin fin ∅ widths); auto.
    intros name n Hn. rewrite lookup_empty in Hn. discriminate Hn.
  - intros line pre name elements post [Hin Hsel] Hocc Hclosed.
    eapply scan_lines_records; eauto.
Qed.

Lemma array_lengths_are_maxima_example :
  let fin := [py "1.0: power: a={1 2} b=3 c={4}
"; py "2.0: other: a={1 2 3 4}
"; py "3.0: power: a={1 2 3} b=3 c={}
"] in
  let widths : gmap str nat := {[ py "a" := 3; py "c" := 1 ]} in
  (forall name n, widths !! name = Some n -> length_witnessed (py "power:") fin name n)
  /\ (forall line pre name elements post,
        selected_line (py "power:") fin line ->
        occurs_at pre name elements post line -> braces_closed pre ->
        exists n, widths !! name = Some n /\ length (split " " elements) <= n).
Proof.
  intros fin widths. apply (array_lengths_are_maxima (py "power:") fin widths).
  vm_compute. reflexivity.
Defined.

(** C2 does not hold for elements separated by more than one space: the two
    tokens of [x={1  2}] are recorded as a length of three. *)
Lemma array_length_counts_single_spaces :
  whitespace_tokens false (py "1  2") = 2
  /\ get_trace_array_lengths (py "power:") [py "1.0: power: x={1  2}
"] = Some ({[ py "x" := 3 ]} : gmap str nat).
Proof. split; vm_compute; reflexivity. Qed.

(* ------------------------------------------------------------------------- *)
(** * The columns of an array and its width *)

Lemma braces_closed_plain pre : ~ In "{"%char pre -> braces_closed pre.
Proof.
  intros Hnot a b ->. exfalso. apply Hnot. rewrite in_app_iff. right. left. reflexivity.
Qed.

Lemma padded_length vals width :
  length vals <= width -> length (padded vals width) = width.
Proof. intros H. unfold padded. rewrite length_app, length_replicate. lia. Qed.

(** The first array token of a string that is handed to the exploder, when
    the token is one of a selected line: the width that
    [get_trace_array_lengths] returns for its name is at least the number of
    its elements, and one turn of the loop replaces the token by as many
    columns as the width, the elements, then zeros. *)
Lemma first_array_columns marker fin widths line pre name elements post :
  get_trace_array_lengths marker fin = Some widths ->
  selected_line marker fin line ->
  occurs_at pre name elements post line -> braces_closed pre ->
  Forall (fun c => element_char c = true) elements ->
  exists width,
    widths !! name = Some width
    /\ length (padded (split " " elements) width) = width
    /\ forall fuel before behind,
         List.last before " "%char = " "%char -> ~ In "{"%char before ->
         ~ In "{"%char (first_word behind) ->
         trace_parser_explode_array (S fuel)
           (before ++ (name ++ py "={" ++ elements ++ py "}") ++ behind)
           (DefaultDict widths)
         = prepend (before ++ columns_text name 0 (padded (split " " elements) width))
             (trace_parser_explode_array fuel behind (DefaultDict widths)).
Proof.
  intros Hwidths [Hin Hsel] Hocc Hclosed Helems.
  destruct (scan_lines_records _ _ _ _ _ _ _ _ _ Hwidths Hin Hsel Hocc Hclosed)
    as (width & Hwidth & Hle).
  exists width. split; [exact Hwidth|]. split; [apply padded_length, Hle|].
  destruct Hocc as (_ & Hname & Hnamec & _ & Hne & _).
  intros fuel before behind Hlast Hbefore Hbehind.
  apply explode_first_token; auto.
  - eapply Forall_impl; [exact Hnamec|]. intros c. apply word_basename.
  - unfold getitem, getitem_st, defaultdict_get. rewrite Hwidth. reflexivity.
Qed.

(** C3 does not hold on a line that has the array empty: with the width 2
    for [a], the second line gets no column for [a]. *)
Lemma empty_array_has_no_columns :
  let fin := [py "1.0: power: a={1 2} b=5
"; py "2.0: power: a={} b=6
"] in
  get_trace_array_lengths (py "power:") fin = Some ({[ py "a" := 2 ]} : gmap str nat)
  /\ parse_into_csv 2 (py "power:") fin []
     = Some (Ret (py "Time,a0,a1,b
1.0,1,2,5
2.0,6
")).
Proof. split; vm_compute; reflexivity. Qed.

(* ------------------------------------------------------------------------- *)
(** * Empty arrays *)

(** C4. An empty array followed by a space is removed from the payload, but
    one that ends the line is kept: it gets a column of the header and its
    text stands in the row. *)
Theorem last_empty_array_is_kept :
  payload (py "1.0: thermal_power_allocator: req_power={} freq=2") = Ret (py "freq=2")
  /\ payload (py "1.0: thermal_power_allocator: freq=2 req_power={}")
     = Ret (py "freq=2 req_power={}")
  /\ parse_into_csv 1 (py "thermal_power_allocator:")
       [py "1.0: thermal_power_allocator: freq=2 req_power={}
"] []
     = Some (Ret (py "Time,freq,req_power
1.0,2,req_power={}
")).
Proof. repeat split; vm_compute; reflexivity. Qed.
(* ------------------------------------------------------------------------- *)
(** * Construction and the data frame *)

Section Construction.

Variable read_csv : str -> res Pandas.DataFrame.
Variable trace_cmd_report : str -> res str.

Lemma parse_lines_none_selected fuel marker lengths fin st :
  Forall (fun line => line_selected marker line = Some false) fin ->
  parse_lines fuel marker lengths fin st = Some (Ret st).
Proof.
  induction 1 as [|line fin Hline _ IH]; simpl; [reflexivity|].
  rewrite Hline. exact IH.
Qed.

Lemma scan_lines_none_selected marker fin ret :
  Forall (fun line => line_selected marker line = Some false) fin ->
  scan_lines marker fin ret = Some ret.
Proof.
  induction 1 as [|line fin Hline _ IH]; simpl; [reflexivity|].
  rewrite Hline. exact IH.
Qed.

(** C7. When no line of [trace.txt] is selected by the marker, the
    construction raises nothing: [data_csv] stays empty and the data frame is
    the empty [pd.DataFrame()]. *)
Theorem init_zero_matching_lines fuel marker text dat runs :
  Forall (fun line => line_selected marker line = Some false) (readlines text) ->
  init read_csv trace_cmd_report fuel marker (mkWorld (Some text) dat runs)
  = (mkWorld (Some text) dat runs, Some (Ret (mkThermal marker [] Pandas.empty))).
Proof.
  intros Hnone. unfold init. cbn [trace_txt].
  unfold parse_into_csv, get_trace_array_lengths.
  rewrite (scan_lines_none_selected _ _ _ Hnone).
  rewrite (parse_lines_none_selected _ _ _ _ _ Hnone).
  reflexivity.
Qed.

(** C9. Without [trace.txt] and without [trace.dat] the construction raises
    [IOError] and leaves the world as it was; with a [trace.txt] the world is
    left as it was, [trace-cmd] is not run, and the outcome does not depend
    on what [trace-cmd] would have returned. *)
Theorem init_source_unavailable fuel marker runs :
  init read_csv trace_cmd_report fuel marker (mkWorld None None runs)
  = (mkWorld None None runs, Some (Raise IOError))
  /\ forall text dat (w := mkWorld (Some text) dat runs),
       fst (init read_csv trace_cmd_report fuel marker w) = w
       /\ forall other_cmd,
            init read_csv other_cmd fuel marker w
            = init read_csv trace_cmd_report fuel marker w.
Proof.
  split; [reflexivity|].
  intros text dat w. subst w. unfold init. cbn [trace_txt].
  split; [|reflexivity].
  destruct (parse_into_csv fuel marker (readlines text) []) as [[?|?]|]; reflexivity.
Qed.

End Construction.

(** C6. The line [100.0: thermal_temperature: id=0 temp=45000] with the
    marker [thermal_temperature:] gives the header [Time,id,temp] and the one
    row [100.0,0,45000]. *)
Theorem parse_single_temperature_line (fuel : nat) :
  parse_into_csv (S fuel) (py "thermal_temperature:")
    [py "100.0: thermal_temperature: id=0 temp=45000
"] []
  = Some (Ret (py "Time,id,temp
" ++ py "100.0,0,45000
")).
Proof. vm_compute. reflexivity. Qed.

(** C8 does not hold on the empty table: it has no [Time]. *)
Lemma normalize_time_empty_raises :
  normalize_time Pandas.empty 10%float = Raise KeyError.
Proof. vm_compute. reflexivity. Qed.

(** C8 (amended). On a table indexed by a [float64] [Time], as the parse
    builds it from at least one line, [normalize_time] gives the table whose
    [Time] values are the former ones minus [basetime], row by row in the
    same order, with the other columns as they were. *)
Theorem normalize_time_shifts_index (times : list float) cols basetime :
  py "Time" ∉ map fst cols ->
  normalize_time (Pandas.mkDF (Some (py "Time")) (Pandas.FloatCol times) cols) basetime
  = Ret (Pandas.mkDF (Some (py "Time"))
           (Pandas.FloatCol (map (fun t => PrimFloat.sub t basetime) times)) cols).
Proof.
  unfold normalize_time. generalize (py "Time"). intros key Hnot.
  unfold Pandas.reset_index, Pandas.has_column.
  cbn [Pandas.index_name Pandas.columns Pandas.index].
  rewrite bool_decide_eq_false_2 by exact Hnot.
  unfold Pandas.getitem, Pandas.set_index, Pandas.setitem.
  repeat (cbn [mbind res_bind Pandas.columns Pandas.lookup_col Pandas.series_sub
                 Pandas.store_col Pandas.remove_col Pandas.index_name Pandas.index];
          rewrite ?(decide_True (P := key = key)) by reflexivity).
  reflexivity.
Qed.

Lemma normalize_time_shifts_index_example :
  normalize_time
    (Pandas.mkDF (Some (py "Time")) (Pandas.FloatCol [10; 10.5; 11]%float)
       [(py "temp", Pandas.IntCol [45000; 45100; 45200]%Z)]) 10%float
  = Ret (Pandas.mkDF (Some (py "Time")) (Pandas.FloatCol [0; 0.5; 1]%float)
           [(py "temp", Pandas.IntCol [45000; 45100; 45200]%Z)]).
Proof.
  apply (normalize_time_shifts_index [10; 10.5; 11]%float
           [(py "temp", Pandas.IntCol [45000; 45100; 45200]%Z)] 10%float).
  vm_compute. intros H. apply list_elem_of_In in H. simpl in H. destruct H as [H|[]]. discriminate.
Defined.

Lemma init_zero_matching_lines_example :
  init (fun _ => Raise ValueError) (fun _ => Raise OSError) 0 (py "thermal_temperature:")
    (mkWorld (Some (py "1.0: other: a=1
")) None 0)
  = (mkWorld (Some (py "1.0: other: a=1
")) None 0,
     Some (Ret (mkThermal (py "thermal_temperature:") [] Pandas.empty))).
Proof.
  apply init_zero_matching_lines. vm_compute. repeat constructor.
Defined.
(* ------------------------------------------------------------------------- *)
(** * Runs of the model on concrete inputs *)

Example explode_docstring :
  trace_parser_explode_array 2 (py "load={1 2}") (Dict {[ py "load" := 4 ]})
  = Some (Ret (py "load0=1 load1=2 load2=0 load3=0")).
Proof. vm_compute. reflexivity. Qed.

Example explode_docstring_1 :
  trace_parser_explode_array 9 (py "a=3 load={1 1 2 2} x={7} z=1") (DefaultDict {[ py "x" := 2 ]})
  = Some (Ret (py "a=3 load0=1 load1=1 load2=2 load3=2 x0=7 x1=0 z=1")).
Proof. vm_compute. reflexivity. Qed.

Example explode_two_spaces :
  trace_parser_explode_array 9 (py "load={1  2}") (Dict {[ py "load" := 4 ]})
  = Some (Ret (py "load0=1 load1= load2=2 load3=0")).
Proof. vm_compute. reflexivity. Qed.

Example explode_diverges :
  trace_parser_explode_array 50 (py "{}={ {}") (DefaultDict ∅) = None.
Proof. vm_compute. reflexivity. Qed.

Example lengths_1 :
  get_trace_array_lengths (py "power:")
    [py "1.0: power: a={1 2} b=3 c={4}
"; py "2.0: other: a={1 2 3 4}
"; py "3.0: power: a={1 2 3} b=3 c={}
"]
  = Some ({[ py "a" := 3; py "c" := 1 ]} : gmap str nat).
Proof. vm_compute. reflexivity. Qed.

Example parse_example_1 :
  parse_into_csv 1 (py "thermal_temperature:")
    [py "100.0: thermal_temperature: id=0 temp=45000
"] []
  = Some (Ret (py "Time,id,temp
100.0,0,45000
")).
Proof. vm_compute. reflexivity. Qed.

Example parse_example_2 :
  parse_into_csv 5 (py "power:")
    [py "  1.0: power: a={1 2} b=3,5 c={4} d={} e=1
"; py "2.0: other: a={1 2 3 4}
"; py "3.25: power: a={1 2 3} b=3 c={} d={}
"] []
  = Some (Ret (py "Time,a0,a1,a2,b,c0,e
1.0,1,2,0,35,4,1
3.25,1,2,3,3,d={}
")).
Proof. vm_compute. reflexivity. Qed.


(** The least [int64] as a [float64], and a subtraction on an integer
    column. *)
Example float_of_least_int64 :
  Pandas.float_of_Z (- 2 ^ 63) = (-9223372036854775808)%float
  /\ Pandas.float_of_Z (-3) = (-3)%float
  /\ Pandas.series_sub (Pandas.IntCol [5; -3]%Z) 1.5%float
     = Ret (Pandas.FloatCol [3.5; -4.5]%float).
Proof. repeat split; vm_compute; reflexivity. Qed.

(* ------------------------------------------------------------------------- *)
(** * More on [trace_parser_explode_array] *)

Section ExplodeMore.
Import Re ReFacts.

Lemma search_nowhere p s :
  (forall x y, s = x ++ y -> match_here p [] [] y = None) -> search p s = None.
Proof.
  induction s as [|c s IH]; intros Hnone; cbn [search].
  - rewrite match_None; [reflexivity|]. apply (Hnone [] []). reflexivity.
  - rewrite match_None by (apply (Hnone [] (c :: s)); reflexivity).
    rewrite IH; [reflexivity|]. intros x y ->. apply (Hnone (c :: x) y). reflexivity.
Qed.

(** Without a ["{"] there is nothing to explode. *)
Lemma explode_step_plain string widths :
  ~ In "{"%char string -> explode_step string widths = Ret None.
Proof.
  intros Hnot. unfold explode_step. rewrite search_nowhere; [reflexivity|].
  intros x y ->.
  destruct (match_here pat_explode [] [] y) as [[gs rest]|] eqn:Hm; [|reflexivity].
  exfalso. apply pat_explode_inv in Hm as (A & B & -> & _).
  apply Hnot. rewrite !in_app_iff. simpl. tauto.
Qed.

(** The loop returns a string only when no array is left in it. *)
Lemma explode_result_done fuel : forall string widths string',
  trace_parser_explode_array fuel string widths = Some (Ret string') ->
  explode_step string' widths = Ret None.
Proof.
  induction fuel as [|fuel IH]; intros string widths string'; simpl; [discriminate|].
  destruct (explode_step string widths) as [[next|]|e] eqn:Hstep.
  - apply IH.
  - intros [= <-]. exact Hstep.
  - discriminate.
Qed.

(** With a [defaultdict] the only exception is the one of a failed match. *)
Lemma explode_defaultdict_raise fuel : forall string m e,
  trace_parser_explode_array fuel string (DefaultDict m) = Some (Raise e) ->
  e = AttributeError.
Proof.
  induction fuel as [|fuel IH]; intros string m e; simpl; [discriminate|].
  destruct (explode_step string (DefaultDict m)) as [[next|]|e'] eqn:Hstep.
  - apply IH.
  - discriminate.
  - intros [= <-]. unfold explode_step in Hstep.
    destruct (search pat_explode string) as [mt|]; [|discriminate].
    unfold exploded_of in Hstep.
    destruct (match_ pat_basename (group0 mt)); [|injection Hstep as <-; reflexivity].
    destruct (search pat_vals (group0 mt)); [|injection Hstep as <-; reflexivity].
    cbn [group1_of mbind res_bind] in Hstep.
    unfold getitem, getitem_st, defaultdict_get in Hstep.
    destruct (m !! g1 m0); discriminate Hstep.
Qed.

End ExplodeMore.

(** X1. A string without ["{"] is returned as it is, whatever the mapping:
    scalar fields pass through. *)
Theorem explode_plain_unchanged fuel string widths :
  ~ In "{"%char string ->
  trace_parser_explode_array (S fuel) string widths = Some (Ret string).
Proof.
  intros Hnot. simpl. rewrite explode_step_plain by exact Hnot. reflexivity.
Qed.

Lemma explode_plain_unchanged_example :
  trace_parser_explode_array 1 (py "id=0 temp=45000") (Dict ∅)
  = Some (Ret (py "id=0 temp=45000")).
Proof.
  apply explode_plain_unchanged. simpl. intuition discriminate.
Defined.

(** X2. What [trace_parser_explode_array] returns has no array left:
    exploding it again, with the same mapping, changes nothing. *)
Theorem explode_result_stable fuel string widths string' fuel' :
  trace_parser_explode_array fuel string widths = Some (Ret string') ->
  trace_parser_explode_array (S fuel') string' widths = Some (Ret string').
Proof.
  intros H. apply explode_result_done in H. simpl. rewrite H. reflexivity.
Qed.

Lemma explode_result_stable_example :
  trace_parser_explode_array 1 (py "a=3 load0=1 load1=2 load2=0") (DefaultDict {[ py "load" := 3 ]})
  = Some (Ret (py "a=3 load0=1 load1=2 load2=0")).
Proof.
  apply (explode_result_stable 2 (py "a=3 load={1 2}") (DefaultDict {[ py "load" := 3 ]})).
  vm_compute. reflexivity.
Defined.

(** X3. With a plain [dict] that has no entry for the name of an array
    token, [trace_parser_explode_array] raises [KeyError]. *)
Theorem explode_missing_key (pre name elems post : str) (m : gmap str nat) (fuel : nat) :
  name <> [] -> Forall (fun c => basename_char c = true) name ->
  elems <> [] -> Forall (fun c => element_char c = true) elems ->
  List.last pre " "%char = " "%char -> ~ In "{"%char pre ->
  ~ In "{"%char (first_word post) ->
  m !! name = None ->
  trace_parser_explode_array (S fuel)
    (pre ++ (name ++ py "={" ++ elems ++ py "}") ++ post) (Dict m)
  = Some (Raise KeyError).
Proof.
  intros Hname Hnamec Helems Helemsc Hlast Hpre Hpost Hm.
  destruct (Forall_basename _ Hnamec) as (_ & Hne & Hnb).
  destruct (Forall_element _ Helemsc) as (_ & Hdot & _).
  cbn [trace_parser_explode_array]. unfold explode_step.
  rewrite search_explode_token by assumption. cbn [Re.group0 Re.before Re.after].
  unfold exploded_of.
  rewrite (vals_of_token name elems Hnb Helems Hdot).
  change (name ++ py "={" ++ elems ++ py "}")
    with (name ++ "="%char :: ("{"%char :: elems ++ py "}")).
  rewrite (basename_of_token name _ Hname Hne).
  cbn [mbind res_bind]. unfold getitem, getitem_st. rewrite Hm. reflexivity.
Qed.

Lemma explode_missing_key_example :
  trace_parser_explode_array 1 (py "load={1 2}") (Dict {[ py "freq" := 4 ]})
  = Some (Raise KeyError).
Proof.
  apply (explode_missing_key [] (py "load") (py "1 2") [] {[ py "freq" := 4 ]} 0);
    try (vm_compute; repeat constructor; fail); try discriminate; simpl; tauto.
Defined.

(* ------------------------------------------------------------------------- *)
(** * The exceptions of [__parse_into_csv] *)

Lemma group1_of_raise m e : group1_of m = Raise e -> e = AttributeError.
Proof. destruct m; simpl; [discriminate|]. intros [= <-]. reflexivity. Qed.

Lemma payload_raise line e : payload line = Raise e -> e = AttributeError.
Proof.
  unfold payload, from_start_of.
  destruct (Re.search pat_data_start line); simpl; [discriminate|].
  intros [= <-]. reflexivity.
Qed.

Lemma parse_line_raise fuel m line st e :
  parse_line fuel (DefaultDict m) line st = Some (Raise e) -> e = AttributeError.
Proof.
  unfold parse_line.
  destruct (group1_of (Re.search pat_timestamp (drop_last line))) as [ts|e1] eqn:Hts.
  2:{ intros [= <-]. eapply group1_of_raise, Hts. }
  destruct (payload (drop_last line)) as [data|e2] eqn:Hdata.
  2:{ intros [= <-]. eapply payload_raise, Hdata. }
  destruct (trace_parser_explode_array fuel data (DefaultDict m)) as [[s|e3]|] eqn:Hexp;
    try discriminate.
  intros [= <-]. eapply explode_defaultdict_raise, Hexp.
Qed.

Lemma parse_lines_raise fuel marker m : forall fin st e,
  parse_lines fuel marker (DefaultDict m) fin st = Some (Raise e) -> e = AttributeError.
Proof.
  induction fin as [|line fin IH]; intros st e; simpl; [discriminate|].
  destruct (line_selected marker line) as [[|]|]; [| |discriminate].
  - destruct (parse_line fuel (DefaultDict m) line st) as [[st'|e']|] eqn:Hline.
    + apply IH.
    + intros [= <-]. eapply parse_line_raise, Hline.
    + discriminate.
  - apply IH.
Qed.

(** With a marker that is a pattern, every line is selected or not, and
    the loop of [get_trace_array_lengths] comes to its end. *)
Lemma scan_lines_compiled marker r :
  Re.compile marker = Some r ->
  forall fin ret, is_Some (scan_lines marker fin ret).
Proof.
  intros Hr. induction fin as [|line fin IH]; intros ret; cbn [scan_lines]; [eauto|].
  unfold line_selected. rewrite Hr. cbn.
  destruct (bool_decide _); apply IH.
Qed.

(** Where the model of the loop of [__parse_into_csv] has no outcome, the
    marker is no pattern of the fragment, or the turns of the loop of
    [trace_parser_explode_array] are used up on the data of a selected
    line. *)
Lemma parse_lines_out_of_turns fuel marker r d :
  Re.compile marker = Some r ->
  forall fin st,
    parse_lines fuel marker d fin st = None ->
    exists line data,
      selected_line marker fin line
      /\ payload (drop_last line) = Ret data
      /\ trace_parser_explode_array fuel data d = None.
Proof.
  intros Hr. induction fin as [|line fin IH]; intros st; cbn [parse_lines]; [discriminate|].
  assert (Hstep : forall st',
            parse_lines fuel marker d fin st' = None ->
            exists line0 data,
              selected_line marker (line :: fin) line0
              /\ payload (drop_last line0) = Ret data
              /\ trace_parser_explode_array fuel data d = None).
  { intros st' H. destruct (IH st' H) as (line0 & data & [Hin Hsel] & Hp & He).
    exists line0, data. split; [split; [right; exact Hin|exact Hsel]|]. split; assumption. }
  destruct (line_selected marker line) as [[|]|] eqn:Hsel.
  - destruct (parse_line fuel d line st) as [[st'|e]|] eqn:Hline.
    + apply Hstep.
    + discriminate.
    + intros _. unfold parse_line in Hline.
      destruct (group1_of (Re.search pat_timestamp (drop_last line))); [|discriminate Hline].
      destruct (payload (drop_last line)) as [data|] eqn:Hp; [|discriminate Hline].
      destruct (trace_parser_explode_array fuel data d) as [[s|e]|] eqn:He;
        try discriminate Hline.
      exists line, data. split; [split; [left; reflexivity|exact Hsel]|]. split; [exact Hp|exact He].
  - apply Hstep.
  - unfold line_selected in Hsel. rewrite Hr in Hsel. discriminate Hsel.
Qed.

(** X4. With a marker without special characters of patterns, on which
    [re.search(self.unique_word, line)] raises nothing, and on the lines
    read from [trace.txt]: [get_trace_array_lengths] returns its lengths,
    and the only exception that [__parse_into_csv] raises is
    [AttributeError], the one of a selected line without a timestamp or
    without a [key=] or with an array that the patterns of the exploder do
    not take apart; the lengths being a [defaultdict], no [KeyError] comes
    out of [trace_parser_explode_array].  The model has no outcome only
    where the turns given to the loop of [trace_parser_explode_array] are
    used up on the data of a selected line. *)
Theorem parse_into_csv_raises_attribute_error fuel marker fin data_csv0 :
  Forall (fun c => Re.meta c = false) marker ->
  exists widths : gmap str nat,
    get_trace_array_lengths marker fin = Some widths
    /\ (forall e,
          parse_into_csv fuel marker fin data_csv0 = Some (Raise e) -> e = AttributeError)
    /\ (parse_into_csv fuel marker fin data_csv0 = None ->
        exists line data,
          selected_line marker fin line
          /\ payload (drop_last line) = Ret data
          /\ trace_parser_explode_array fuel data (DefaultDict widths) = None).
Proof.
  intros Hmarker. pose proof (compile_literal marker Hmarker) as Hr.
  destruct (scan_lines_compiled marker _ Hr fin ∅) as [m Hm].
  exists m. split; [exact Hm|]. unfold parse_into_csv, get_trace_array_lengths.
  fold (get_trace_array_lengths marker fin). unfold get_trace_array_lengths. rewrite Hm.
  destruct (parse_lines fuel marker (DefaultDict m) fin (mkCsv [] data_csv0))
    as [[st|e']|] eqn:Hlines.
  - split; [intros e; discriminate|discriminate].
  - split; [|discriminate]. intros e [= <-]. eapply parse_lines_raise, Hlines.
  - split; [intros e; discriminate|]. intros _.
    exact (parse_lines_out_of_turns fuel marker _ (DefaultDict m) Hr fin _ Hlines).
Qed.

Lemma parse_into_csv_raises_attribute_error_example :
  parse_into_csv 1 (py "thermal_temperature:")
    [py "thermal_temperature: id=0 temp=45000
"] [] = Some (Raise AttributeError)
  /\ exists widths : gmap str nat,
       get_trace_array_lengths (py "thermal_temperature:")
         [py "thermal_temperature: id=0 temp=45000
"] = Some widths
       /\ (forall e,
             parse_into_csv 1 (py "thermal_temperature:")
               [py "thermal_temperature: id=0 temp=45000
"] [] = Some (Raise e) -> e = AttributeError)
       /\ (parse_into_csv 1 (py "thermal_temperature:")
             [py "thermal_temperature: id=0 temp=45000
"] [] = None ->
           exists line data,
             selected_line (py "thermal_temperature:")
               [py "thermal_temperature: id=0 temp=45000
"] line
             /\ payload (drop_last line) = Ret data
             /\ trace_parser_explode_array 1 data (DefaultDict widths) = None).
Proof.
  split; [vm_compute; reflexivity|].
  apply (parse_into_csv_raises_attribute_error 1 (py "thermal_temperature:")
           [py "thermal_temperature: id=0 temp=45000
"] []).
  repeat constructor.
Defined.

(** A marker with a special character of patterns is outside the fragment
    of [Re.compile], and [re.search] can raise [re.error] on it, as on
    ["("]: the model has no outcome for it, whatever the lines are. *)
Example marker_outside_fragment :
  Re.compile (py "(") = None
  /\ parse_into_csv 5 (py "(") [py "1.0: m: a=1
"] [] = None.
Proof. split; reflexivity. Qed.

(* ------------------------------------------------------------------------- *)
(** * More on [get_trace_array_lengths] *)

Section PrescanMore.

Lemma scan_line_arrays fuel : forall line (ret : gmap str nat),
  scan_line fuel line ret
  = foldl (fun r p => record_length r (fst p) (snd p)) ret (line_arrays fuel line).
Proof.
  induction fuel as [|fuel IH]; intros line ret; simpl; [reflexivity|].
  destruct (Re.search pat_array line) as [m|]; [|reflexivity]. simpl. apply IH.
Qed.

Lemma line_arrays_positive fuel : forall line,
  Forall (fun p => 0 < snd p) (line_arrays fuel line).
Proof.
  induction fuel as [|fuel IH]; intros line; simpl; [constructor|].
  destruct (Re.search pat_array line) as [m|]; [|constructor].
  constructor; [apply split_length_pos|apply IH].
Qed.

Lemma lookup_merge_widths (a b : gmap str nat) (name : str) :
  merge_widths a b !! name
  = match a !! name, b !! name with
    | Some x, Some y => Some (Nat.max x y)
    | Some x, None => Some x
    | None, r => r
    end.
Proof.
  unfold merge_widths. rewrite lookup_union_with.
  destruct (a !! name), (b !! name); reflexivity.
Qed.

Lemma merge_widths_assoc (a b c : gmap str nat) :
  merge_widths (merge_widths a b) c = merge_widths a (merge_widths b c).
Proof.
  apply map_eq. intros i. rewrite !lookup_merge_widths.
  destruct (a !! i), (b !! i), (c !! i); try reflexivity.
  rewrite Nat.max_assoc. reflexivity.
Qed.

Lemma merge_widths_comm (a b : gmap str nat) : merge_widths a b = merge_widths b a.
Proof.
  apply map_eq. intros i. rewrite !lookup_merge_widths.
  destruct (a !! i), (b !! i); try reflexivity.
  rewrite Nat.max_comm. reflexivity.
Qed.

Lemma merge_widths_empty_r (a : gmap str nat) : merge_widths a ∅ = a.
Proof.
  apply map_eq. intros i. rewrite lookup_merge_widths, lookup_empty.
  destruct (a !! i); reflexivity.
Qed.

Lemma merge_widths_empty_l (a : gmap str nat) : merge_widths ∅ a = a.
Proof. rewrite merge_widths_comm. apply merge_widths_empty_r. Qed.

Lemma record_length_merge (ret : gmap str nat) name len :
  0 < len -> record_length ret name len = merge_widths ret {[ name := len ]}.
Proof.
  intros Hlen. rewrite record_length_insert by exact Hlen.
  apply map_eq. intros i. rewrite lookup_merge_widths.
  destruct (decide (i = name)) as [->|Hne].
  - rewrite lookup_insert_eq, lookup_singleton_eq.
    destruct (ret !! name); reflexivity.
  - rewrite lookup_insert_ne, lookup_singleton_ne by congruence.
    destruct (ret !! i); reflexivity.
Qed.

Lemma foldl_record_merge (l : list (str * nat)) : forall (ret : gmap str nat),
  Forall (fun p => 0 < snd p) l ->
  foldl (fun r p => record_length r (fst p) (snd p)) ret l
  = merge_widths ret (foldl (fun r p => record_length r (fst p) (snd p)) ∅ l).
Proof.
  induction l as [|p l IH]; intros ret Hpos; simpl.
  - symmetry. apply merge_widths_empty_r.
  - inversion Hpos as [|? ? Hp Hl]; subst.
    rewrite (IH (record_length ret (fst p) (snd p)) Hl).
    rewrite (IH (record_length ∅ (fst p) (snd p)) Hl).
    rewrite !record_length_merge by exact Hp.
    rewrite merge_widths_empty_l, merge_widths_assoc. reflexivity.
Qed.

(** The lengths after a line are the ones before it merged with the ones
    of the line alone. *)
Lemma scan_line_merge (fuel : nat) (line : str) (ret : gmap str nat) :
  scan_line fuel line ret = merge_widths ret (scan_line fuel line ∅).
Proof.
  rewrite !scan_line_arrays. apply foldl_record_merge, line_arrays_positive.
Qed.

Lemma scan_lines_merge marker : forall fin (ret : gmap str nat),
  scan_lines marker fin ret
  = option_map (merge_widths ret) (scan_lines marker fin ∅).
Proof.
  induction fin as [|line fin IH]; intros ret; simpl.
  - rewrite merge_widths_empty_r. reflexivity.
  - destruct (line_selected marker line) as [[|]|]; [| |reflexivity].
    + rewrite (IH (scan_line (length line) line ret)).
      rewrite (IH (scan_line (length line) line ∅)).
      rewrite (scan_line_merge _ _ ret).
      destruct (scan_lines marker fin ∅); simpl; [|reflexivity].
      rewrite merge_widths_assoc. reflexivity.
    + apply IH.
Qed.

Lemma scan_lines_app marker : forall fin1 fin2 (ret : gmap str nat),
  scan_lines marker (fin1 ++ fin2) ret
  = match scan_lines marker fin1 ret with
    | Some ret' => scan_lines marker fin2 ret'
    | None => None
    end.
Proof.
  induction fin1 as [|line fin1 IH]; intros fin2 ret; simpl; [reflexivity|].
  destruct (line_selected marker line) as [[|]|]; [| |reflexivity]; apply IH.
Qed.

Lemma scan_lines_permutation marker fin1 fin2 :
  Permutation fin1 fin2 ->
  forall ret : gmap str nat, scan_lines marker fin1 ret = scan_lines marker fin2 ret.
Proof.
  induction 1 as [|x l l' _ IH|x y l|l l' l'' _ IH1 _ IH2]; intros ret.
  - reflexivity.
  - simpl. destruct (line_selected marker x) as [[|]|]; [| |reflexivity]; apply IH.
  - simpl.
    destruct (line_selected marker x) as [[|]|], (line_selected marker y) as [[|]|];
      try reflexivity.
    f_equal.
    rewrite (scan_line_merge _ x (scan_line _ y ret)).
    rewrite (scan_line_merge _ y (scan_line _ x ret)).
    rewrite (scan_line_merge _ y ret), (scan_line_merge _ x ret).
    rewrite !merge_widths_assoc. f_equal. apply merge_widths_comm.
  - rewrite IH1. apply IH2.
Qed.

End PrescanMore.

(** X5. The lengths of the arrays of two files read one after the other are
    the pointwise maxima of the lengths of each file. *)
Theorem array_lengths_of_concatenation marker fin1 fin2 :
  get_trace_array_lengths marker (fin1 ++ fin2)
  = match get_trace_array_lengths marker fin1, get_trace_array_lengths marker fin2 with
    | Some a, Some b => Some (merge_widths a b)
    | _, _ => None
    end
  /\ forall (a b : gmap str nat) (name : str),
       merge_widths a b !! name
       = match a !! name, b !! name with
         | Some x, Some y => Some (Nat.max x y)
         | Some x, None => Some x
         | None, r => r
         end.
Proof.
  split; [|apply lookup_merge_widths].
  unfold get_trace_array_lengths. rewrite scan_lines_app.
  destruct (scan_lines marker fin1 ∅) as [a|]; [|reflexivity].
  rewrite scan_lines_merge. destruct (scan_lines marker fin2 ∅); reflexivity.
Qed.

(** X6. The lengths of the arrays do not depend on the order of the lines
    of the file. *)
Theorem array_lengths_order_independent marker fin1 fin2 :
  Permutation fin1 fin2 ->
  get_trace_array_lengths marker fin1 = get_trace_array_lengths marker fin2.
Proof. intros H. apply scan_lines_permutation, H. Qed.

Lemma array_lengths_order_independent_example :
  get_trace_array_lengths (py "power:")
    [py "1.0: power: a={1 2} c={4}
"; py "3.0: power: a={1 2 3} b=3
"]
  = get_trace_array_lengths (py "power:")
    [py "3.0: power: a={1 2 3} b=3
"; py "1.0: power: a={1 2} c={4}
"].
Proof. apply array_lengths_order_independent. apply perm_swap. Defined.

(** X7. Every length that [get_trace_array_lengths] returns is at least 1:
    the reads of the [defaultdict], which store a 0 under a new name, leave
    no 0 behind. *)
Theorem array_lengths_positive (marker : str) (fin : file) (widths : gmap str nat) (name : str) (n : nat) :
  get_trace_array_lengths marker fin = Some widths ->
  widths !! name = Some n ->
  1 <= n.
Proof.
  intros Hwidths Hn.
  destruct (scan_lines_witnessed marker fin fin ∅ widths) with (name := name) (n := n)
    as (line & pre & elems & post & _ & _ & ->); auto.
  - intros k v Hv. rewrite lookup_empty in Hv. discriminate Hv.
  - apply split_length_pos.
Qed.

Lemma array_lengths_positive_example :
  get_trace_array_lengths (py "power:")
    [py "3.0: power: a={1 2 3} b=3
"] = Some {[ py "a" := 3 ]}
  /\ 1 <= 3.
Proof.
  split; [vm_compute; reflexivity|].
  apply (array_lengths_positive (py "power:")
           [py "3.0: power: a={1 2 3} b=3
"] {[ py "a" := 3 ]} (py "a") 3); vm_compute; reflexivity.
Defined.

(* ------------------------------------------------------------------------- *)
(** * [re.sub] *)

Section Sub.
Import Re ReFacts.

Lemma matches_shorter p opens groups s r :
  matches p opens groups s r -> consumes p = true -> length (snd r) < length s.
Proof.
  induction 1 as [opens groups s| c p opens groups s r Hm _
                  | q p opens groups c s r _ Hm _
                  | q p opens groups a s r Ha _ Hm _
                  | p opens groups s r _ IH | p o opens groups s r _ IH];
    simpl; intros Hc; auto; try discriminate.
  - destruct (matches_suffix _ _ _ _ _ Hm) as [x ->]. rewrite length_app. lia.
  - destruct (matches_suffix _ _ _ _ _ Hm) as [x ->]. rewrite length_app. lia.
  - destruct (matches_suffix _ _ _ _ _ Hm) as [x ->]. rewrite !length_app.
    destruct a; [congruence|simpl; lia].
Qed.

Lemma search_shorter p s m :
  consumes p = true -> search p s = Some m -> length (after m) < length s.
Proof.
  intros Hp Hs. apply search_inv in Hs as (Heq & Hm & _).
  apply match_here_sound, matches_shorter in Hm; [|exact Hp]. simpl in Hm.
  rewrite length_app in Hm. rewrite Heq, !length_app. lia.
Qed.

Lemma search_empty p : consumes p = true -> search p [] = None.
Proof.
  intros Hp. destruct (search p []) as [m|] eqn:Hs; [|reflexivity].
  apply search_shorter in Hs; [|exact Hp]. simpl in Hs. lia.
Qed.

(** Enough turns for the substitution: the result is the same with more. *)
Lemma sub_fuel_enough p repl : consumes p = true ->
  forall n fuel1 fuel2 s, length s <= n -> n <= fuel1 -> n <= fuel2 ->
  sub_fuel fuel1 p repl s = sub_fuel fuel2 p repl s.
Proof.
  intros Hp. induction n as [|n IH]; intros fuel1 fuel2 s Hs H1 H2.
  - destruct s; [|simpl in Hs; lia].
    destruct fuel1, fuel2; cbn [sub_fuel]; rewrite ?search_empty by exact Hp; reflexivity.
  - destruct fuel1 as [|fuel1], fuel2 as [|fuel2]; try lia. cbn [sub_fuel].
    destruct (search p s) as [m|] eqn:Hsearch; [|reflexivity].
    pose proof (search_shorter _ _ _ Hp Hsearch).
    rewrite (IH fuel1 fuel2 (after m)) by lia. reflexivity.
Qed.

(** [re.sub] replaces the first match and goes on behind it. *)
Lemma sub_unfold p repl s : consumes p = true ->
  sub p repl s
  = match search p s with
    | Some m => before m ++ repl m ++ sub p repl (after m)
    | None => s
    end.
Proof.
  intros Hp. unfold sub. destruct s as [|c s].
  - rewrite search_empty by exact Hp. reflexivity.
  - cbn [length sub_fuel]. destruct (search p (c :: s)) as [m|] eqn:Hsearch; [|reflexivity].
    pose proof (search_shorter _ _ _ Hp Hsearch) as Hlt. simpl in Hlt.
    rewrite (sub_fuel_enough p repl Hp (length (after m)) (length s) (length (after m)))
      by lia.
    reflexivity.
Qed.

Lemma sub_nil p repl : sub p repl [] = [].
Proof. reflexivity. Qed.

(** [re.sub] passes over a place without a match. *)
Lemma sub_skip p repl c s :
  consumes p = true -> (forall x m, repl (shift x m) = repl m) ->
  match_here p [] [] (c :: s) = None ->
  sub p repl (c :: s) = c :: sub p repl s.
Proof.
  intros Hp Hrepl Hnone. rewrite (sub_unfold p repl (c :: s)) by exact Hp.
  rewrite (sub_unfold p repl s) by exact Hp.
  cbn [search]. rewrite (match_None _ _ Hnone).
  destruct (search p s) as [m|]; [|reflexivity].
  simpl. rewrite Hrepl. reflexivity.
Qed.

(** [re.sub] replaces a match at the start. *)
Lemma sub_here p repl x rest gs :
  consumes p = true ->
  match_here p [] [] (x ++ rest) = Some (gs, rest) ->
  sub p repl (x ++ rest) = repl (mkMatch [] x rest gs) ++ sub p repl rest.
Proof.
  intros Hp Hm. rewrite sub_unfold by exact Hp.
  rewrite (search_here _ _ _ (match_Some _ _ _ _ Hm)). reflexivity.
Qed.

(** Substituting for one character. *)
Lemma sub_char c t s :
  sub [Lit c] (fun _ => t) s = flat_map (fun x => if Ascii.eqb x c then t else [x]) s.
Proof.
  induction s as [|x s IH]; [reflexivity|].
  destruct (Ascii.eqb_spec x c) as [->|Hne].
  - rewrite (sub_here [Lit c] _ [c] s []); [|reflexivity|].
    + simpl. rewrite Ascii.eqb_refl, IH. reflexivity.
    + simpl. rewrite Ascii.eqb_refl. reflexivity.
  - rewrite sub_skip; [| reflexivity | reflexivity |].
    + simpl. apply Ascii.eqb_neq in Hne. rewrite Hne, IH. reflexivity.
    + simpl. apply Ascii.eqb_neq in Hne. rewrite Hne. reflexivity.
Qed.

End Sub.

(* ------------------------------------------------------------------------- *)
(** * The header and the rows of scalar fields *)

Section Fields.
Import Re ReFacts.

Lemma g1_shift x m : g1 (shift x m) = g1 m.
Proof. reflexivity. Qed.

Lemma lbrace_class_not_space v :
  Forall (fun c => not_space_lbrace c = true) v -> Forall (fun c => not_space c = true) v.
Proof.
  intros H. eapply Forall_impl; [exact H|]. intros c Hc.
  unfold not_space_lbrace in Hc. apply andb_true_iff in Hc. apply Hc.
Qed.

Lemma span_field q v tail :
  Forall (fun c => q c = true) v -> q " "%char = false -> field_end tail ->
  span q (v ++ tail) = length v.
Proof.
  intros Hv Hq [->|[t ->]].
  - rewrite app_nil_r. apply span_app_end, Hv.
  - apply span_app_stop; assumption.
Qed.

(** [([A-Za-z0-9_]+)=[^ ]+] on a field gives its key. *)
Lemma pat_header_field f tail :
  well_formed_field f -> field_end tail ->
  match_here pat_header [] [] (field_text f ++ tail) = Some ([fst f], tail).
Proof.
  destruct f as [k v]. intros (Hk & Hkw & Hv & Hvc) Htail. simpl in *.
  unfold field_text. simpl. rewrite <- app_assoc.
  change (("="%char :: v) ++ tail) with ("="%char :: v ++ tail).
  unfold pat_header. cbn [match_here].
  rewrite span_app_stop by (exact Hkw || reflexivity).
  apply (backtrack_first _ _ _ (length k)).
  - destruct k; [congruence|simpl; lia].
  - rewrite drop_app_length. rewrite take_group by reflexivity.
    rewrite Ascii.eqb_refl.
    rewrite (span_field not_space v tail (lbrace_class_not_space _ Hvc) eq_refl Htail).
    apply (backtrack_first _ _ _ (length v)).
    + destruct v; [congruence|simpl; lia].
    + rewrite drop_app_length. reflexivity.
    + intros i Hi. lia.
  - intros i Hi. lia.
Qed.

(** [[A-Za-z0-9_]+=([^ {]+)] on a field gives its value. *)
Lemma pat_data_field f tail :
  well_formed_field f -> field_end tail ->
  match_here pat_data [] [] (field_text f ++ tail) = Some ([snd f], tail).
Proof.
  destruct f as [k v]. intros (Hk & Hkw & Hv & Hvc) Htail. simpl in *.
  unfold field_text. simpl. rewrite <- app_assoc.
  change (("="%char :: v) ++ tail) with ("="%char :: v ++ tail).
  unfold pat_data. cbn [match_here].
  rewrite span_app_stop by (exact Hkw || reflexivity).
  apply (backtrack_first _ _ _ (length k)).
  - destruct k; [congruence|simpl; lia].
  - rewrite drop_app_length. rewrite Ascii.eqb_refl.
    rewrite (span_field not_space_lbrace v tail Hvc eq_refl Htail).
    apply (backtrack_first _ _ _ (length v)).
    + destruct v; [congruence|simpl; lia].
    + rewrite drop_app_length. rewrite take_group by reflexivity. reflexivity.
    + intros i Hi. lia.
  - intros i Hi. lia.
Qed.

Lemma join_cons sep x l :
  join sep (x :: l) = x ++ match l with [] => [] | _ :: _ => sep ++ join sep l end.
Proof. destruct l; simpl; [rewrite app_nil_r|]; reflexivity. Qed.

Lemma join_fields_end (l : list str) :
  field_end match l with
            | [] => []
            | _ :: _ => py " " ++ join (py " ") l
            end.
Proof. destruct l; [left; reflexivity|right; eexists; reflexivity]. Qed.

(** Substituting in fields separated by spaces, field by field. *)
Lemma sub_fields p (pick : str * str -> str) :
  consumes p = true ->
  (forall t, match_here p [] [] (" "%char :: t) = None) ->
  (forall f tail, well_formed_field f -> field_end tail ->
     match_here p [] [] (field_text f ++ tail) = Some ([pick f], tail)) ->
  forall fs, Forall well_formed_field fs ->
  sub p g1 (join (py " ") (map field_text fs)) = join (py " ") (map pick fs).
Proof.
  intros Hp Hspace Hfield. induction 1 as [|f fs Hf Hfs IH]; [reflexivity|].
  cbn [map]. rewrite !join_cons.
  assert (Hend := join_fields_end (map field_text fs)).
  rewrite (sub_here p g1 (field_text f) _ [pick f] Hp (Hfield f _ Hf Hend)).
  unfold g1 at 1. cbn [groups nth]. f_equal.
  destruct fs as [|f' fs]; [reflexivity|].
  cbn [map] in *. change (py " " ++ ?x) with (" "%char :: x).
  rewrite sub_skip by (exact Hp || apply g1_shift || apply Hspace).
  rewrite IH. reflexivity.
Qed.

Lemma flat_map_app' {A B} (f : A -> list B) l1 l2 :
  flat_map f (l1 ++ l2) = flat_map f l1 ++ flat_map f l2.
Proof. induction l1 as [|x l1 IH]; simpl; [reflexivity|]. rewrite IH, app_assoc. reflexivity. Qed.

Lemma replace_none c t (s : str) :
  ~ In c s -> flat_map (fun x => if Ascii.eqb x c then t else [x]) s = s.
Proof.
  induction s as [|x s IH]; simpl; [reflexivity|]. intros Hnot.
  destruct (Ascii.eqb_spec x c) as [->|_]; [tauto|]. rewrite IH by tauto. reflexivity.
Qed.

(** Spaces replaced by commas in words joined by spaces. *)
Lemma spaces_to_commas (l : list str) :
  Forall (fun x => ~ In " "%char x) l ->
  sub [Lit " "] (fun _ => py ",") (join (py " ") l) = join (py ",") l.
Proof.
  intros Hl. rewrite sub_char. induction Hl as [|x l Hx _ IH]; [reflexivity|].
  rewrite !join_cons, flat_map_app', (replace_none _ _ x Hx). f_equal.
  destruct l as [|y l]; [reflexivity|].
  rewrite flat_map_app'. rewrite IH. reflexivity.
Qed.

Lemma strip_commas_flat_map v :
  flat_map (fun x => if Ascii.eqb x "," then [] else [x]) v = strip_commas v.
Proof.
  unfold strip_commas. induction v as [|x v IH]; simpl; [reflexivity|].
  rewrite IH. destruct (Ascii.eqb x ","); reflexivity.
Qed.

(** Commas removed from words joined by spaces. *)
Lemma commas_removed (l : list str) :
  sub [Lit ","] (fun _ => []) (join (py " ") l) = join (py " ") (map strip_commas l).
Proof.
  rewrite sub_char. induction l as [|x l IH]; [reflexivity|].
  cbn [map]. rewrite !join_cons, flat_map_app', strip_commas_flat_map. f_equal.
  destruct l as [|y l]; [reflexivity|].
  cbn [map] in *. rewrite flat_map_app', IH. reflexivity.
Qed.

Lemma strip_commas_no_space v : ~ In " "%char v -> ~ In " "%char (strip_commas v).
Proof.
  unfold strip_commas. intros Hv Hin. apply filter_In in Hin. tauto.
Qed.

End Fields.

Lemma keys_no_space (fs : list (str * str)) :
  Forall well_formed_field fs -> Forall (fun x => ~ In " "%char x) (map fst fs).
Proof.
  induction 1 as [|f fs (_ & Hk & _) _ IH]; simpl; constructor; [|exact IH].
  intros Hin. rewrite Forall_forall in Hk. apply list_elem_of_In, Hk in Hin. discriminate Hin.
Qed.

Lemma values_no_space (fs : list (str * str)) :
  Forall well_formed_field fs ->
  Forall (fun x => ~ In " "%char x) (map strip_commas (map snd fs)).
Proof.
  induction 1 as [|f fs (_ & _ & _ & Hv) _ IH]; simpl; constructor; [|exact IH].
  apply strip_commas_no_space. intros Hin.
  rewrite Forall_forall in Hv. apply list_elem_of_In, Hv in Hin. discriminate Hin.
Qed.

(** The header and the row of scalar fields joined by spaces. *)
Lemma header_of_join (fs : list (str * str)) :
  Forall well_formed_field fs ->
  header_of (join (py " ") (map field_text fs))
  = py "Time," ++ join (py ",") (map fst fs) ++ py "
".
Proof.
  intros Hfs. unfold header_of.
  rewrite (sub_fields pat_header fst eq_refl (fun _ => eq_refl) pat_header_field fs Hfs).
  rewrite spaces_to_commas by (apply keys_no_space, Hfs). reflexivity.
Qed.

Lemma row_of_join (timestamp : str) (fs : list (str * str)) :
  Forall well_formed_field fs ->
  row_of timestamp (join (py " ") (map field_text fs))
  = timestamp ++ py "," ++ join (py ",") (map strip_commas (map snd fs)) ++ py "
".
Proof.
  intros Hfs. unfold row_of.
  rewrite (sub_fields pat_data snd eq_refl (fun _ => eq_refl) pat_data_field fs Hfs).
  rewrite commas_removed.
  rewrite spaces_to_commas by (apply values_no_space, Hfs). reflexivity.
Qed.

(** X8. For scalar fields [key=value] separated by single spaces, the
    header is [Time] followed by the keys, separated by commas. *)
Theorem header_of_fields (fs : list (str * str)) :
  Forall well_formed_field fs ->
  header_of (join (py " ") (map field_text fs))
  = py "Time," ++ join (py ",") (map fst fs) ++ py "
".
Proof. intros Hfs. rewrite (header_of_join fs Hfs). reflexivity. Qed.

Lemma header_of_fields_example :
  header_of (py "id=0 temp=45000") = py "Time,id,temp
".
Proof.
  apply (header_of_fields [(py "id", py "0"); (py "temp", py "45000")]).
  repeat constructor; simpl; discriminate.
Defined.

(** X9. For scalar fields [key=value] separated by single spaces, the row
    is the timestamp followed by the values without their commas, separated
    by commas: a comma in a value never makes a column. *)
Theorem row_of_fields (timestamp : str) (fs : list (str * str)) :
  Forall well_formed_field fs ->
  row_of timestamp (join (py " ") (map field_text fs))
  = timestamp ++ py "," ++ join (py ",") (map strip_commas (map snd fs)) ++ py "
".
Proof. intros Hfs. rewrite (row_of_join timestamp fs Hfs). reflexivity. Qed.

Lemma row_of_fields_example :
  row_of (py "100.0") (py "id=0 power=1,500") = py "100.0,0,1500
".
Proof.
  apply (row_of_fields (py "100.0") [(py "id", py "0"); (py "power", py "1,500")]).
  repeat constructor; simpl; discriminate.
Defined.

(* ------------------------------------------------------------------------- *)
(** * The removal of the empty arrays *)

Section EmptyArrays.
Import Re ReFacts.

Ltac invert_matches :=
  repeat match goal with
    | H : matches (_ :: _) _ _ _ _ |- _ => inversion H; clear H; subst
    | H : matches [] _ _ _ _ |- _ => inversion H; clear H; subst
    end.

(** A match of [[A-Za-z0-9_]+=\{\} ] is a name followed by [={} ]. *)
Lemma pat_empty_array_inv s gs rest :
  match_here pat_empty_array [] [] s = Some (gs, rest) ->
  exists N, s = N ++ py "={} " ++ rest /\ N <> [] /\ Forall (fun c => word c = true) N.
Proof.
  intros H. apply match_here_sound in H. unfold pat_empty_array in H.
  invert_matches. eauto.
Qed.

Lemma pat_empty_array_here name t :
  name <> [] -> Forall (fun c => word c = true) name ->
  match_here pat_empty_array [] [] ((name ++ py "={} ") ++ t) = Some ([], t).
Proof.
  intros Hname Hnamec. rewrite <- app_assoc.
  change (py "={} " ++ t) with ("="%char :: "{"%char :: "}"%char :: " "%char :: t).
  unfold pat_empty_array. cbn [match_here].
  rewrite span_app_stop by (exact Hnamec || reflexivity).
  apply (backtrack_first _ _ _ (length name)).
  - destruct name; [congruence|simpl; lia].
  - rewrite drop_app_length. reflexivity.
  - intros i Hi. lia.
Qed.

(** [re.sub] passes over a text in which no match starts. *)
Lemma sub_skip_many p repl pre s :
  consumes p = true -> (forall x m, repl (shift x m) = repl m) ->
  (forall x y, pre = x ++ y -> y <> [] -> match_here p [] [] (y ++ s) = None) ->
  sub p repl (pre ++ s) = pre ++ sub p repl s.
Proof.
  intros Hp Hrepl. induction pre as [|c pre IH]; intros Hnone; [reflexivity|].
  change ((c :: pre) ++ s) with (c :: (pre ++ s)).
  rewrite sub_skip; [|exact Hp|exact Hrepl|].
  - rewrite IH; [reflexivity|]. intros x y -> Hy. apply (Hnone (c :: x) y); auto.
  - apply (Hnone [] (c :: pre)); [reflexivity|discriminate].
Qed.

Lemma word_chars_plain N c :
  word c = false -> Forall (fun x => word x = true) N -> ~ In c N.
Proof.
  intros Hc HN Hin. rewrite Forall_forall in HN. apply list_elem_of_In, HN in Hin. congruence.
Qed.

Lemma field_text_plain f c :
  well_formed_field f -> not_space_lbrace c = false -> ~ In c (field_text f).
Proof.
  destruct f as [k v]. intros (_ & Hk & _ & Hv) Hc. unfold field_text. simpl in *.
  rewrite in_app_iff. intros [Hin|[Heq|Hin]].
  - rewrite Forall_forall in Hk. apply list_elem_of_In, Hk in Hin.
    destruct c as [[] [] [] [] [] [] [] []]; discriminate.
  - subst c. discriminate Hc.
  - rewrite Forall_forall in Hv. apply list_elem_of_In, Hv in Hin. congruence.
Qed.

(** No empty array is matched inside a scalar field. *)
Lemma no_empty_array_in_scalar f tail x y :
  well_formed_field f -> field_end tail ->
  field_text f = x ++ y -> y <> [] ->
  match_here pat_empty_array [] [] (y ++ tail) = None.
Proof.
  intros Hf Htail Hxy Hy.
  destruct (match_here pat_empty_array [] [] (y ++ tail)) as [[gs rest]|] eqn:Hm;
    [exfalso|reflexivity].
  apply pat_empty_array_inv in Hm as (N & Heq & HN & HNw).
  assert (Hbrace : ~ In "{"%char y).
  { intros Hin. apply (field_text_plain f "{" Hf eq_refl). rewrite Hxy.
    apply in_app_iff. auto. }
  assert (Hspace : ~ In " "%char y).
  { intros Hin. apply (field_text_plain f " " Hf eq_refl). rewrite Hxy.
    apply in_app_iff. auto. }
  destruct Htail as [->|[t ->]].
  - rewrite app_nil_r in Heq. apply Hbrace. rewrite Heq.
    rewrite in_app_iff. simpl. tauto.
  - change (N ++ py "={} " ++ rest) with (N ++ py "={}" ++ " "%char :: rest) in Heq.
    rewrite app_assoc in Heq.
    apply first_occurrence in Heq as [-> _]; [|exact Hspace|].
    + apply Hbrace. rewrite in_app_iff. simpl. tauto.
    + rewrite in_app_iff. simpl.
      pose proof (word_chars_plain N " " eq_refl HNw). intuition discriminate.
Qed.

(** No empty array is matched inside an array that is not empty. *)
Lemma no_empty_array_in_array name elems tail x y :
  Forall (fun c => word c = true) name ->
  elems <> [] -> ~ In "{"%char elems -> ~ In "}"%char elems ->
  name ++ py "={" ++ elems ++ py "}" = x ++ y -> y <> [] ->
  match_here pat_empty_array [] [] (y ++ tail) = None.
Proof.
  intros Hname Helems Hlb Hrb Hxy Hy.
  destruct (match_here pat_empty_array [] [] (y ++ tail)) as [[gs rest]|] eqn:Hm;
    [exfalso|reflexivity].
  apply pat_empty_array_inv in Hm as (N & Heq & HN & HNw).
  destruct y as [|c y0 _] using rev_ind; [congruence|].
  assert (Hc : c = "}"%char).
  { change (name ++ py "={" ++ elems ++ py "}")
      with (name ++ py "={" ++ elems ++ ["}"%char]) in Hxy.
    rewrite !app_assoc in Hxy. apply app_inj_tail in Hxy as [_ Hc]. congruence. }
  subst c.
  change (N ++ py "={} " ++ rest) with (N ++ ["="%char] ++ py "{} " ++ rest) in Heq.
  rewrite app_assoc in Heq.
  apply app_eq_app in Heq as [l [[Hyl Hl]|[HNl Htl]]].
  - destruct l as [|c l]; simpl in Hl.
    + rewrite app_nil_r in Hyl. apply app_inj_tail in Hyl as [_ Hc]. discriminate Hc.
    + injection Hl as <- Hl.
      assert (Heq : (name ++ ["="%char]) ++ "{"%char :: elems ++ ["}"%char]
                    = (x ++ N ++ ["="%char]) ++ "{"%char :: l).
      { rewrite <- !app_assoc. simpl. change (name ++ "="%char :: "{"%char :: elems ++ ["}"%char])
          with (name ++ py "={" ++ elems ++ py "}"). rewrite Hxy, Hyl, <- !app_assoc.
        reflexivity. }
      apply prefix_before in Heq as (r & _ & Hr).
      * destruct r as [|c r]; simpl in Hr.
        -- injection Hr as Hr. rewrite <- Hr in Hl.
           destruct elems as [|e elems]; [congruence|]. simpl in Hl.
           injection Hl as He _. apply Hrb. left. congruence.
        -- injection Hr as <- Hr. apply Hlb.
           assert (Hin : In "{"%char (elems ++ ["}"%char])).
           { rewrite Hr. apply in_app_iff. right. left. reflexivity. }
           apply in_app_iff in Hin as [Hin|[Hin|[]]]; [exact Hin|discriminate Hin].
      * rewrite in_app_iff. simpl.
        pose proof (word_chars_plain name "{" eq_refl Hname). intuition discriminate.
  - assert (Hin : In "}"%char (N ++ ["="%char])).
    { rewrite HNl, <- app_assoc. rewrite !in_app_iff. simpl. tauto. }
    apply in_app_iff in Hin as [Hin|[Hin|[]]]; [|discriminate Hin].
    exact (word_chars_plain N "}" eq_refl HNw Hin).
Qed.

(** No empty array is matched in an empty array that ends the data. *)
Lemma no_empty_array_at_end name x y :
  Forall (fun c => word c = true) name ->
  name ++ py "={}" = x ++ y ->
  match_here pat_empty_array [] [] (y ++ []) = None.
Proof.
  intros Hname Hxy. rewrite app_nil_r.
  destruct (match_here pat_empty_array [] [] y) as [[gs rest]|] eqn:Hm;
    [exfalso|reflexivity].
  apply pat_empty_array_inv in Hm as (N & -> & _).
  assert (Hin : In " "%char (name ++ py "={}")).
  { rewrite Hxy, !in_app_iff. simpl. tauto. }
  apply in_app_iff in Hin as [Hin|Hin].
  - exact (word_chars_plain name " " eq_refl Hname Hin).
  - simpl in Hin. intuition discriminate.
Qed.

Lemma kept_cons_nonempty t ts : kept (t :: ts) <> [].
Proof.
  revert t. induction ts as [|t' ts IH]; intros t; [destruct t; discriminate|].
  destruct t; cbn [kept]; try discriminate. apply IH.
Qed.

(** A field that is not an empty array stays, whatever follows it. *)
Lemma sub_empty_array_skip t tail :
  well_formed_token t -> field_end tail ->
  (forall name, t <> EmptyArray name) ->
  sub pat_empty_array (fun _ => []) (token_text t ++ tail)
  = token_text t ++ sub pat_empty_array (fun _ => []) tail.
Proof.
  intros Ht Htail Hkind. apply sub_skip_many; [reflexivity|reflexivity|].
  intros x y Hxy Hy.
  destruct t as [f|name elems|name]; cbn [well_formed_token token_text] in Ht, Hxy.
  - exact (no_empty_array_in_scalar f tail x y Ht Htail Hxy Hy).
  - destruct Ht as (_ & Hname & Helems & Helemsc).
    destruct (Forall_element _ Helemsc) as (Hrb & _ & Hlb).
    apply not_rbrace_not_in in Hrb.
    exact (no_empty_array_in_array name elems tail x y Hname Helems Hlb Hrb Hxy Hy).
  - exfalso. exact (Hkind name eq_refl).
Qed.

(** An empty array at the end of the data stays. *)
Lemma sub_empty_array_last name :
  Forall (fun c => word c = true) name ->
  sub pat_empty_array (fun _ => []) (name ++ py "={}") = name ++ py "={}".
Proof.
  intros Hname. rewrite <- (app_nil_r (name ++ py "={}")) at 1.
  rewrite sub_skip_many; [rewrite sub_nil; apply app_nil_r|reflexivity|reflexivity|].
  intros x y Hxy _. eapply no_empty_array_at_end; eauto.
Qed.

(** An empty array that a space follows goes, with the space. *)
Lemma sub_empty_array_here name t :
  name <> [] -> Forall (fun c => word c = true) name ->
  sub pat_empty_array (fun _ => []) (name ++ py "={}" ++ " "%char :: t)
  = sub pat_empty_array (fun _ => []) t.
Proof.
  intros Hname Hnamec.
  change (name ++ py "={}" ++ " "%char :: t) with (name ++ py "={} " ++ t).
  rewrite app_assoc.
  rewrite (sub_here pat_empty_array _ (name ++ py "={} ") t [] eq_refl
             (pat_empty_array_here name t Hname Hnamec)).
  reflexivity.
Qed.

(** The removal of the empty arrays, field by field. *)
Lemma sub_empty_array_fields (ts : list token) :
  Forall well_formed_token ts ->
  sub pat_empty_array (fun _ => []) (join (py " ") (map token_text ts))
  = join (py " ") (map token_text (kept ts)).
Proof.
  induction 1 as [|t ts Ht Hts IH]; [reflexivity|].
  destruct ts as [|t' ts].
  - cbn [map kept join]. destruct t as [f|name elems|name].
    + rewrite <- (app_nil_r (token_text (Scalar f))) at 1.
      rewrite sub_empty_array_skip; [rewrite sub_nil; apply app_nil_r|exact Ht|
                                     left; reflexivity|discriminate].
    + rewrite <- (app_nil_r (token_text (Array name elems))) at 1.
      rewrite sub_empty_array_skip; [rewrite sub_nil; apply app_nil_r|exact Ht|
                                     left; reflexivity|discriminate].
    + destruct Ht as [_ Hname]. apply sub_empty_array_last, Hname.
  - assert (Hskip : forall t0, well_formed_token t0 -> (forall name, t0 <> EmptyArray name) ->
              sub pat_empty_array (fun _ => []) (join (py " ") (map token_text (t0 :: t' :: ts)))
              = join (py " ") (map token_text (t0 :: kept (t' :: ts)))).
    { intros t0 Ht0 Hkind.
      change (join (py " ") (map token_text (t0 :: t' :: ts)))
        with (token_text t0 ++ " "%char :: join (py " ") (map token_text (t' :: ts))).
      rewrite sub_empty_array_skip;
        [|exact Ht0|right; eexists; reflexivity|exact Hkind].
      rewrite sub_skip by reflexivity. rewrite IH.
      pose proof (kept_cons_nonempty t' ts) as Hne.
      destruct (kept (t' :: ts)) as [|k ks]; [congruence|]. reflexivity. }
    destruct t as [f|name elems|name].
    + rewrite (Hskip _ Ht) by discriminate. reflexivity.
    + rewrite (Hskip _ Ht) by discriminate. reflexivity.
    + destruct Ht as [Hname Hnamec].
      change (kept (EmptyArray name :: t' :: ts)) with (kept (t' :: ts)).
      rewrite <- IH. cbn [map]. rewrite join_cons.
      cbn [token_text]. rewrite <- app_assoc.
      apply (sub_empty_array_here name _ Hname Hnamec).
Qed.

(** X10.  In data made of fields separated by single spaces, the removal
    of the empty arrays takes away, with the space behind it, every empty
    array that another field follows, and nothing else: scalars and arrays
    with elements stay as they are, and so does an empty array that ends
    the data. *)
Theorem empty_arrays_removed (ts : list token) :
  Forall well_formed_token ts ->
  sub pat_empty_array (fun _ => []) (join (py " ") (map token_text ts))
  = join (py " ") (map token_text (kept ts)).
Proof. intros Hts. rewrite (sub_empty_array_fields ts Hts). reflexivity. Qed.

Lemma empty_arrays_removed_example :
  sub pat_empty_array (fun _ => []) (py "id=0 req_power={} load={1 2} granted_power={}")
  = py "id=0 load={1 2} granted_power={}".
Proof.
  apply (empty_arrays_removed
           [Scalar (py "id", py "0"); EmptyArray (py "req_power");
            Array (py "load") (py "1 2"); EmptyArray (py "granted_power")]).
  repeat constructor; simpl; try discriminate; intuition discriminate.
Defined.

End EmptyArrays.

(* ------------------------------------------------------------------------- *)
(** * [trace.txt] as a cache of [trace-cmd report] *)

Section Cache.

Variable read_csv : str -> res Pandas.DataFrame.
Variable trace_cmd_report : str -> res str.

(** X11.  Without a [trace.txt] and with a [trace.dat] on which
    [trace-cmd report] succeeds, the construction runs [trace-cmd] once,
    writes its output to [trace.txt] and goes on as a construction that finds
    this [trace.txt]; constructing again in the world it leaves gives the
    same outcome, and neither runs [trace-cmd] nor touches the files. *)
Theorem init_caches_report fuel marker dat out runs
  (w := mkWorld None (Some dat) runs)
  (w' := mkWorld (Some out) (Some dat) (S runs)) :
  trace_cmd_report dat = Ret out ->
  fst (init read_csv trace_cmd_report fuel marker w) = w'
  /\ init read_csv trace_cmd_report fuel marker w'
     = init read_csv trace_cmd_report fuel marker w.
Proof.
  intros Hout. subst w w'. unfold init, run_trace_cmd_report.
  cbn [trace_txt trace_dat trace_cmd_runs]. rewrite Hout. cbn [trace_txt].
  destruct (parse_into_csv fuel marker (readlines out) []) as [[?|?]|];
    split; reflexivity.
Qed.

(** X12.  Without a [trace.txt], an exception of [trace-cmd report] is the
    outcome of the construction: [trace-cmd] has been run, no [trace.txt] is
    written, and nothing is parsed. *)
Theorem init_report_fails fuel marker dat e runs :
  trace_cmd_report dat = Raise e ->
  init read_csv trace_cmd_report fuel marker (mkWorld None (Some dat) runs)
  = (mkWorld None (Some dat) (S runs), Some (Raise e)).
Proof.
  intros Hraise. unfold init, run_trace_cmd_report.
  cbn [trace_txt trace_dat trace_cmd_runs]. rewrite Hraise. reflexivity.
Qed.

End Cache.

Lemma init_caches_report_example :
  fst (init (fun _ => Raise ValueError) (fun _ => Ret (py "1.0: other: a=1
")) 0 (py "thermal_temperature:") (mkWorld None (Some (py "dat")) 0))
  = mkWorld (Some (py "1.0: other: a=1
")) (Some (py "dat")) 1
  /\ init (fun _ => Raise ValueError) (fun _ => Ret (py "1.0: other: a=1
")) 0 (py "thermal_temperature:")
       (mkWorld (Some (py "1.0: other: a=1
")) (Some (py "dat")) 1)
     = init (fun _ => Raise ValueError) (fun _ => Ret (py "1.0: other: a=1
")) 0 (py "thermal_temperature:") (mkWorld None (Some (py "dat")) 0).
Proof.
  apply (init_caches_report (fun _ => Raise ValueError) (fun _ => Ret (py "1.0: other: a=1
")) 0 (py "thermal_temperature:") (py "dat")).
  reflexivity.
Defined.

Lemma init_report_fails_example :
  init (fun _ => Raise ValueError) (fun _ => Raise OSError) 0 (py "thermal_temperature:")
    (mkWorld None (Some (py "dat")) 0)
  = (mkWorld None (Some (py "dat")) 1, Some (Raise OSError)).
Proof.
  apply (init_report_fails (fun _ => Raise ValueError) (fun _ => Raise OSError)).
  reflexivity.
Defined.

(* ------------------------------------------------------------------------- *)
(** * [normalize_time], again *)

(** X13.  Time shifts add up: on a table indexed by a [float64] [Time],
    [normalize_time] with [basetime1] and then with [basetime2] takes both
    from every [Time] value, one after the other, and keeps the order of
    the rows and the other columns. *)
Theorem normalize_time_twice (times : list float) cols basetime1 basetime2 :
  py "Time" ∉ map fst cols ->
  (df ← normalize_time (Pandas.mkDF (Some (py "Time")) (Pandas.FloatCol times) cols)
          basetime1;
   normalize_time df basetime2)
  = Ret (Pandas.mkDF (Some (py "Time"))
           (Pandas.FloatCol
              (map (fun t => PrimFloat.sub (PrimFloat.sub t basetime1) basetime2) times))
           cols).
Proof.
  intros Hnot.
  assert (Hshift : forall l basetime,
    normalize_time (Pandas.mkDF (Some (py "Time")) (Pandas.FloatCol l) cols) basetime
    = Ret (Pandas.mkDF (Some (py "Time"))
             (Pandas.FloatCol (map (fun t => PrimFloat.sub t basetime) l)) cols)).
  { intros l basetime. unfold normalize_time. revert Hnot.
    generalize (py "Time"). intros key Hnot.
    unfold Pandas.reset_index, Pandas.has_column.
    cbn [Pandas.index_name Pandas.columns Pandas.index].
    rewrite bool_decide_eq_false_2 by exact Hnot.
    unfold Pandas.getitem, Pandas.set_index, Pandas.setitem.
    repeat (cbn [mbind res_bind Pandas.columns Pandas.lookup_col Pandas.series_sub
                   Pandas.store_col Pandas.remove_col Pandas.index_name Pandas.index];
            rewrite ?(decide_True (P := key = key)) by reflexivity).
    reflexivity. }
  rewrite Hshift. cbn [mbind res_bind]. rewrite Hshift, map_map. reflexivity.
Qed.

Lemma normalize_time_twice_example :
  (df ← normalize_time
          (Pandas.mkDF (Some (py "Time")) (Pandas.FloatCol [10; 10.5; 11]%float)
             [(py "temp", Pandas.IntCol [45000; 45100; 45200]%Z)]) 4%float;
   normalize_time df 6%float)
  = Ret (Pandas.mkDF (Some (py "Time")) (Pandas.FloatCol [0; 0.5; 1]%float)
           [(py "temp", Pandas.IntCol [45000; 45100; 45200]%Z)]).
Proof.
  apply (normalize_time_twice [10; 10.5; 11]%float
           [(py "temp", Pandas.IntCol [45000; 45100; 45200]%Z)] 4%float 6%float).
  vm_compute. intros H. apply list_elem_of_In in H. simpl in H. destruct H as [H|[]]. discriminate.
Defined.

(* ------------------------------------------------------------------------- *)
(** * The columns of the power plots *)

Section PowerColumns.
Import Re ReFacts.

Lemma matches_literal_prefix lit p opens groups s r :
  matches (map Lit lit ++ p) opens groups s r <->
  exists s', s = lit ++ s' /\ matches p opens groups s' r.
Proof.
  revert s. induction lit as [|c lit IH]; intros s; simpl.
  - split; [eauto|]. intros (s' & -> & H). exact H.
  - split.
    + intros H. inversion H as [|? ? ? ? s0 ? Hm0| | | |]; subst.
      apply IH in Hm0 as (s' & -> & Hm). eauto.
    + intros (s' & -> & Hm). constructor. apply IH. eauto.
Qed.

(** [re.match] of a literal followed by [[0-9]+]: the literal and a digit
    start the string. *)
Lemma match_literal_digits lit s :
  is_Some (match_ (map Lit lit ++ [Plus digit]) s) <->
  exists c rest, digit c = true /\ s = lit ++ c :: rest.
Proof.
  assert (Hiff : is_Some (match_ (map Lit lit ++ [Plus digit]) s)
                 <-> is_Some (match_here (map Lit lit ++ [Plus digit]) [] [] s)).
  { unfold match_. destruct (match_here _ [] [] s) as [[gs rest]|]; split; intros [x Hx];
      try discriminate; eauto. }
  rewrite Hiff. split.
  - intros [r Hr]. apply match_here_sound, matches_literal_prefix in Hr as (s' & -> & Hm).
    inversion Hm as [| | |? ? ? ? a s0 ? Ha Hall _| |]; subst.
    destruct a as [|c a]; [congruence|].
    exists c, (a ++ s0). split; [|reflexivity].
    inversion Hall; subst; assumption.
  - intros (c & rest & Hc & ->).
    apply (match_here_complete _ _ _ _ ([], rest)), matches_literal_prefix.
    exists (c :: rest). split; [reflexivity|].
    apply (matches_plus digit [] [] [] [c] rest); [discriminate|repeat constructor; exact Hc|].
    constructor.
Qed.

Lemma columns_matching_sublist pat (columns : list str) :
  sublist (columns_matching pat columns) columns.
Proof.
  unfold columns_matching. induction columns as [|s l IH]; simpl; [constructor|].
  destruct (bool_decide _); [apply sublist_skip|apply sublist_cons]; exact IH.
Qed.

(** X14.  The columns of [plot_input_power] are the columns whose name
    starts with [req_power] and a digit, those of [plot_output_power] the
    ones whose name starts with [granted_power] and a digit, whatever
    follows the digit; both keep the order of the columns of the table. *)
Theorem power_columns_selected (columns : list str) :
  (forall s, In s (in_cols columns) <->
     In s columns /\ exists c rest, digit c = true /\ s = py "req_power" ++ c :: rest)
  /\ (forall s, In s (out_cols columns) <->
        In s columns /\ exists c rest, digit c = true /\ s = py "granted_power" ++ c :: rest)
  /\ sublist (in_cols columns) columns /\ sublist (out_cols columns) columns.
Proof.
  assert (Hsel : forall lit s,
            In s (columns_matching (map Lit lit ++ [Plus digit]) columns) <->
            In s columns /\ exists c rest, digit c = true /\ s = lit ++ c :: rest).
  { intros lit s. unfold columns_matching.
    rewrite filter_In, bool_decide_eq_true, match_literal_digits. reflexivity. }
  split; [|split; [|split]].
  - intros s. apply (Hsel (py "req_power")).
  - intros s. apply (Hsel (py "granted_power")).
  - apply columns_matching_sublist.
  - apply columns_matching_sublist.
Qed.

End PowerColumns.

(* ------------------------------------------------------------------------- *)
(** * The exploder on the fields of a line *)

Section ExplodeFields.
Import Re ReFacts.

Lemma join_app (sep : str) (l1 l2 : list str) :
  l1 <> [] -> l2 <> [] -> join sep (l1 ++ l2) = join sep l1 ++ sep ++ join sep l2.
Proof.
  intros H1 H2. induction l1 as [|x l1 IH]; [congruence|].
  destruct l1 as [|y l1].
  - destruct l2; [congruence|reflexivity].
  - change (join sep ((x :: y :: l1) ++ l2)) with (x ++ sep ++ join sep ((y :: l1) ++ l2)).
    rewrite IH by discriminate. cbn [join]. rewrite <- !app_assoc. reflexivity.
Qed.

(** The text of the columns of an array is the text of scalar fields. *)
Lemma columns_text_join name vals : forall idx,
  columns_text name idx vals = join (py " ") (map field_text (columns_of name idx vals)).
Proof.
  induction vals as [|v vals IH]; intros idx; [reflexivity|].
  destruct vals as [|v' vals].
  - cbn. unfold field_text. cbn [fst snd]. rewrite <- app_assoc. reflexivity.
  - change (columns_text name idx (v :: v' :: vals))
      with (name ++ str_of_nat idx ++ py "=" ++ v ++ py " "
            ++ columns_text name (S idx) (v' :: vals)).
    rewrite IH.
    change (columns_of name idx (v :: v' :: vals))
      with ((name ++ str_of_nat idx, v) :: columns_of name (S idx) (v' :: vals)).
    cbn [map]. rewrite join_cons. cbn [columns_of map].
    unfold field_text. cbn [fst snd].
    rewrite <- !app_assoc. reflexivity.
Qed.

Lemma columns_of_nonempty name idx vals : vals <> [] -> columns_of name idx vals <> [].
Proof. destruct vals; [congruence|discriminate]. Qed.

Lemma token_columns_nonempty width_of t :
  is_empty_array t = false -> token_columns width_of t <> [].
Proof.
  destruct t as [f|name elems|name]; simpl; [discriminate| |discriminate].
  intros _. apply columns_of_nonempty, padded_nonempty.
Qed.

Lemma flat_map_columns_nonempty width_of t ts :
  is_empty_array t = false -> flat_map (token_columns width_of) (t :: ts) <> [].
Proof.
  intros Ht H. apply app_eq_nil in H as [H _].
  exact (token_columns_nonempty width_of t Ht H).
Qed.

Lemma field_text_no_brace f : well_formed_field f -> ~ In "{"%char (field_text f).
Proof. intros Hf. apply field_text_plain; [exact Hf|reflexivity]. Qed.

(** The loop of the exploder over the fields that follow a text [pre]
    without arrays: every array is replaced by its columns, in one turn of
    the loop each. *)
Lemma explode_fields widths width_of : forall ts pre fuel,
  Forall well_formed_token ts ->
  Forall (fun t => is_empty_array t = false) ts ->
  (forall name elems, In (Array name elems) ts ->
     getitem widths name = Ret (width_of name)) ->
  List.last pre " "%char = " "%char -> ~ In "{"%char pre ->
  length (List.filter is_array ts) < fuel ->
  trace_parser_explode_array fuel (pre ++ join (py " ") (map token_text ts)) widths
  = Some (Ret (pre ++ join (py " ")
                        (map field_text (flat_map (token_columns width_of) ts)))).
Proof.
  induction ts as [|t ts IH]; intros pre fuel Hwf Hne Hwidths Hlast Hpre Hfuel.
  { destruct fuel as [|fuel]; [simpl in Hfuel; lia|].
    cbn [map join flat_map]. rewrite app_nil_r.
    cbn [trace_parser_explode_array]. rewrite explode_step_plain by exact Hpre. reflexivity. }
  inversion Hwf as [|? ? Ht Hts]; subst. inversion Hne as [|? ? Hnt Hnts]; subst.
  assert (Hwidths' : forall name elems, In (Array name elems) ts ->
            getitem widths name = Ret (width_of name)).
  { intros name elems Hin. apply (Hwidths name elems). right. exact Hin. }
  destruct t as [f|name elems|name]; [| |discriminate Hnt].
  - (* a scalar goes to the text in front *)
    cbn [flat_map token_columns app map]. cbn [token_text].
    destruct ts as [|t' ts].
    + destruct fuel as [|fuel]; [simpl in Hfuel; lia|].
      cbn [map join flat_map]. cbn [trace_parser_explode_array].
      rewrite explode_step_plain; [reflexivity|].
      rewrite in_app_iff. intros [Hin|Hin]; [tauto|].
      exact (field_text_no_brace f Ht Hin).
    + inversion Hnts as [|? ? Hnt' _]; subst.
      pose proof (flat_map_columns_nonempty width_of t' ts Hnt') as Hcols.
      change (join (py " ") (field_text f :: map token_text (t' :: ts)))
        with (field_text f ++ " "%char :: join (py " ") (map token_text (t' :: ts))).
      replace (pre ++ field_text f ++ " "%char :: join (py " ") (map token_text (t' :: ts)))
        with ((pre ++ field_text f ++ [" "%char]) ++ join (py " ") (map token_text (t' :: ts)))
        by (rewrite <- !app_assoc; reflexivity).
      rewrite (IH (pre ++ field_text f ++ [" "%char]) fuel Hts Hnts Hwidths').
      * destruct (flat_map (token_columns width_of) (t' :: ts)) as [|c cs]; [congruence|].
        cbn [map join]. rewrite <- !app_assoc. reflexivity.
      * rewrite app_assoc. apply last_last.
      * rewrite !in_app_iff. intros [Hin|[Hin|[Hin|[]]]]; [tauto| |discriminate Hin].
        exact (field_text_no_brace f Ht Hin).
      * exact Hfuel.
  - (* an array takes one turn *)
    destruct Ht as (Hname & Hnamec & Helems & Helemsc).
    assert (Hnameb : Forall (fun c => basename_char c = true) name).
    { eapply Forall_impl; [exact Hnamec|]. apply word_basename. }
    assert (Hwidth : getitem widths name = Ret (width_of name)).
    { apply (Hwidths name elems). left. reflexivity. }
    destruct fuel as [|fuel]; [simpl in Hfuel; lia|].
    simpl in Hfuel.
    assert (Hcolsne : map field_text
              (columns_of name 0 (padded (split " " elems) (width_of name))) <> []).
    { intros H. apply map_eq_nil in H.
      exact (columns_of_nonempty _ _ _ (padded_nonempty elems (width_of name)) H). }
    cbn [flat_map token_columns]. rewrite map_app.
    destruct ts as [|t' ts].
    + cbn [map join flat_map app token_text]. rewrite app_nil_r.
      replace (pre ++ name ++ py "={" ++ elems ++ py "}")
        with (pre ++ (name ++ py "={" ++ elems ++ py "}") ++ [])
        by (rewrite app_nil_r; reflexivity).
      rewrite (explode_first_token pre name elems [] widths (width_of name) fuel)
        by (assumption || (simpl; tauto)).
      destruct fuel as [|fuel]; [lia|].
      cbn [trace_parser_explode_array].
      rewrite explode_step_plain by (simpl; tauto).
      cbn [prepend]. rewrite app_nil_r, columns_text_join. reflexivity.
    + inversion Hnts as [|? ? Hnt' _]; subst.
      assert (Hcols : map field_text (flat_map (token_columns width_of) (t' :: ts)) <> []).
      { intros H. apply map_eq_nil in H.
        exact (flat_map_columns_nonempty width_of t' ts Hnt' H). }
      change (join (py " ") (map token_text (Array name elems :: t' :: ts)))
        with ((name ++ py "={" ++ elems ++ py "}")
              ++ [" "%char] ++ join (py " ") (map token_text (t' :: ts))).
      rewrite (explode_first_token pre name elems _ widths (width_of name) fuel);
        try assumption.
      * rewrite (IH [" "%char] fuel Hts Hnts Hwidths' eq_refl);
          [|simpl; intuition discriminate|lia].
        cbn [prepend]. rewrite columns_text_join.
        rewrite (join_app (py " ") _ _ Hcolsne Hcols).
        rewrite <- !app_assoc. reflexivity.
      * unfold first_word. simpl. tauto.
Qed.

End ExplodeFields.

Lemma getitem_defaultdict (m : gmap str nat) (name : str) :
  getitem (DefaultDict m) name = Ret (width_in m name).
Proof.
  unfold getitem, getitem_st, defaultdict_get, width_in.
  destruct (m !! name); reflexivity.
Qed.

(** X15.  On data made of scalars and arrays separated by single spaces,
    [trace_parser_explode_array] returns, in as many turns of its loop as
    there are arrays and one more, the data in which every array is replaced
    by its columns [name0=v0 name1=v1 ...], padded with [0] up to the length
    that the mapping has for the name, and every scalar is left as it is. *)
Theorem explode_all_fields (ts : list token) (widths : mapping) (width_of : str -> nat)
  (fuel : nat) :
  Forall well_formed_token ts ->
  Forall (fun t => is_empty_array t = false) ts ->
  (forall name elems, In (Array name elems) ts ->
     getitem widths name = Ret (width_of name)) ->
  length (List.filter is_array ts) < fuel ->
  trace_parser_explode_array fuel (join (py " ") (map token_text ts)) widths
  = Some (Ret (join (py " ") (map field_text (flat_map (token_columns width_of) ts)))).
Proof.
  intros Hwf Hne Hwidths Hfuel.
  apply (explode_fields widths width_of ts [] fuel Hwf Hne Hwidths eq_refl);
    [simpl; tauto|exact Hfuel].
Qed.

Lemma explode_all_fields_example :
  trace_parser_explode_array 3 (py "a=3 load={1 1 2 2} x={7} z=1")
    (DefaultDict {[ py "x" := 2 ]})
  = Some (Ret (py "a=3 load0=1 load1=1 load2=2 load3=2 x0=7 x1=0 z=1")).
Proof.
  refine (explode_all_fields
            [Scalar (py "a", py "3"); Array (py "load") (py "1 1 2 2");
             Array (py "x") (py "7"); Scalar (py "z", py "1")]
            (DefaultDict {[ py "x" := 2 ]}) (width_in {[ py "x" := 2 ]}) 3 _ _ _ _).
  - repeat constructor; simpl; discriminate.
  - repeat constructor.
  - intros name elems _. apply getitem_defaultdict.
  - simpl. lia.
Defined.

(* ------------------------------------------------------------------------- *)
(** * The table of a trace of well-formed records *)

Section Records.
Import Re ReFacts.

Ltac invert_matches :=
  repeat match goal with
    | H : matches (_ :: _) _ _ _ _ |- _ => inversion H; clear H; subst
    | H : matches [] _ _ _ _ |- _ => inversion H; clear H; subst
    end.

Lemma Forall_last {A} (P : A -> Prop) (l : list A) d :
  Forall P l -> l <> [] -> P (List.last l d).
Proof.
  induction 1 as [|x l Hx Hl IH]; [congruence|]. intros _.
  destruct l as [|y l]; [exact Hx|]. apply IH. discriminate.
Qed.

Lemma digits_plain c D : digit c = false -> Forall (fun x => digit x = true) D -> ~ In c D.
Proof.
  intros Hc HD Hin. rewrite Forall_forall in HD. apply list_elem_of_In, HD in Hin. congruence.
Qed.

(** ** The timestamp *)

(** A match of [([0-9]+\.[0-9]+):] is a number with a fraction and a
    colon. *)
Lemma pat_timestamp_inv s gs rest :
  match_here pat_timestamp [] [] s = Some (gs, rest) ->
  exists D1 D2, s = D1 ++ py "." ++ D2 ++ py ":" ++ rest
    /\ D1 <> [] /\ Forall (fun c => digit c = true) D1.
Proof.
  intros H. apply match_here_sound in H. unfold pat_timestamp in H.
  invert_matches. eauto 10.
Qed.

Lemma pat_timestamp_here secs frac rest :
  secs <> [] -> Forall (fun c => digit c = true) secs ->
  frac <> [] -> Forall (fun c => digit c = true) frac ->
  match_here pat_timestamp [] [] ((secs ++ py "." ++ frac ++ py ":") ++ rest)
  = Some ([secs ++ py "." ++ frac], rest).
Proof.
  intros Hsecs Hsecsd Hfrac Hfracd.
  replace ((secs ++ py "." ++ frac ++ py ":") ++ rest)
    with (secs ++ "."%char :: frac ++ ":"%char :: rest)
    by (rewrite <- !app_assoc; reflexivity).
  unfold pat_timestamp. cbn [match_here].
  rewrite span_app_stop by (exact Hsecsd || reflexivity).
  apply (backtrack_first _ _ _ (length secs)).
  - destruct secs; [congruence|simpl; lia].
  - rewrite drop_app_length. cbn [match_here]. rewrite Ascii.eqb_refl.
    rewrite span_app_stop by (exact Hfracd || reflexivity).
    apply (backtrack_first _ _ _ (length frac)).
    + destruct frac; [congruence|simpl; lia].
    + rewrite drop_app_length. cbn [match_here]. rewrite Ascii.eqb_refl.
      replace (secs ++ "."%char :: frac ++ ":"%char :: rest)
        with ((secs ++ py "." ++ frac) ++ ":"%char :: rest)
        by (rewrite <- !app_assoc; reflexivity).
      rewrite take_group by reflexivity. reflexivity.
    + intros i Hi. lia.
  - intros i Hi. lia.
Qed.

(** The first number with a fraction and a colon of the line of a record
    is its timestamp. *)
Lemma search_timestamp pre secs frac rest :
  ~ In "."%char pre -> digit (List.last pre " "%char) = false ->
  secs <> [] -> Forall (fun c => digit c = true) secs ->
  frac <> [] -> Forall (fun c => digit c = true) frac ->
  group1_of (search pat_timestamp (pre ++ (secs ++ py "." ++ frac ++ py ":") ++ rest))
  = Ret (secs ++ py "." ++ frac).
Proof.
  intros Hdot Hlast Hsecs Hsecsd Hfrac Hfracd.
  rewrite search_skip.
  - rewrite (search_here _ _ _
               (match_Some _ _ _ _ (pat_timestamp_here secs frac rest
                                      Hsecs Hsecsd Hfrac Hfracd))).
    reflexivity.
  - intros x y Hpre Hy.
    destruct (match_here pat_timestamp [] [] (y ++ (secs ++ py "." ++ frac ++ py ":") ++ rest))
      as [[gs rest']|] eqn:Hm; [exfalso|reflexivity].
    apply pat_timestamp_inv in Hm as (D1 & D2 & Heq & _ & HD1).
    assert (Heq' : (y ++ secs) ++ "."%char :: (frac ++ py ":" ++ rest)
                   = D1 ++ "."%char :: (D2 ++ py ":" ++ rest')).
    { transitivity (y ++ (secs ++ py "." ++ frac ++ py ":") ++ rest);
        [rewrite <- !app_assoc; reflexivity|exact Heq]. }
    apply first_occurrence in Heq' as [HyD _].
    + assert (Hyd : Forall (fun c => digit c = true) y).
      { rewrite <- HyD in HD1. apply Forall_app in HD1. apply HD1. }
      pose proof (Forall_last _ y " "%char Hyd Hy) as Hd. simpl in Hd.
      destruct y as [|c y]; [congruence|].
      rewrite Hpre, last_behind in Hlast. congruence.
    + rewrite in_app_iff. intros [Hin|Hin].
      * apply Hdot. rewrite Hpre. apply in_app_iff. auto.
      * exact (digits_plain "." secs eq_refl Hsecsd Hin).
    + exact (digits_plain "." D1 eq_refl HD1).
Qed.

(** ** The start of the data *)

Lemma pat_data_start_inv s gs rest :
  match_here pat_data_start [] [] s = Some (gs, rest) ->
  exists W, s = W ++ py "=" ++ rest /\ W <> [] /\ Forall (fun c => word c = true) W.
Proof.
  intros H. apply match_here_sound in H. unfold pat_data_start in H.
  invert_matches. eauto.
Qed.

Lemma pat_data_start_here k rest :
  k <> [] -> Forall (fun c => word c = true) k ->
  match_here pat_data_start [] [] ((k ++ py "=") ++ rest) = Some ([], rest).
Proof.
  intros Hk Hkw. rewrite <- app_assoc.
  change (py "=" ++ rest) with ("="%char :: rest).
  unfold pat_data_start. cbn [match_here].
  rewrite span_app_stop by (exact Hkw || reflexivity).
  apply (backtrack_first _ _ _ (length k)).
  - destruct k; [congruence|simpl; lia].
  - rewrite drop_app_length. cbn [match_here]. rewrite Ascii.eqb_refl. reflexivity.
  - intros i Hi. lia.
Qed.

(** Every field starts with its name and ["="]. *)
Lemma token_text_head t :
  well_formed_token t ->
  exists k r, token_text t = k ++ "="%char :: r
    /\ k <> [] /\ Forall (fun c => word c = true) k.
Proof.
  destruct t as [[k v]|name elems|name]; simpl.
  - intros (Hk & Hkw & _). exists k, v. auto.
  - intros (Hname & Hnamec & _). exists name, ("{"%char :: elems ++ py "}"). auto.
  - intros (Hname & Hnamec). exists name, (py "{}"). auto.
Qed.

(** The data of a line starts at the first [key=] of the line. *)
Lemma search_data_start head k r :
  ~ In "="%char head -> k <> [] -> Forall (fun c => word c = true) k ->
  from_start_of (search pat_data_start ((head ++ [" "%char]) ++ k ++ "="%char :: r))
  = Ret (k ++ "="%char :: r).
Proof.
  intros Hhead Hk Hkw.
  rewrite search_skip.
  - replace (k ++ "="%char :: r) with ((k ++ py "=") ++ r)
      by (rewrite <- app_assoc; reflexivity).
    rewrite (search_here _ _ _ (match_Some _ _ _ _ (pat_data_start_here k r Hk Hkw))).
    reflexivity.
  - intros x y Hxy Hy.
    destruct (match_here pat_data_start [] [] (y ++ k ++ "="%char :: r))
      as [[gs rest']|] eqn:Hm; [exfalso|reflexivity].
    apply pat_data_start_inv in Hm as (W & Heq & _ & HW).
    assert (Heq' : (y ++ k) ++ "="%char :: r = W ++ "="%char :: rest').
    { transitivity (y ++ k ++ "="%char :: r);
        [rewrite <- app_assoc; reflexivity|exact Heq]. }
    destruct y as [|c y0 _] using rev_ind; [congruence|].
    assert (Hc : c = " "%char).
    { rewrite app_assoc in Hxy. apply app_inj_tail in Hxy as [_ Hc]. congruence. }
    subst c.
    apply first_occurrence in Heq' as [HyW _].
    + rewrite <- HyW in HW. apply Forall_app in HW as [HW _].
      apply Forall_app in HW as [_ HW]. inversion HW as [|? ? Hsp _]. discriminate Hsp.
    + rewrite !in_app_iff. intros [[Hin|[Hin|[]]]|Hin].
      * apply Hhead. assert (Hin' : In "="%char (head ++ [" "%char])).
        { rewrite Hxy, !in_app_iff. auto. }
        apply in_app_iff in Hin' as [Hin'|[Hin'|[]]]; [exact Hin'|discriminate Hin'].
      * discriminate Hin.
      * exact (word_chars_plain k "=" eq_refl Hkw Hin).
    + exact (word_chars_plain W "=" eq_refl HW).
Qed.

(** ** The fields *)

(** With a last field that is not an empty array, the removal of the empty
    arrays leaves the fields that are not empty arrays. *)
Lemma kept_filled ts :
  is_empty_array (List.last ts (EmptyArray [])) = false -> kept ts = List.filter filled ts.
Proof.
  induction ts as [|t ts IH]; [reflexivity|]. intros Hlast.
  destruct ts as [|t' ts].
  - simpl in Hlast. unfold filled. destruct t; simpl in *; congruence.
  - change (List.last (t :: t' :: ts) (EmptyArray [])) with (List.last (t' :: ts) (EmptyArray []))
      in Hlast.
    specialize (IH Hlast).
    assert (Hk : kept (t :: t' :: ts)
                 = if is_empty_array t then kept (t' :: ts) else t :: kept (t' :: ts))
      by (destruct t; reflexivity).
    rewrite Hk, IH.
    change (List.filter filled (t :: t' :: ts))
      with (if filled t then t :: List.filter filled (t' :: ts)
            else List.filter filled (t' :: ts)).
    destruct t; reflexivity.
Qed.

Lemma columns_filled width_of ts :
  flat_map (token_columns width_of) (List.filter filled ts)
  = flat_map (token_columns width_of) ts.
Proof.
  induction ts as [|t ts IH]; [reflexivity|].
  destruct t; cbn [List.filter filled is_empty_array negb flat_map token_columns];
    rewrite IH; reflexivity.
Qed.

Lemma digit_word c : digit c = true -> word c = true.
Proof.
  intros H. unfold word. rewrite H.
  destruct (between 65 90 c), (between 97 122 c); reflexivity.
Qed.

Lemma plain_value (v : str) :
  ~ In " "%char v -> ~ In "{"%char v -> Forall (fun c => not_space_lbrace c = true) v.
Proof.
  intros Hs Hb. apply Forall_forall. intros c Hc. apply list_elem_of_In in Hc.
  unfold not_space_lbrace, except. apply andb_true_iff.
  split; apply negb_true_iff, Ascii.eqb_neq; intros ->; tauto.
Qed.

Lemma columns_of_well_formed name vals : forall idx,
  name <> [] -> Forall (fun c => word c = true) name ->
  Forall (fun v => v <> [] /\ ~ In " "%char v /\ ~ In "{"%char v) vals ->
  Forall well_formed_field (columns_of name idx vals).
Proof.
  intros idx Hname Hnamec Hvals. revert idx.
  induction Hvals as [|v vals (Hv & Hs & Hb) _ IH]; intros idx; [constructor|].
  cbn [columns_of]. constructor; [|apply IH].
  unfold well_formed_field. cbn [fst snd]. repeat split.
  - destruct name; [congruence|discriminate].
  - apply Forall_app. split; [exact Hnamec|].
    eapply Forall_impl; [apply str_of_nat_digits|]. apply digit_word.
  - exact Hv.
  - apply plain_value; assumption.
Qed.

(** The columns of well-formed fields are well-formed scalar fields. *)
Lemma token_columns_well_formed width_of t :
  well_formed_token t -> single_spaced t ->
  Forall well_formed_field (token_columns width_of t).
Proof.
  destruct t as [f|name elems|name]; cbn [well_formed_token single_spaced token_columns].
  - intros Hf _. constructor; [exact Hf|constructor].
  - intros (Hname & Hnamec & Helems & Helemsc) Hpieces.
    apply columns_of_well_formed; [exact Hname|exact Hnamec|].
    destruct (Forall_element _ Helemsc) as (_ & _ & Hlb).
    pose proof (padded_no_space elems (width_of name)) as Hsp.
    pose proof (padded_plain elems (width_of name) Hlb) as Hpl.
    assert (Hne : Forall (fun v : str => v <> []) (padded (split " " elems) (width_of name))).
    { unfold padded. apply Forall_app. split; [exact Hpieces|].
      apply Forall_forall. intros v Hv. apply elem_of_replicate in Hv as [-> _]. discriminate. }
    rewrite Forall_forall in Hsp, Hpl, Hne. apply Forall_forall.
    intros v Hv. auto.
  - intros _ _. constructor.
Qed.

Lemma record_columns_well_formed width_of ts :
  Forall well_formed_token ts -> Forall single_spaced ts ->
  Forall well_formed_field (flat_map (token_columns width_of) ts).
Proof.
  induction 1 as [|t ts Ht _ IH]; intros Hs; [constructor|].
  inversion Hs as [|? ? Hst Hsts]; subst.
  cbn [flat_map]. apply Forall_app. split; [|apply IH, Hsts].
  apply token_columns_well_formed; assumption.
Qed.

Lemma filter_length_le {A} (f : A -> bool) (l : list A) : length (List.filter f l) <= length l.
Proof. induction l as [|x l IH]; simpl; [lia|]. destruct (f x); simpl; lia. Qed.

Lemma Forall_filter_list {A} (P : A -> Prop) (f : A -> bool) (l : list A) :
  Forall P l -> Forall P (List.filter f l).
Proof.
  rewrite !Forall_forall. intros H x Hx. apply list_elem_of_In, filter_In in Hx as [Hx _].
  apply H, list_elem_of_In, Hx.
Qed.

(** The exploded data of a record are its columns. *)
Lemma explode_record_data (m : gmap str nat) ts fuel :
  Forall well_formed_token ts -> length ts < fuel ->
  trace_parser_explode_array fuel
    (join (py " ") (map token_text (List.filter filled ts))) (DefaultDict m)
  = Some (Ret (join (py " ") (map field_text (flat_map (token_columns (width_in m)) ts)))).
Proof.
  intros Hwf Hfuel.
  rewrite <- (columns_filled (width_in m) ts).
  apply (explode_fields (DefaultDict m) (width_in m) (List.filter filled ts) [] fuel).
  - apply Forall_filter_list, Hwf.
  - apply Forall_forall. intros t Ht. apply list_elem_of_In, filter_In in Ht as [_ Ht].
    unfold filled in Ht. apply negb_true_iff, Ht.
  - intros name elems _. apply getitem_defaultdict.
  - reflexivity.
  - simpl. tauto.
  - pose proof (filter_length_le is_array (List.filter filled ts)).
    pose proof (filter_length_le filled ts). lia.
Qed.

(** ** The line of a record *)

Lemma record_line_timestamp r c :
  drop_last (record_text r ++ [c])
  = rec_prefix r ++ (rec_seconds r ++ py "." ++ rec_fraction r ++ py ":")
    ++ (rec_middle r ++ py " " ++ record_data r).
Proof.
  rewrite drop_last_snoc. unfold record_text, record_timestamp.
  rewrite <- !app_assoc. reflexivity.
Qed.

Lemma record_line_data r c :
  drop_last (record_text r ++ [c])
  = ((rec_prefix r ++ record_timestamp r ++ py ":" ++ rec_middle r) ++ [" "%char])
    ++ record_data r.
Proof.
  rewrite drop_last_snoc. unfold record_text.
  rewrite <- !app_assoc. reflexivity.
Qed.

Lemma timestamp_of_record r c :
  well_formed_record r ->
  group1_of (search pat_timestamp (drop_last (record_text r ++ [c])))
  = Ret (record_timestamp r).
Proof.
  intros (Hdot & Hlast & Hsecs & Hsecsd & Hfrac & Hfracd & _).
  rewrite record_line_timestamp. apply search_timestamp; assumption.
Qed.

(** The payload of the line of a record: its fields without the empty
    arrays.  The last character of the line is not looked at. *)
Lemma payload_of_record r c :
  well_formed_record r ->
  payload (drop_last (record_text r ++ [c]))
  = Ret (join (py " ") (map token_text (List.filter filled (rec_tokens r)))).
Proof.
  intros (_ & _ & _ & Hsecsd & _ & Hfracd & Hpre & Hmid & Hne & Hwf & _ & Hlast).
  unfold payload. rewrite record_line_data.
  assert (Hhead : ~ In "="%char
            (rec_prefix r ++ record_timestamp r ++ py ":" ++ rec_middle r)).
  { unfold record_timestamp. rewrite !in_app_iff.
    intros [Hin|[[Hin|[Hin|Hin]]|[Hin|Hin]]]; try tauto.
    - exact (digits_plain "=" _ eq_refl Hsecsd Hin).
    - simpl in Hin. intuition discriminate.
    - exact (digits_plain "=" _ eq_refl Hfracd Hin).
    - simpl in Hin. intuition discriminate. }
  assert (Hdata : exists k r0, record_data r = k ++ "="%char :: r0
            /\ k <> [] /\ Forall (fun c => word c = true) k).
  { unfold record_data. destruct (rec_tokens r) as [|t ts]; [congruence|].
    inversion Hwf as [|? ? Ht _]; subst.
    destruct (token_text_head t Ht) as (k & r0 & Heq & Hk & Hkw).
    cbn [map]. rewrite join_cons, Heq.
    eexists k, _. split; [|split; assumption].
    rewrite <- app_assoc. reflexivity. }
  destruct Hdata as (k & r0 & Hdata & Hk & Hkw).
  rewrite Hdata, (search_data_start _ k r0 Hhead Hk Hkw). cbn [mbind res_bind].
  rewrite <- Hdata. unfold record_data.
  rewrite (sub_empty_array_fields _ Hwf), (kept_filled _ Hlast). reflexivity.
Qed.

(** The body of the loop of [__parse_into_csv] on the line of a record: the
    first record gives the header, and every record gives its row. *)
Lemma parse_line_record (m : gmap str nat) r c st fuel :
  well_formed_record r -> length (rec_tokens r) < fuel ->
  parse_line fuel (DefaultDict m) (record_text r ++ [c]) st
  = Some (Ret match header st with
              | [] => mkCsv (record_header (width_in m) r)
                        (record_header (width_in m) r ++ record_row (width_in m) r)
              | _ :: _ => mkCsv (header st) (data_csv st ++ record_row (width_in m) r)
              end).
Proof.
  intros Hr Hfuel. unfold parse_line.
  rewrite (timestamp_of_record r c Hr), (payload_of_record r c Hr).
  destruct Hr as (_ & _ & _ & _ & _ & _ & _ & _ & _ & Hwf & Hsp & _).
  rewrite (explode_record_data m _ fuel Hwf Hfuel).
  pose proof (record_columns_well_formed (width_in m) _ Hwf Hsp) as Hcols.
  rewrite (header_of_join _ Hcols), (row_of_join _ _ Hcols).
  destruct st as [h d]. cbn [header data_csv]. destruct h; reflexivity.
Qed.

(** ** The lines of a trace *)

(** After the header is set, every record adds its row. *)
Lemma parse_lines_rows (m : gmap str nat) marker fuel fin rs :
  trace_of marker fin rs ->
  Forall (fun r => length (rec_tokens r) < fuel) rs ->
  forall st, header st <> [] ->
  parse_lines fuel marker (DefaultDict m) fin st
  = Some (Ret (mkCsv (header st)
                 (data_csv st ++ flat_map (record_row (width_in m)) rs))).
Proof.
  induction 1 as [|line fin rs Hsel _ IH|r c fin rs Hsel Hr _ IH]; intros Hfuel st Hst.
  - destruct st as [h d]. cbn. rewrite app_nil_r. reflexivity.
  - cbn [parse_lines]. rewrite Hsel. apply IH; assumption.
  - inversion Hfuel as [|? ? Hf Hfs]; subst.
    cbn [parse_lines]. rewrite Hsel, (parse_line_record m r c st fuel Hr Hf).
    destruct (header st) as [|x h] eqn:Hh; [congruence|].
    rewrite (IH Hfs) by discriminate.
    cbn [header data_csv flat_map]. rewrite <- app_assoc. reflexivity.
Qed.

(** The first record sets the header. *)
Lemma parse_lines_trace (m : gmap str nat) marker fuel fin rs :
  trace_of marker fin rs ->
  Forall (fun r => length (rec_tokens r) < fuel) rs ->
  forall st, header st = [] ->
  parse_lines fuel marker (DefaultDict m) fin st
  = Some (Ret match rs with
              | [] => st
              | r :: _ => mkCsv (record_header (width_in m) r) (csv_of (width_in m) rs)
              end).
Proof.
  induction 1 as [|line fin rs Hsel _ IH|r c fin rs Hsel Hr Htrace _]; intros Hfuel st Hst.
  - reflexivity.
  - cbn [parse_lines]. rewrite Hsel. apply IH; assumption.
  - inversion Hfuel as [|? ? Hf Hfs]; subst.
    cbn [parse_lines]. rewrite Hsel, (parse_line_record m r c st fuel Hr Hf), Hst.
    rewrite (parse_lines_rows m marker fuel fin rs Htrace Hfs) by discriminate.
    cbn [header data_csv csv_of flat_map]. rewrite <- app_assoc. reflexivity.
Qed.

End Records.

(* ------------------------------------------------------------------------- *)
(** * A selected line that is not a record *)

Section Malformed.
Import Re ReFacts.

Lemma In_drop_last (c : ascii) (s : str) : In c (drop_last s) -> In c s.
Proof.
  unfold drop_last. generalize (length s - 1). intros n. revert s.
  induction n as [|n IH]; intros [|x s]; simpl; try tauto.
  intros [->|Hin]; auto.
Qed.

(** Without a ["."] there is no timestamp. *)
Lemma search_timestamp_none s : ~ In "."%char s -> search pat_timestamp s = None.
Proof.
  intros Hnot. apply search_nowhere. intros x y ->.
  destruct (match_here pat_timestamp [] [] y) as [[gs rest]|] eqn:Hm; [exfalso|reflexivity].
  apply pat_timestamp_inv in Hm as (D1 & D2 & -> & _).
  apply Hnot. rewrite !in_app_iff. simpl. tauto.
Qed.

(** Without a ["="] there are no data. *)
Lemma search_data_start_none s : ~ In "="%char s -> search pat_data_start s = None.
Proof.
  intros Hnot. apply search_nowhere. intros x y ->.
  destruct (match_here pat_data_start [] [] y) as [[gs rest]|] eqn:Hm; [exfalso|reflexivity].
  apply pat_data_start_inv in Hm as (W & -> & _).
  apply Hnot. rewrite !in_app_iff. simpl. tauto.
Qed.

Lemma parse_line_malformed fuel widths line st :
  ~ In "."%char line \/ ~ In "="%char line ->
  parse_line fuel widths line st = Some (Raise AttributeError).
Proof.
  intros Hline. unfold parse_line.
  destruct (group1_of (search pat_timestamp (drop_last line))) as [ts|e] eqn:Hts.
  - destruct Hline as [Hdot|Heq].
    + rewrite search_timestamp_none in Hts; [discriminate Hts|].
      intros Hin. apply Hdot, In_drop_last, Hin.
    + unfold payload. rewrite search_data_start_none; [reflexivity|].
      intros Hin. apply Heq, In_drop_last, Hin.
  - apply group1_of_raise in Hts. subst e. reflexivity.
Qed.

Lemma parse_lines_app fuel marker widths fin1 : forall fin2 st,
  parse_lines fuel marker widths (fin1 ++ fin2) st
  = match parse_lines fuel marker widths fin1 st with
    | Some (Ret st') => parse_lines fuel marker widths fin2 st'
    | r => r
    end.
Proof.
  induction fin1 as [|line fin1 IH]; intros fin2 st; [reflexivity|].
  cbn [app parse_lines].
  destruct (line_selected marker line) as [[|]|]; [| |reflexivity].
  - destruct (parse_line fuel widths line st) as [[st'|e]|]; [apply IH|reflexivity..].
  - apply IH.
Qed.

(** A marker that selects or rejects one line does so for every line. *)
Lemma scan_lines_total marker line b :
  line_selected marker line = Some b ->
  forall fin ret, is_Some (scan_lines marker fin ret).
Proof.
  intros Hsel. unfold line_selected in Hsel.
  destruct (compile marker) as [r|] eqn:Hr; [|discriminate Hsel].
  induction fin as [|l fin IH]; intros ret; cbn [scan_lines]; [eauto|].
  unfold line_selected. rewrite Hr. cbn.
  destruct (bool_decide _); apply IH.
Qed.

Lemma parse_lines_records_state (m : gmap str nat) marker fuel fin rs st :
  trace_of marker fin rs ->
  Forall (fun r => length (rec_tokens r) < fuel) rs ->
  exists st', parse_lines fuel marker (DefaultDict m) fin st = Some (Ret st').
Proof.
  intros Htrace Hfuel. destruct (header st) as [|c h] eqn:Hh.
  - rewrite (parse_lines_trace m marker fuel fin rs Htrace Hfuel st Hh). eauto.
  - rewrite (parse_lines_rows m marker fuel fin rs Htrace Hfuel st) by congruence. eauto.
Qed.

End Malformed.

(** X16.  One selected line without a ["."] or without a ["="], after any
    number of lines of well-formed records and before any other lines,
    makes [__parse_into_csv] raise [AttributeError]: the line is not
    skipped, and no table is made of the records before it. *)
Theorem parse_malformed_line (marker : str) (fin1 : file) (line : str) (fin2 : file)
  (rs : list trace_record) (fuel : nat) :
  trace_of marker fin1 rs ->
  Forall (fun r => length (rec_tokens r) < fuel) rs ->
  line_selected marker line = Some true ->
  ~ In "."%char line \/ ~ In "="%char line ->
  parse_into_csv fuel marker (fin1 ++ line :: fin2) [] = Some (Raise AttributeError).
Proof.
  intros Htrace Hfuel Hsel Hline. unfold parse_into_csv, get_trace_array_lengths.
  destruct (scan_lines_total marker line true Hsel (fin1 ++ line :: fin2) ∅) as [m ->].
  rewrite parse_lines_app.
  destruct (parse_lines_records_state m marker fuel fin1 rs (mkCsv [] []) Htrace Hfuel)
    as [st' ->].
  cbn [parse_lines]. rewrite Hsel, (parse_line_malformed fuel _ line st' Hline).
  reflexivity.
Qed.

Lemma parse_malformed_line_example :
  parse_into_csv 2 (py "m:")
    [py "1.0: m: a=1
"; py "m: interrupted
"; py "2.0: m: a=2
"] []
  = Some (Raise AttributeError).
Proof.
  refine (parse_malformed_line (py "m:")
            [py "1.0: m: a=1
"] (py "m: interrupted
") [py "2.0: m: a=2
"]
            [mkRecord [] (py "1") (py "0") (py " m:") [Scalar (py "a", py "1")]] 2 _ _ _ _).
  - refine (trace_of_record _
              (mkRecord [] (py "1") (py "0") (py " m:") [Scalar (py "a", py "1")])
              "010" _ _ _ _ _).
    + vm_compute. reflexivity.
    + unfold well_formed_record. cbn.
      repeat split; try discriminate; try (intuition discriminate);
        repeat constructor; try discriminate; intuition discriminate.
    + constructor.
  - repeat constructor; simpl; lia.
  - vm_compute. reflexivity.
  - left. simpl. intuition discriminate.
Defined.

(* ------------------------------------------------------------------------- *)
(** * The lengths of the arrays of a trace of well-formed records *)

Section TraceWidths.
Import Re ReFacts.

Lemma line_arrays_skip fuel pre s :
  (forall x y, pre = x ++ y -> y <> [] -> match_here pat_array [] [] (y ++ s) = None) ->
  line_arrays fuel (pre ++ s) = line_arrays fuel s.
Proof.
  intros H. destruct fuel as [|fuel]; [reflexivity|]. cbn [line_arrays].
  rewrite (search_skip _ _ _ H). destruct (search pat_array s) as [m|]; reflexivity.
Qed.

(** No array starts in a text without ["="] that a space follows. *)
Lemma pat_array_not_before y s :
  ~ In "="%char y -> match_here pat_array [] [] (y ++ " "%char :: s) = None.
Proof.
  intros Hy.
  destruct (match_here pat_array [] [] (y ++ " "%char :: s)) as [[gs rest]|] eqn:Hm;
    [exfalso|reflexivity].
  apply pat_array_inv in Hm as (N & B & Heq & _ & _ & HN & _).
  assert (Heq' : (y ++ [" "%char]) ++ s = N ++ "="%char :: ("{"%char :: B ++ py "}" ++ rest)).
  { rewrite <- app_assoc. exact Heq. }
  apply prefix_before in Heq' as (r & HNr & _).
  - rewrite HNr in HN. apply Forall_app in HN as [HN _].
    apply Forall_app in HN as [_ HN]. inversion HN as [|? ? Hsp _]. discriminate Hsp.
  - rewrite in_app_iff. simpl. intuition discriminate.
Qed.

Lemma after_field_shape c ts :
  length (after_field c ts) <= 1 \/ exists t, after_field c ts = " "%char :: t.
Proof. destruct ts; [left; simpl; lia|right; eexists; reflexivity]. Qed.

Lemma after_field_cons c t ts :
  after_field c (t :: ts) = " "%char :: token_text t ++ after_field c ts.
Proof.
  cbn [after_field map]. rewrite join_cons. destruct ts as [|t' ts].
  - rewrite app_nil_r. reflexivity.
  - cbn [map after_field]. rewrite <- app_assoc. reflexivity.
Qed.

(** No array is matched inside a scalar field of a line. *)
Lemma no_array_in_scalar f tail x y :
  well_formed_field f ->
  length tail <= 1 \/ (exists t, tail = " "%char :: t) ->
  field_text f = x ++ y -> y <> [] ->
  match_here pat_array [] [] (y ++ tail) = None.
Proof.
  intros Hf Htail Hxy Hy.
  destruct (match_here pat_array [] [] (y ++ tail)) as [[gs rest]|] eqn:Hm;
    [exfalso|reflexivity].
  apply pat_array_inv in Hm as (N & B & Heq & _ & _ & HN & HB & _).
  assert (Hbrace : ~ In "{"%char y).
  { intros Hin. apply (field_text_plain f "{" Hf eq_refl). rewrite Hxy.
    apply in_app_iff. auto. }
  assert (Heq' : y ++ tail = (N ++ py "={") ++ (B ++ py "}" ++ rest)).
  { rewrite <- app_assoc. exact Heq. }
  destruct Htail as [Hshort|[t ->]].
  - apply app_eq_app in Heq' as [l [[Hyl _]|[_ Htl]]].
    + apply Hbrace. rewrite Hyl, !in_app_iff. simpl. tauto.
    + assert (Hlen : length tail = length (l ++ B ++ py "}" ++ rest)) by (rewrite Htl; reflexivity).
      rewrite !length_app in Hlen. simpl in Hlen.
      destruct B; [congruence|simpl in Hlen; lia].
  - symmetry in Heq'. apply prefix_before in Heq' as (r & Hyr & _).
    + apply Hbrace. rewrite Hyr, !in_app_iff. simpl. tauto.
    + rewrite in_app_iff. simpl.
      pose proof (word_chars_plain N " " eq_refl HN). intuition discriminate.
Qed.

(** No array is matched inside an empty array. *)
Lemma no_array_in_empty name tail x y :
  Forall (fun c => word c = true) name ->
  name ++ py "={}" = x ++ y -> y <> [] ->
  match_here pat_array [] [] (y ++ tail) = None.
Proof.
  intros Hname Hxy Hy.
  destruct (match_here pat_array [] [] (y ++ tail)) as [[gs rest]|] eqn:Hm;
    [exfalso|reflexivity].
  apply pat_array_inv in Hm as (N & B & Heq & _ & _ & HN & HB & HBr).
  destruct y as [|c y0 _] using rev_ind; [congruence|].
  assert (Hx : x ++ y0 = name ++ py "={" /\ c = "}"%char).
  { change (name ++ py "={}") with (name ++ py "={" ++ ["}"%char]) in Hxy.
    rewrite !app_assoc in Hxy. apply app_inj_tail in Hxy as [Hx Hc].
    split; congruence. }
  destruct Hx as [Hx ->].
  assert (Hy0 : ~ In "}"%char y0).
  { intros Hin. assert (Hin' : In "}"%char (name ++ py "={")).
    { rewrite <- Hx. apply in_app_iff. auto. }
    apply in_app_iff in Hin' as [Hin'|Hin'].
    - exact (word_chars_plain name "}" eq_refl Hname Hin').
    - simpl in Hin'. intuition discriminate. }
  assert (Heq' : y0 ++ "}"%char :: tail = (N ++ py "={" ++ B) ++ "}"%char :: rest).
  { rewrite <- !app_assoc. rewrite <- app_assoc in Heq. exact Heq. }
  apply first_occurrence in Heq' as [Hy0' _]; [|exact Hy0|].
  - rewrite Hy0' in Hx.
    assert (Hx' : (name ++ ["="%char]) ++ ["{"%char]
                  = (x ++ N ++ ["="%char]) ++ "{"%char :: B).
    { rewrite <- !app_assoc. symmetry. exact Hx. }
    apply prefix_before in Hx' as (r & _ & Hr).
    + assert (Hlen : length ["{"%char] = length (r ++ "{"%char :: B)) by (rewrite Hr; reflexivity).
      rewrite length_app in Hlen. simpl in Hlen. destruct B; [congruence|simpl in Hlen; lia].
    + rewrite in_app_iff. simpl.
      pose proof (word_chars_plain name "{" eq_refl Hname). intuition discriminate.
  - rewrite !in_app_iff. simpl.
    pose proof (word_chars_plain N "}" eq_refl HN).
    pose proof (not_rbrace_not_in B HBr). intuition discriminate.
Qed.

Lemma search_array_short s : length s <= 1 -> search pat_array s = None.
Proof.
  intros Hs. apply search_nowhere. intros x y ->.
  destruct (match_here pat_array [] [] y) as [[gs rest]|] eqn:Hm; [exfalso|reflexivity].
  apply pat_array_inv in Hm as (N & B & -> & _).
  rewrite !length_app in Hs. simpl in Hs. lia.
Qed.

(** The loop of [get_trace_array_lengths] over the fields of a line meets
    the arrays with elements, in order. *)
Lemma line_arrays_fields c : forall ts fuel,
  Forall well_formed_token ts -> length (token_arrays ts) <= fuel ->
  line_arrays fuel (after_field c ts) = token_arrays ts.
Proof.
  induction ts as [|t ts IH]; intros fuel Hwf Hfuel.
  - destruct fuel as [|fuel]; [reflexivity|]. cbn [line_arrays after_field].
    rewrite search_array_short by (simpl; lia). reflexivity.
  - inversion Hwf as [|? ? Ht Hts]; subst. rewrite after_field_cons.
    pose proof (after_field_shape c ts) as Hshape.
    destruct t as [f|name elems|name].
    + change (" "%char :: token_text (Scalar f) ++ after_field c ts)
        with ((" "%char :: field_text f) ++ after_field c ts).
      rewrite line_arrays_skip; [exact (IH fuel Hts Hfuel)|].
      intros x y Hxy Hy. destruct x as [|a x].
      * simpl in Hxy. subst y. reflexivity.
      * injection Hxy as _ Hxy. exact (no_array_in_scalar f _ x y Ht Hshape Hxy Hy).
    + destruct Ht as (Hname & Hnamec & Helems & Helemsc).
      destruct (Forall_element _ Helemsc) as (Hrb & _ & _).
      change (token_arrays (Array name elems :: ts))
        with ((name, length (split " " elems)) :: token_arrays ts) in Hfuel |- *.
      cbn [length] in Hfuel.
      destruct fuel as [|fuel]; [lia|].
      cbn [line_arrays search].
      rewrite (match_None pat_array (" "%char :: _)) by reflexivity.
      assert (Hs : search pat_array (token_text (Array name elems) ++ after_field c ts)
                   = Some (mkMatch [] (token_text (Array name elems)) (after_field c ts)
                             [name; elems])).
      { apply search_here, match_Some. cbn [token_text]. rewrite <- !app_assoc.
        apply pat_array_token; assumption. }
      rewrite Hs. cbn [option_map shift groups after nth].
      f_equal. apply IH; [exact Hts|lia].
    + destruct Ht as (Hname & Hnamec).
      change (" "%char :: token_text (EmptyArray name) ++ after_field c ts)
        with ((" "%char :: name ++ py "={}") ++ after_field c ts).
      rewrite line_arrays_skip; [exact (IH fuel Hts Hfuel)|].
      intros x y Hxy Hy. destruct x as [|a x].
      * simpl in Hxy. subst y. reflexivity.
      * injection Hxy as _ Hxy. exact (no_array_in_empty name _ x y Hnamec Hxy Hy).
Qed.

Lemma tokens_length ts :
  Forall well_formed_token ts -> length ts <= length (join (py " ") (map token_text ts)).
Proof.
  induction 1 as [|t ts Ht _ IH]; [simpl; lia|].
  cbn [map]. rewrite join_cons, length_app.
  destruct (token_text_head t Ht) as (k & r0 & -> & Hk & _).
  rewrite length_app. destruct k; [congruence|].
  destruct ts as [|t' ts]; [simpl; lia|].
  cbn [map] in IH |- *. rewrite length_app. simpl in *. lia.
Qed.

Lemma token_arrays_length ts : length (token_arrays ts) <= length ts.
Proof.
  induction ts as [|t ts IH]; [simpl; lia|].
  destruct t; simpl in *; lia.
Qed.

Lemma token_arrays_positive ts : Forall (fun p => 0 < snd p) (token_arrays ts).
Proof.
  induction ts as [|t ts IH]; [constructor|].
  destruct t; simpl; [exact IH| |exact IH].
  constructor; [apply split_length_pos|exact IH].
Qed.

Lemma record_head_plain r :
  well_formed_record r ->
  ~ In "="%char (rec_prefix r ++ record_timestamp r ++ py ":" ++ rec_middle r).
Proof.
  intros (_ & _ & _ & Hsecsd & _ & Hfracd & Hpre & Hmid & _).
  unfold record_timestamp. rewrite !in_app_iff.
  intros [Hin|[[Hin|[Hin|Hin]]|[Hin|Hin]]]; try tauto.
  - exact (digits_plain "=" _ eq_refl Hsecsd Hin).
  - simpl in Hin. intuition discriminate.
  - exact (digits_plain "=" _ eq_refl Hfracd Hin).
  - simpl in Hin. intuition discriminate.
Qed.

Lemma record_text_fields r c :
  rec_tokens r <> [] ->
  record_text r ++ [c]
  = (rec_prefix r ++ record_timestamp r ++ py ":" ++ rec_middle r)
    ++ after_field c (rec_tokens r).
Proof.
  intros Hne. unfold record_text, record_data.
  destruct (rec_tokens r); [congruence|]. cbn [after_field].
  rewrite <- !app_assoc. reflexivity.
Qed.

Lemma after_field_space c ts :
  ts <> [] ->
  exists Z, after_field c ts = " "%char :: Z
    /\ length (join (py " ") (map token_text ts)) < length (after_field c ts).
Proof.
  destruct ts as [|t ts]; [congruence|]. intros _. eexists. split; [reflexivity|].
  cbn [after_field length]. rewrite length_app. simpl. lia.
Qed.

(** The arrays that the loop meets on the line of a record. *)
Lemma line_arrays_record r c :
  well_formed_record r ->
  line_arrays (length (record_text r ++ [c])) (record_text r ++ [c])
  = token_arrays (rec_tokens r).
Proof.
  intros Hr. pose proof (record_head_plain r Hr) as Hhead.
  destruct Hr as (_ & _ & _ & _ & _ & _ & _ & _ & Hne & Hwf & _).
  rewrite (record_text_fields r c Hne).
  destruct (after_field_space c _ Hne) as (Z & HZ & Hlen).
  rewrite line_arrays_skip.
  - apply line_arrays_fields; [exact Hwf|].
    pose proof (token_arrays_length (rec_tokens r)).
    pose proof (tokens_length _ Hwf).
    rewrite length_app. lia.
  - intros x y Hxy Hy. rewrite HZ. apply pat_array_not_before.
    intros Hin. apply Hhead. rewrite Hxy. apply in_app_iff. auto.
Qed.

Lemma foldl_record_widths (l : list (str * nat)) :
  Forall (fun p => 0 < snd p) l ->
  forall ret : gmap str nat,
    foldl (fun r p => record_length r (fst p) (snd p)) ret l
    = merge_widths ret (widths_of l).
Proof.
  induction 1 as [|p l Hp _ IH]; intros ret; cbn [foldl widths_of foldr].
  - symmetry. apply merge_widths_empty_r.
  - rewrite IH, (record_length_merge _ _ _ Hp), merge_widths_assoc. reflexivity.
Qed.

Lemma widths_of_app (a b : list (str * nat)) :
  widths_of (a ++ b) = merge_widths (widths_of a) (widths_of b).
Proof.
  induction a as [|p a IH]; cbn [app widths_of foldr].
  - symmetry. apply merge_widths_empty_l.
  - fold (widths_of (a ++ b)). fold (widths_of a).
    rewrite IH, merge_widths_assoc. reflexivity.
Qed.

(** The lengths after the lines of a trace: the largest lengths of the
    arrays of its records. *)
Lemma scan_lines_trace_widths marker fin rs :
  trace_of marker fin rs ->
  forall ret, scan_lines marker fin ret = Some (merge_widths ret (trace_widths rs)).
Proof.
  induction 1 as [|line fin rs Hsel _ IH|r c fin rs Hsel Hr _ IH]; intros ret;
    cbn [scan_lines].
  - rewrite merge_widths_empty_r. reflexivity.
  - rewrite Hsel. apply IH.
  - rewrite Hsel, IH, scan_line_arrays, (line_arrays_record r c Hr).
    rewrite (foldl_record_widths _ (token_arrays_positive _)).
    unfold trace_widths. cbn [trace_arrays flat_map].
    rewrite widths_of_app, merge_widths_assoc. reflexivity.
Qed.

Lemma width_in_merge (a b : gmap str nat) name :
  width_in (merge_widths a b) name = Nat.max (width_in a name) (width_in b name).
Proof.
  unfold width_in. rewrite lookup_merge_widths.
  destruct (a !! name), (b !! name); simpl; lia.
Qed.

Lemma width_in_widths_of (l : list (str * nat)) name :
  width_in (widths_of l) name = largest name l.
Proof.
  induction l as [|p l IH]; [reflexivity|].
  cbn [widths_of foldr]. fold (widths_of l). rewrite width_in_merge, IH.
  unfold largest. cbn [List.filter]. unfold width_in at 1.
  destruct (decide (fst p = name)) as [Heq|Hne].
  - rewrite bool_decide_eq_true_2 by exact Heq. rewrite Heq, lookup_singleton_eq.
    reflexivity.
  - rewrite bool_decide_eq_false_2 by exact Hne.
    rewrite lookup_singleton_ne by exact Hne. reflexivity.
Qed.

(** The table of a trace. *)
Lemma parse_into_csv_table marker fin rs fuel :
  trace_of marker fin rs ->
  Forall (fun r => length (rec_tokens r) < fuel) rs ->
  parse_into_csv fuel marker fin [] = Some (Ret (table_of rs)).
Proof.
  intros Htrace Hfuel. unfold parse_into_csv, get_trace_array_lengths.
  rewrite (scan_lines_trace_widths marker fin rs Htrace), merge_widths_empty_l.
  rewrite (parse_lines_trace _ marker fuel fin rs Htrace Hfuel) by reflexivity.
  destruct rs; reflexivity.
Qed.

End TraceWidths.

(** X17.  For a file in which every line that the marker selects is the
    text of a well-formed record and one more character,
    [get_trace_array_lengths] returns exactly the largest length of each
    array name among the arrays with elements of the records; scalars,
    empty arrays and lines that are not selected add nothing. *)
Theorem trace_array_lengths (marker : str) (fin : file) (rs : list trace_record) :
  trace_of marker fin rs ->
  get_trace_array_lengths marker fin = Some (trace_widths rs)
  /\ forall name, width_in (trace_widths rs) name = largest name (trace_arrays rs).
Proof.
  intros Htrace. split.
  - unfold get_trace_array_lengths.
    rewrite (scan_lines_trace_widths marker fin rs Htrace). f_equal.
    apply merge_widths_empty_l.
  - intros name. apply width_in_widths_of.
Qed.

(** A trace of two records with a line of another event between them. *)
Lemma power_trace_example :
  trace_of (py "power:")
    [py "  1.0: power: a={1 2} b=3,5 c={} e=1
"; py "2.0: other: a={1 2 3 4}
"; py "3.25: power: a={1 2 3} b=3
"]
    [mkRecord (py "  ") (py "1") (py "0") (py " power:")
       [Array (py "a") (py "1 2"); Scalar (py "b", py "3,5");
        EmptyArray (py "c"); Scalar (py "e", py "1")];
     mkRecord [] (py "3") (py "25") (py " power:")
       [Array (py "a") (py "1 2 3"); Scalar (py "b", py "3")]].
Proof.
  refine (trace_of_record _
            (mkRecord (py "  ") (py "1") (py "0") (py " power:")
               [Array (py "a") (py "1 2"); Scalar (py "b", py "3,5");
                EmptyArray (py "c"); Scalar (py "e", py "1")]) "010" _ _ _ _ _).
  - vm_compute. reflexivity.
  - unfold well_formed_record. cbn.
    repeat split; try discriminate; try (intuition discriminate);
      repeat constructor; try discriminate; intuition discriminate.
  - refine (trace_of_skip _ _ _ _ _ _); [vm_compute; reflexivity|].
    refine (trace_of_record _
              (mkRecord [] (py "3") (py "25") (py " power:")
                 [Array (py "a") (py "1 2 3"); Scalar (py "b", py "3")]) "010" _ _ _ _ _).
    + vm_compute. reflexivity.
    + unfold well_formed_record. cbn.
      repeat split; try discriminate; try (intuition discriminate);
        repeat constructor; try discriminate; intuition discriminate.
    + constructor.
Defined.

Lemma trace_array_lengths_example :
  get_trace_array_lengths (py "power:")
    [py "  1.0: power: a={1 2} b=3,5 c={} e=1
"; py "2.0: other: a={1 2 3 4}
"; py "3.25: power: a={1 2 3} b=3
"]
  = Some (trace_widths
            [mkRecord (py "  ") (py "1") (py "0") (py " power:")
               [Array (py "a") (py "1 2"); Scalar (py "b", py "3,5");
                EmptyArray (py "c"); Scalar (py "e", py "1")];
             mkRecord [] (py "3") (py "25") (py " power:")
               [Array (py "a") (py "1 2 3"); Scalar (py "b", py "3")]])
  /\ forall name,
       width_in (trace_widths
                   [mkRecord (py "  ") (py "1") (py "0") (py " power:")
                      [Array (py "a") (py "1 2"); Scalar (py "b", py "3,5");
                       EmptyArray (py "c"); Scalar (py "e", py "1")];
                    mkRecord [] (py "3") (py "25") (py " power:")
                      [Array (py "a") (py "1 2 3"); Scalar (py "b", py "3")]]) name
       = largest name
           (trace_arrays
              [mkRecord (py "  ") (py "1") (py "0") (py " power:")
                 [Array (py "a") (py "1 2"); Scalar (py "b", py "3,5");
                  EmptyArray (py "c"); Scalar (py "e", py "1")];
               mkRecord [] (py "3") (py "25") (py " power:")
                 [Array (py "a") (py "1 2 3"); Scalar (py "b", py "3")]]).
Proof. exact (trace_array_lengths _ _ _ power_trace_example). Defined.

(** The lengths of this trace: the line of the other event, with its four
    elements, does not count. *)
Example trace_widths_example :
  trace_widths
    [mkRecord (py "  ") (py "1") (py "0") (py " power:")
       [Array (py "a") (py "1 2"); Scalar (py "b", py "3,5");
        EmptyArray (py "c"); Scalar (py "e", py "1")];
     mkRecord [] (py "3") (py "25") (py " power:")
       [Array (py "a") (py "1 2 3"); Scalar (py "b", py "3")]]
  = {[ py "a" := 3 ]}.
Proof. vm_compute. reflexivity. Qed.

(** X18.  For a file in which every line that the marker selects is the
    text of a well-formed record and one more character, the line break (a
    timestamp [seconds.fraction:] that is the first such number of the
    line, then, after a space, scalars, arrays with single spaces and empty
    arrays separated by single spaces, the first [key=] of the line being
    the first field and the last field not an empty array),
    [__parse_into_csv] raises nothing and leaves in
    [data_csv] the header of the first record, [Time] and the names of its
    columns, followed by one row for each record in the order of the file:
    its timestamp and the values of its columns without their commas.  The
    columns of a record are its scalars and, for each array, one column per
    element and per missing element up to the largest length of the arrays
    of this name in the records; empty arrays have none.
    The rows of later records are not checked against the header, and the
    last character of a selected line is dropped whatever it is. *)
Theorem parse_trace (marker : str) (fin : file) (rs : list trace_record) (fuel : nat) :
  trace_of marker fin rs ->
  Forall (fun r => length (rec_tokens r) < fuel) rs ->
  parse_into_csv fuel marker fin [] = Some (Ret (table_of rs)).
Proof.
  intros Htrace Hfuel.
  rewrite (parse_into_csv_table marker fin rs fuel Htrace Hfuel). reflexivity.
Qed.

Lemma parse_trace_example :
  parse_into_csv 5 (py "power:")
    [py "  1.0: power: a={1 2} b=3,5 c={} e=1
"; py "2.0: other: a={1 2 3 4}
"; py "3.25: power: a={1 2 3} b=3
"] []
  = Some (Ret (table_of
                 [mkRecord (py "  ") (py "1") (py "0") (py " power:")
                    [Array (py "a") (py "1 2"); Scalar (py "b", py "3,5");
                     EmptyArray (py "c"); Scalar (py "e", py "1")];
                  mkRecord [] (py "3") (py "25") (py " power:")
                    [Array (py "a") (py "1 2 3"); Scalar (py "b", py "3")]])).
Proof.
  refine (parse_trace (py "power:") _ _ 5 power_trace_example _).
  repeat constructor; simpl; lia.
Defined.

(** The table of the records of this example, and the run of the parser
    on its lines. *)
Example table_of_example :
  table_of
    [mkRecord (py "  ") (py "1") (py "0") (py " power:")
       [Array (py "a") (py "1 2"); Scalar (py "b", py "3,5");
        EmptyArray (py "c"); Scalar (py "e", py "1")];
     mkRecord [] (py "3") (py "25") (py " power:")
       [Array (py "a") (py "1 2 3"); Scalar (py "b", py "3")]]
  = py "Time,a0,a1,a2,b,e
1.0,1,2,0,35,1
3.25,1,2,3,3
"
  /\ parse_into_csv 5 (py "power:")
       [py "  1.0: power: a={1 2} b=3,5 c={} e=1
"; py "2.0: other: a={1 2 3 4}
"; py "3.25: power: a={1 2 3} b=3
"] []
     = Some (Ret (py "Time,a0,a1,a2,b,e
1.0,1,2,0,35,1
3.25,1,2,3,3
")).
Proof. split; vm_compute; reflexivity. Qed.

(** A last line without a line break loses its last character: the line
    [1.0: m: a=15] is the text of the record with [a=1] followed by [5]. *)
Example unterminated_last_line :
  trace_of (py "m:") [py "1.0: m: a=15"]
    [mkRecord [] (py "1") (py "0") (py " m:") [Scalar (py "a", py "1")]]
  /\ parse_into_csv 1 (py "m:") [py "1.0: m: a=15"] []
     = Some (Ret (py "Time,a
1.0,1
")).
Proof.
  split; [|vm_compute; reflexivity].
  refine (trace_of_record _
            (mkRecord [] (py "1") (py "0") (py " m:") [Scalar (py "a", py "1")])
            "5" _ _ _ _ _).
  - vm_compute. reflexivity.
  - unfold well_formed_record. cbn.
    repeat split; try discriminate; try (intuition discriminate);
      repeat constructor; try discriminate; intuition discriminate.
  - constructor.
Qed.

(* ------------------------------------------------------------------------- *)
(** * The columns of an array on a line of a trace *)

Section ColumnsOnLine.

(** A selected line of a trace is the line of one of its records. *)
Lemma trace_of_selected marker fin rs line :
  trace_of marker fin rs -> selected_line marker fin line ->
  exists r c, In r rs /\ well_formed_record r /\ line = record_text r ++ [c].
Proof.
  intros Htrace [Hin Hsel].
  induction Htrace as [|l fin rs Hl _ IH|r c fin rs Hl Hr _ IH].
  - destruct Hin.
  - destruct Hin as [->|Hin]; [congruence|]. apply IH, Hin.
  - destruct Hin as [<-|Hin].
    + exists r, c. split; [left; reflexivity|]. split; [exact Hr|reflexivity].
    + destruct (IH Hin) as (r' & c' & Hin' & Hr' & Heq).
      exists r', c'. split; [right; exact Hin'|]. split; assumption.
Qed.

Lemma largest_ge name n (l : list (str * nat)) : In (name, n) l -> n <= largest name l.
Proof.
  unfold largest. induction l as [|p l IH]; intros Hin; [destruct Hin|].
  cbn [List.filter]. destruct Hin as [->|Hin].
  - cbn [fst]. rewrite bool_decide_eq_true_2 by reflexivity. cbn [map foldr snd]. lia.
  - specialize (IH Hin). destruct (bool_decide (fst p = name)); cbn [map foldr]; lia.
Qed.

(** An array of a record of the trace is one of the arrays of the trace. *)
Lemma array_in_trace_arrays rs r before name elements behind :
  In r rs -> rec_tokens r = before ++ Array name elements :: behind ->
  In (name, length (split " " elements)) (trace_arrays rs).
Proof.
  intros Hin Htok. unfold trace_arrays. apply List.in_flat_map. exists r.
  split; [exact Hin|]. unfold token_arrays. apply List.in_flat_map.
  exists (Array name elements). split.
  - rewrite Htok. apply in_app_iff. right. left. reflexivity.
  - left. reflexivity.
Qed.

(** A length that is not [0] is an entry of the mapping. *)
Lemma width_in_entry (m : gmap str nat) name :
  0 < width_in m name -> m !! name = Some (width_in m name).
Proof. unfold width_in. destruct (m !! name); simpl; [reflexivity|lia]. Qed.

Lemma columns_of_length name vals : forall idx,
  length (columns_of name idx vals) = length vals.
Proof. induction vals as [|v vals IH]; intros idx; simpl; [reflexivity|]. rewrite IH. reflexivity. Qed.

Lemma columns_of_values name vals : forall idx, map snd (columns_of name idx vals) = vals.
Proof. induction vals as [|v vals IH]; intros idx; simpl; [reflexivity|]. rewrite IH. reflexivity. Qed.

End ColumnsOnLine.

(** C3 (amended).  In a file in which every line that the marker selects is
    the text of a well-formed record and one more character, the line break
    that [line[:-1]] drops, take any selected line.  It is the line of a
    record [r] of the trace, and with the lengths [widths] that
    [get_trace_array_lengths] returns for the file:
    - the data that [__parse_into_csv] cuts out of the line are the fields
      of [r] without the empty arrays, and [trace_parser_explode_array]
      turns them into the columns of [r], of which the body of the loop
      makes the row of the line;
    - for every field [name={elements}] of the line that is an array with
      elements, [widths] has a length for [name] that is at least the number
      of the elements, and the columns that stand for the field among the
      columns of the line are exactly as many as this length: the elements,
      then zeros, under the names [name0], [name1], ... *)
Theorem exploded_columns_equal_width (marker : str) (fin : file) (rs : list trace_record)
  (fuel : nat) (line : str) :
  trace_of marker fin rs ->
  Forall (fun r => length (rec_tokens r) < fuel) rs ->
  selected_line marker fin line ->
  exists (widths : gmap str nat) (r : trace_record) (c : ascii),
    get_trace_array_lengths marker fin = Some widths
    /\ In r rs /\ line = record_text r ++ [c]
    /\ payload (drop_last line)
       = Ret (join (py " ") (map token_text (List.filter filled (rec_tokens r))))
    /\ trace_parser_explode_array fuel
         (join (py " ") (map token_text (List.filter filled (rec_tokens r))))
         (DefaultDict widths)
       = Some (Ret (join (py " ") (map field_text (record_columns (width_in widths) r))))
    /\ (forall st,
          parse_line fuel (DefaultDict widths) line st
          = Some (Ret match header st with
                      | [] => mkCsv (record_header (width_in widths) r)
                                (record_header (width_in widths) r
                                 ++ record_row (width_in widths) r)
                      | _ :: _ => mkCsv (header st)
                                    (data_csv st ++ record_row (width_in widths) r)
                      end))
    /\ forall before name elements behind,
         rec_tokens r = before ++ Array name elements :: behind ->
         exists width,
           widths !! name = Some width
           /\ length (split " " elements) <= width
           /\ record_columns (width_in widths) r
              = flat_map (token_columns (width_in widths)) before
                ++ columns_of name 0 (padded (split " " elements) width)
                ++ flat_map (token_columns (width_in widths)) behind
           /\ length (columns_of name 0 (padded (split " " elements) width)) = width
           /\ map snd (columns_of name 0 (padded (split " " elements) width))
              = split " " elements
                ++ replicate (width - length (split " " elements)) (py "0").
Proof.
  intros Htrace Hfuel Hsel.
  destruct (trace_of_selected marker fin rs line Htrace Hsel) as (r & c & Hin & Hr & ->).
  assert (Hf : length (rec_tokens r) < fuel).
  { rewrite Forall_forall in Hfuel. apply Hfuel, list_elem_of_In, Hin. }
  exists (trace_widths rs), r, c.
  split.
  { unfold get_trace_array_lengths.
    rewrite (scan_lines_trace_widths marker fin rs Htrace). f_equal.
    apply merge_widths_empty_l. }
  split; [exact Hin|]. split; [reflexivity|].
  split; [exact (payload_of_record r c Hr)|].
  split.
  { destruct Hr as (_ & _ & _ & _ & _ & _ & _ & _ & _ & Hwf & _).
    exact (explode_record_data (trace_widths rs) (rec_tokens r) fuel Hwf Hf). }
  split; [intros st; exact (parse_line_record (trace_widths rs) r c st fuel Hr Hf)|].
  intros before name elements behind Htok.
  pose proof (array_in_trace_arrays rs r before name elements behind Hin Htok) as Harr.
  apply largest_ge in Harr.
  rewrite <- (width_in_widths_of (trace_arrays rs) name) in Harr.
  fold (trace_widths rs) in Harr.
  pose proof (split_length_pos " " elements) as Hpos.
  exists (width_in (trace_widths rs) name).
  split; [apply width_in_entry; lia|]. split; [exact Harr|].
  split.
  { unfold record_columns. rewrite Htok, flat_map_app. reflexivity. }
  split.
  - rewrite columns_of_length. apply padded_length, Harr.
  - rewrite columns_of_values. reflexivity.
Qed.

Lemma exploded_columns_equal_width_example :
  let fin := [py "  1.0: power: a={1 2} b=3,5 c={} e=1
"; py "2.0: other: a={1 2 3 4}
"; py "3.25: power: a={1 2 3} b=3
"] in
  let line := py "  1.0: power: a={1 2} b=3,5 c={} e=1
" in
  exists (widths : gmap str nat) (r : trace_record) (c : ascii),
    get_trace_array_lengths (py "power:") fin = Some widths
    /\ In r [mkRecord (py "  ") (py "1") (py "0") (py " power:")
               [Array (py "a") (py "1 2"); Scalar (py "b", py "3,5");
                EmptyArray (py "c"); Scalar (py "e", py "1")];
             mkRecord [] (py "3") (py "25") (py " power:")
               [Array (py "a") (py "1 2 3"); Scalar (py "b", py "3")]]
    /\ line = record_text r ++ [c]
    /\ payload (drop_last line)
       = Ret (join (py " ") (map token_text (List.filter filled (rec_tokens r))))
    /\ trace_parser_explode_array 5
         (join (py " ") (map token_text (List.filter filled (rec_tokens r))))
         (DefaultDict widths)
       = Some (Ret (join (py " ") (map field_text (record_columns (width_in widths) r))))
    /\ (forall st,
          parse_line 5 (DefaultDict widths) line st
          = Some (Ret match header st with
                      | [] => mkCsv (record_header (width_in widths) r)
                                (record_header (width_in widths) r
                                 ++ record_row (width_in widths) r)
                      | _ :: _ => mkCsv (header st)
                                    (data_csv st ++ record_row (width_in widths) r)
                      end))
    /\ forall before name elements behind,
         rec_tokens r = before ++ Array name elements :: behind ->
         exists width,
           widths !! name = Some width
           /\ length (split " " elements) <= width
           /\ record_columns (width_in widths) r
              = flat_map (token_columns (width_in widths)) before
                ++ columns_of name 0 (padded (split " " elements) width)
                ++ flat_map (token_columns (width_in widths)) behind
           /\ length (columns_of name 0 (padded (split " " elements) width)) = width
           /\ map snd (columns_of name 0 (padded (split " " elements) width))
              = split " " elements
                ++ replicate (width - length (split " " elements)) (py "0").
Proof.
  intros fin line.
  refine (exploded_columns_equal_width (py "power:") fin _ 5 line power_trace_example _ _).
  - repeat constructor; simpl; lia.
  - split; [left; reflexivity|vm_compute; reflexivity].
Defined.

(** The line of the example on its own terms: the array [a={1 2}] of the
    first line has the three columns [a0], [a1], [a2] of the length of [a]
    in the file, the last one a zero. *)
Example columns_on_line_example :
  get_trace_array_lengths (py "power:")
    [py "  1.0: power: a={1 2} b=3,5 c={} e=1
"; py "2.0: other: a={1 2 3 4}
"; py "3.25: power: a={1 2 3} b=3
"] = Some ({[ py "a" := 3 ]} : gmap str nat)
  /\ payload (drop_last (py "  1.0: power: a={1 2} b=3,5 c={} e=1
")) = Ret (py "a={1 2} b=3,5 e=1")
  /\ trace_parser_explode_array 5 (py "a={1 2} b=3,5 e=1")
       (DefaultDict {[ py "a" := 3 ]})
     = Some (Ret (py "a0=1 a1=2 a2=0 b=3,5 e=1"))
  /\ parse_line 5 (DefaultDict {[ py "a" := 3 ]}) (py "  1.0: power: a={1 2} b=3,5 c={} e=1
") (mkCsv [] [])
     = Some (Ret (mkCsv (py "Time,a0,a1,a2,b,e
") (py "Time,a0,a1,a2,b,e
1.0,1,2,0,35,1
"))).
Proof. repeat split; vm_compute; reflexivity. Qed.

(** Without the line break, [line[:-1]] drops the closing brace of an array
    that ends the last line: the array is not exploded, and its text stands
    in the row. *)
Example unterminated_array_line :
  get_trace_array_lengths (py "m:") [py "1.0: m: a={1 2}
"; py "2.0: m: a={1 2}"] = Some ({[ py "a" := 2 ]} : gmap str nat)
  /\ parse_into_csv 2 (py "m:") [py "1.0: m: a={1 2}
"; py "2.0: m: a={1 2}"] []
     = Some (Ret (py "Time,a0,a1
1.0,1,2
2.0,a={1,2
")).
Proof. split; vm_compute; reflexivity. Qed.

(* ------------------------------------------------------------------------- *)
(** * [Thermal] and [ThermalGovernor] on one trace *)

Section Classes.

Variable read_csv : str -> res Pandas.DataFrame.
Variable trace_cmd_report : str -> res str.

(** The construction on a [trace.txt] of well-formed records. *)
Lemma init_trace marker fuel text dat runs rs :
  trace_of marker (readlines text) rs ->
  Forall (fun r => length (rec_tokens r) < fuel) rs ->
  init read_csv trace_cmd_report fuel marker (mkWorld (Some text) dat runs)
  = (mkWorld (Some text) dat runs,
     Some (df ← create_data_frame read_csv (table_of rs);
           Ret (mkThermal marker (table_of rs) df))).
Proof.
  intros Htrace Hfuel. unfold init. cbn [trace_txt].
  rewrite (parse_into_csv_table marker _ rs fuel Htrace Hfuel). reflexivity.
Qed.

(** X19.  On a [trace.txt] whose [thermal_temperature:] lines and
    [thermal_power_allocator:] lines are lines of well-formed records,
    [Thermal(path)] and [ThermalGovernor(path)] each take their own records
    from the file, run no [trace-cmd] and leave the files as they are; the
    text handed to [pd.read_csv] and kept in [data_csv] is the table of
    these records, and it is what [write_thermal_csv] writes to
    [thermal.csv]. *)
Theorem subclasses_init_trace fuel text dat runs temps powers
  (w := mkWorld (Some text) dat runs) :
  trace_of (py "thermal_temperature:") (readlines text) temps ->
  trace_of (py "thermal_power_allocator:") (readlines text) powers ->
  Forall (fun r => length (rec_tokens r) < fuel) (temps ++ powers) ->
  Thermal_init read_csv trace_cmd_report fuel w
  = (w, Some (df ← create_data_frame read_csv (table_of temps);
              Ret (mkThermal (py "thermal_temperature:") (table_of temps) df)))
  /\ ThermalGovernor_init read_csv trace_cmd_report fuel w
     = (w, Some (df ← create_data_frame read_csv (table_of powers);
                 Ret (mkThermal (py "thermal_power_allocator:") (table_of powers) df)))
  /\ forall self,
       snd (ThermalGovernor_init read_csv trace_cmd_report fuel w) = Some (Ret self) ->
       write_thermal_csv self = (py "thermal.csv", table_of powers).
Proof.
  intros Htemps Hpowers Hfuel. apply Forall_app in Hfuel as [Hft Hfp].
  pose proof (init_trace _ fuel text dat runs temps Htemps Hft) as Ht.
  pose proof (init_trace _ fuel text dat runs powers Hpowers Hfp) as Hp.
  unfold Thermal_init, ThermalGovernor_init. subst w.
  split; [exact Ht|]. split; [exact Hp|].
  intros self. rewrite Hp. cbn [snd].
  destruct (create_data_frame read_csv (table_of powers)) as [df|e];
    cbn [mbind res_bind]; [|discriminate].
  intros [= <-]. reflexivity.
Qed.

End Classes.

Lemma subclasses_init_trace_example :
  let text := py "  1.0: thermal_temperature: id=0 temp=45000
 1.5: thermal_power_allocator: req_power={10 20} granted_power={5} Ptot_in=30
2.0: thermal_temperature: id=0 temp=45100
" in
  let temps :=
    [mkRecord (py "  ") (py "1") (py "0") (py " thermal_temperature:")
       [Scalar (py "id", py "0"); Scalar (py "temp", py "45000")];
     mkRecord [] (py "2") (py "0") (py " thermal_temperature:")
       [Scalar (py "id", py "0"); Scalar (py "temp", py "45100")]] in
  let powers :=
    [mkRecord (py " ") (py "1") (py "5") (py " thermal_power_allocator:")
       [Array (py "req_power") (py "10 20"); Array (py "granted_power") (py "5");
        Scalar (py "Ptot_in", py "30")]] in
  let read_csv : str -> res Pandas.DataFrame := fun _ => Raise ValueError in
  let trace_cmd_report : str -> res str := fun _ => Raise OSError in
  let w := mkWorld (Some text) None 0 in
  Thermal_init read_csv trace_cmd_report 4 w
  = (w, Some (df ← create_data_frame read_csv (table_of temps);
              Ret (mkThermal (py "thermal_temperature:") (table_of temps) df)))
  /\ ThermalGovernor_init read_csv trace_cmd_report 4 w
     = (w, Some (df ← create_data_frame read_csv (table_of powers);
                 Ret (mkThermal (py "thermal_power_allocator:") (table_of powers) df)))
  /\ forall self,
       snd (ThermalGovernor_init read_csv trace_cmd_report 4 w) = Some (Ret self) ->
       write_thermal_csv self = (py "thermal.csv", table_of powers).
Proof.
  intros text temps powers read_csv trace_cmd_report w.
  assert (Hlines : readlines text
            = [py "  1.0: thermal_temperature: id=0 temp=45000
"; py " 1.5: thermal_power_allocator: req_power={10 20} granted_power={5} Ptot_in=30
"; py "2.0: thermal_temperature: id=0 temp=45100
"]) by (vm_compute; reflexivity).
  refine (subclasses_init_trace read_csv trace_cmd_report 4 text None 0 temps powers _ _ _).
  - rewrite Hlines.
    refine (trace_of_record _ (mkRecord (py "  ") (py "1") (py "0") (py " thermal_temperature:")
              [Scalar (py "id", py "0"); Scalar (py "temp", py "45000")]) "010" _ _ _ _ _).
    + vm_compute. reflexivity.
    + unfold well_formed_record. cbn.
      repeat split; try discriminate; try (intuition discriminate);
        repeat constructor; try discriminate; intuition discriminate.
    + refine (trace_of_skip _ _ _ _ _ _); [vm_compute; reflexivity|].
      refine (trace_of_record _ (mkRecord [] (py "2") (py "0") (py " thermal_temperature:")
                [Scalar (py "id", py "0"); Scalar (py "temp", py "45100")]) "010" _ _ _ _ _).
      * vm_compute. reflexivity.
      * unfold well_formed_record. cbn.
        repeat split; try discriminate; try (intuition discriminate);
          repeat constructor; try discriminate; intuition discriminate.
      * constructor.
  - rewrite Hlines.
    refine (trace_of_skip _ _ _ _ _ _); [vm_compute; reflexivity|].
    refine (trace_of_record _
              (mkRecord (py " ") (py "1") (py "5") (py " thermal_power_allocator:")
                 [Array (py "req_power") (py "10 20"); Array (py "granted_power") (py "5");
                  Scalar (py "Ptot_in", py "30")]) "010" _ _ _ _ _).
    + vm_compute. reflexivity.
    + unfold well_formed_record. cbn.
      repeat split; try discriminate; try (intuition discriminate);
        repeat constructor; try discriminate; intuition discriminate.
    + refine (trace_of_skip _ _ _ _ _ _); [vm_compute; reflexivity|]. constructor.
  - repeat constructor; simpl; lia.
Defined.

(** The two tables of this trace. *)
Example subclasses_tables :
  let text := py "  1.0: thermal_temperature: id=0 temp=45000
 1.5: thermal_power_allocator: req_power={10 20} granted_power={5} Ptot_in=30
2.0: thermal_temperature: id=0 temp=45100
" in
  parse_into_csv 4 (py "thermal_temperature:") (readlines text) []
  = Some (Ret (py "Time,id,temp
1.0,0,45000
2.0,0,45100
"))
  /\ parse_into_csv 4 (py "thermal_power_allocator:") (readlines text) []
     = Some (Ret (py "Time,req_power0,req_power1,granted_power0,Ptot_in
1.5,10,20,5,30
"))
  /\ in_cols (py "req_power0" :: py "req_power1" :: py "granted_power0" :: [py "Ptot_in"])
     = [py "req_power0"; py "req_power1"]
  /\ out_cols (py "req_power0" :: py "req_power1" :: py "granted_power0" :: [py "Ptot_in"])
     = [py "granted_power0"].
Proof. repeat split; vm_compute; reflexivity. Qed.

(* ------------------------------------------------------------------------- *)
(** * The actors of [plot_inout_power] *)

Section Actors.
Import Re ReFacts.

Ltac invert_matches :=
  repeat match goal with
    | H : matches (_ :: _) _ _ _ _ |- _ => inversion H; clear H; subst
    | H : matches [] _ _ _ _ |- _ => inversion H; clear H; subst
    end.

(** A column that matches has ["_in"] in it. *)
Lemma match_actor_substring col m :
  match_actor col = Some m -> substring (py "_in") col.
Proof.
  unfold match_actor.
  destruct (match_ pat_actor_some col) as [m1|] eqn:H1.
  - intros _. apply match_inv in H1 as (_ & _ & H1).
    apply match_here_sound in H1. unfold pat_actor_some in H1. invert_matches.
    eexists ("P"%char :: _), _. reflexivity.
  - intros H2. apply match_inv in H2 as (_ & _ & H2).
    apply match_here_sound in H2. unfold pat_actor_none in H2. invert_matches.
    exists (py "P"), (after m). reflexivity.
Qed.

(** The column of the input power of an actor gives the actor. *)
Lemma match_actor_input actor :
  Forall (fun x => dot x = true) actor ->
  exists m, match_actor (py "P" ++ actor ++ py "_in") = Some m /\ g1 m = actor.
Proof.
  intros Hactor. unfold match_actor.
  destruct actor as [|a actor]; [eexists; split; reflexivity|].
  assert (Hm : match_here pat_actor_some [] [] (py "P" ++ (a :: actor) ++ py "_in")
               = Some ([a :: actor], [])).
  { change (py "P" ++ (a :: actor) ++ py "_in")
      with ("P"%char :: ((a :: actor) ++ py "_in")).
    unfold pat_actor_some. cbn [match_here]. rewrite Ascii.eqb_refl.
    assert (Hall : Forall (fun x => dot x = true) ((a :: actor) ++ py "_in")).
    { apply Forall_app. split; [exact Hactor|repeat constructor]. }
    rewrite (span_app_end _ _ Hall).
    apply (backtrack_first _ _ _ (length (a :: actor))).
    - rewrite length_app. simpl. lia.
    - rewrite drop_app_length. cbn [match_here].
      rewrite (take_group (a :: actor) (py "_in")) by reflexivity. reflexivity.
    - intros i Hi. rewrite length_app in Hi. simpl in Hi.
      rewrite drop_app_ge by (simpl; lia).
      destruct (i - length (a :: actor)) as [|[|[|[|k]]]] eqn:Hk;
        [simpl in Hk; lia|reflexivity..|simpl in Hk; lia]. }
  pose proof (match_Some pat_actor_some (py "P" ++ (a :: actor) ++ py "_in") []
                [a :: actor]) as Hmatch.
  rewrite app_nil_r in Hmatch. rewrite (Hmatch Hm).
  eexists. split; reflexivity.
Qed.

Lemma actors_of_column c :
  well_formed_column c ->
  match match_actor (power_column_name c) with
  | Some m => if bool_decide (power_column_name c <> py "Ptot_in") then [g1 m] else []
  | None => []
  end
  = match c with
    | InputPower actor => if bool_decide (actor <> py "tot") then [actor] else []
    | OtherColumn _ => []
    end.
Proof.
  destruct c as [actor|col]; cbn [well_formed_column power_column_name]; intros Hc.
  - destruct (match_actor_input actor Hc) as (m & -> & ->).
    destruct (decide (actor = py "tot")) as [->|Hne].
    + rewrite !bool_decide_eq_false_2; [reflexivity|tauto|].
      intros H. apply H. reflexivity.
    + rewrite !bool_decide_eq_true_2; [reflexivity|exact Hne|].
      intros H. apply Hne.
      change (py "Ptot_in") with (py "P" ++ py "tot" ++ py "_in") in H.
      apply app_inv_head, app_inv_tail in H. exact H.
  - destruct (match_actor col) as [m|] eqn:Hm; [|reflexivity].
    exfalso. exact (Hc (match_actor_substring col m Hm)).
Qed.

End Actors.

(** X20.  For a table whose columns are input power columns [P<actor>_in]
    of actors without a line break in their name and other columns without
    ["_in"] in their name, [plot_inout_power] plots, in the order of the
    columns, one pair [P<actor>_in], [P<actor>_out] for each input power
    column but [Ptot_in]: the greedy [.*] gives the whole name of the actor,
    and no other column gives an actor. *)
Theorem plot_inout_power_actors (cs : list power_column) :
  Forall well_formed_column cs ->
  plot_inout_power_cols (map power_column_name cs) = map inout_cols (plotted_actors cs).
Proof.
  intros Hcs. unfold plot_inout_power_cols. f_equal.
  unfold actors, plotted_actors.
  induction Hcs as [|c cs Hc _ IH]; [reflexivity|].
  cbn [map flat_map]. rewrite IH, (actors_of_column c Hc). reflexivity.
Qed.

Lemma plot_inout_power_actors_example :
  plot_inout_power_cols
    [py "Time"; py "Pgpu_in"; py "Pgpu_out"; py "Pa15_in"; py "Pa15_out"; py "Ptot_in";
     py "Ptot_out"]
  = [[py "Pgpu_in"; py "Pgpu_out"]; [py "Pa15_in"; py "Pa15_out"]].
Proof.
  refine (plot_inout_power_actors
            [OtherColumn (py "Time"); InputPower (py "gpu"); OtherColumn (py "Pgpu_out");
             InputPower (py "a15"); OtherColumn (py "Pa15_out"); InputPower (py "tot");
             OtherColumn (py "Ptot_out")] _).
  repeat constructor;
    intros (pre & post & H);
    repeat (destruct pre as [|? pre]; try discriminate H; injection H as ? H; subst).
Defined.
